(** * elftools/dwarf/typeunit.py: the lazy DIE cache and tree navigation
      of a DWARF type unit.

    The development embeds [TypeUnit] (src/elftools/dwarf/typeunit.py) as
    state-passing functions over a world made of the unit and the heap of
    DIE objects it created.  Python object identity is a heap reference;
    exceptions are an error result that keeps the state reached so far. *)

From Stdlib Require Import ZArith Lia DecimalString.
From stdpp Require Import base list strings.

Open Scope Z_scope.

(** ** Python values the module manipulates *)

(** Exceptions the code of typeunit.py can let escape. *)
Inductive exception : Type :=
| DWARFError (msg : string)           (* raised by dwarf_assert *)
| NotImplementedError (msg : string)  (* line 171 *)
| IndexError (msg : string)           (* list subscript out of range *)
| AttributeError (msg : string)       (* attribute access on None *)
| ParseFailure (code : Z)             (* a failure of the DIE constructor *)
| RecursionError.                     (* the fuel of the model ran out *)

(** A reference to a DIE object: reference equality in Python is equality
    of these. *)
Abbreviation ref := nat (only parsing).

(** [%s] of a Python int. *)
Definition str_of_int (z : Z) : string := NilZero.string_of_int (Z.to_int z).

(** [l[i]] for a Python list: negative indices count from the end. *)
Definition py_index {A} (l : list A) (i : Z) : option A :=
  if 0 <=? i then l !! Z.to_nat i
  else if - Z.of_nat (length l) <=? i then l !! Z.to_nat (Z.of_nat (length l) + i)
  else None.

(** [l.insert(i, x)] for [0 <= i]: an index past the end appends. *)
Definition list_insert_at {A} (i : nat) (x : A) (l : list A) : list A :=
  take i l ++ x :: drop i l.

(** [bisect.bisect_right(a, x)]: the loop of the standard library,
    [lo, hi = 0, len(a)]; [while lo < hi: mid = (lo + hi) // 2;
    if x < a[mid]: hi = mid else: lo = mid + 1]. *)
Fixpoint bisect_right_loop (fuel : nat) (a : list Z) (x : Z) (lo hi : nat) : nat :=
  match fuel with
  | O => lo
  | S fuel' =>
      if (lo <? hi)%nat then
        let mid := ((lo + hi) / 2)%nat in
        match a !! mid with
        | Some am =>
            if x <? am then bisect_right_loop fuel' a x lo mid
            else bisect_right_loop fuel' a x (S mid) hi
        | None => lo
        end
      else lo
  end.

Definition bisect_right (a : list Z) (x : Z) : nat :=
  bisect_right_loop (length a) a x 0 (length a).

(** ** DIE objects (elftools/dwarf/die.py is not part of the sources) *)

Module DIE.

(** An attribute value: only its form and value are read here. *)
Record AttributeValue : Type := mkAttr { form : string; value : Z }.

(** What the constructor reads from the stream at an offset. *)
Record parsed : Type := mkParsed {
  p_tag : option string;
  p_has_children : bool;
  p_size : Z;
  p_attributes : list (string * AttributeValue)
}.

Record t : Type := mk {
  offset : Z;
  tag : option string;
  has_children : bool;
  size : Z;
  attributes : list (string * AttributeValue);
  _parent : option ref;
  _terminator : option ref
}.

(** Modelled from the spec: [DIE.is_null] (die.py is missing): a null
    DIE is a degenerate entry with tag absent. *)
Definition is_null (d : t) : bool :=
  match tag d with None => true | Some _ => false end.

(** Modelled from the spec: the state of a DIE right after its
    constructor returns (die.py is missing): the offset it was asked
    for, the parsed fields, no parent, no terminator. *)
Definition init (off : Z) (p : parsed) : t :=
  mk off (p_tag p) (p_has_children p) (p_size p) (p_attributes p) None None.

Definition with_parent (d : t) (p : ref) : t :=
  mk (offset d) (tag d) (has_children d) (size d) (attributes d)
     (Some p) (_terminator d).

Definition with_terminator (d : t) (c : ref) : t :=
  mk (offset d) (tag d) (has_children d) (size d) (attributes d)
     (_parent d) (Some c).

Definition with_attributes (d : t) (a : list (string * AttributeValue)) : t :=
  mk (offset d) (tag d) (has_children d) (size d) a
     (_parent d) (_terminator d).

(** [name in die.attributes] and [die.attributes[name]]. *)
Fixpoint get_attr (name : string) (a : list (string * AttributeValue))
  : option AttributeValue :=
  match a with
  | [] => None
  | (k, v) :: a' => if String.eqb k name then Some v else get_attr name a'
  end.

End DIE.

(** ** The unit *)

(** The header of the unit, a mapping from entry names to values: the
    two entries [TypeUnit] itself reads through [self[...]], and the
    other entries the header has (the version and so on), by name. *)
Record TU_header : Type := mkHeader {
  unit_length : Z;
  debug_abbrev_offset : Z;
  other_entries : list (string * Z)
}.

(** [structs]: the width of the initial length field is decided by
    DWARFStructs, which is not part of the sources; it is taken as given. *)
Record DWARFStructs : Type := mkStructs {
  dwarf_format_ : Z;
  initial_length_field_size : Z
}.

Record TypeUnit : Type := mkTU {
  header : TU_header;
  structs : DWARFStructs;
  tu_offset : Z;
  tu_die_offset : Z;
  (* the abbreviation table, once loaded; a table is named by its offset
     in the abbreviation section, the key under which the context keeps it *)
  _abbrev_table : option Z;
  _dielist : list ref;
  _diemap : list Z
}.

(** [TypeUnit.__init__]: no abbreviation table yet, both lists empty. *)
Definition TypeUnit_init (h : TU_header) (s : DWARFStructs)
           (tu_off tu_die_off : Z) : TypeUnit :=
  mkTU h s tu_off tu_die_off None [] [].

Definition cu_offset (u : TypeUnit) : Z := tu_offset u.
Definition cu_die_offset (u : TypeUnit) : Z := tu_die_offset u.
Definition dwarf_format (u : TypeUnit) : Z := dwarf_format_ (structs u).

(** [self.header[name]]: [None] stands for the KeyError of a name the
    header does not have. *)
Fixpoint header_entry (name : string) (l : list (string * Z)) : option Z :=
  match l with
  | [] => None
  | (k, v) :: l' => if String.eqb k name then Some v else header_entry name l'
  end.

(** [__getitem__]: dict-like access to header entries. *)
Definition getitem (u : TypeUnit) (name : string) : option Z :=
  if String.eqb name "unit_length" then Some (unit_length (header u))
  else if String.eqb name "debug_abbrev_offset"
       then Some (debug_abbrev_offset (header u))
  else header_entry name (other_entries (header u)).

(** The [size] property. *)
Definition size (u : TypeUnit) : Z :=
  unit_length (header u) + initial_length_field_size (structs u).

(** The world: one unit and the DIE objects allocated so far. *)
Record World : Type := mkWorld {
  tu : TypeUnit;
  heap : list DIE.t
}.

Definition new_world (u : TypeUnit) : World := mkWorld u [].

Definition set_cache (w : World) (dl : list ref) (dm : list Z) : World :=
  mkWorld (mkTU (header (tu w)) (structs (tu w)) (tu_offset (tu w))
                (tu_die_offset (tu w)) (_abbrev_table (tu w)) dl dm)
          (heap w).

Definition set_abbrev_table (w : World) (a : Z) : World :=
  mkWorld (mkTU (header (tu w)) (structs (tu w)) (tu_offset (tu w))
                (tu_die_offset (tu w)) (Some a)
                (_dielist (tu w)) (_diemap (tu w)))
          (heap w).

Definition set_heap (w : World) (h : list DIE.t) : World := mkWorld (tu w) h.

(** ** State and exceptions *)

Definition M (A : Type) : Type := World -> (exception + A) * World.

Definition ret {A} (a : A) : M A := fun w => (inr a, w).
Definition raise {A} (e : exception) : M A := fun w => (inl e, w).
Definition bind {A B} (m : M A) (k : A -> M B) : M B :=
  fun w => match m w with
           | (inl e, w') => (inl e, w')
           | (inr a, w') => k a w'
           end.
Definition gets {A} (f : World -> A) : M A := fun w => (inr (f w), w).
Definition modify (f : World -> World) : M unit := fun w => (inr tt, f w).

Notation "'let*' x := m 'in' k" := (bind m (fun x => k))
  (at level 10, x name, m at level 100, k at level 200).
Notation "m ;; k" := (bind m (fun _ => k))
  (at level 100, k at level 200, right associativity).

Definition lift_opt {A} (e : exception) (o : option A) : M A :=
  match o with Some a => ret a | None => raise e end.

(** Reading a field of the object behind a reference. *)
Definition deref (r : ref) : M DIE.t :=
  fun w => lift_opt (AttributeError "dangling reference") (heap w !! r) w.

Definition update (r : ref) (f : DIE.t -> DIE.t) : M unit :=
  let* d := deref r in
  modify (fun w => set_heap w (<[r := f d]> (heap w))).

(** Modelled from the spec: [DIE.set_parent] (die.py is missing) records
    the parent back-reference. *)
Definition set_parent (child die : ref) : M unit :=
  update child (fun d => DIE.with_parent d die).

Definition set_terminator (die child : ref) : M unit :=
  update die (fun d => DIE.with_terminator d child).

(** Modelled from the spec: [dwarf_assert] (elftools/common/utils.py is
    missing); the docstring of [get_DIE_from_refaddr] names the exception:
    a DWARFError is raised when the condition is false. *)
Definition dwarf_assert (cond : bool) (msg : string) : M unit :=
  if cond then ret tt else raise (DWARFError msg).

Definition list_getitem {A} (l : list A) (i : Z) : M A :=
  lift_opt (IndexError "list index out of range") (py_index l i).

(** The outcome of a call into code that keeps no state of the unit. *)
Definition lift_result {A} (r : exception + A) : M A :=
  match r with inl e => raise e | inr a => ret a end.

(** [get_abbrev_table]: the table is asked of the context on the first
    call, under the offset the header declares, and kept.  The context's
    [dwarfinfo.get_abbrev_table] is taken as given: for an offset it
    raises or names a table. *)
Definition get_abbrev_table (dwarfinfo_get_abbrev_table : Z -> exception + Z)
  : M Z :=
  let* t := gets (fun w => _abbrev_table (tu w)) in
  match t with
  | Some a => ret a
  | None =>
      let* off := gets (fun w => debug_abbrev_offset (header (tu w))) in
      let* a := lift_result (dwarfinfo_get_abbrev_table off) in
      modify (fun w => set_abbrev_table w a) ;;
      ret a
  end.

(** ** The operations of [TypeUnit] *)

Section Operations.

(** The DIE constructor [DIE(cu, stream, offset)] reads the stream of
    the unit, which never changes: it is a function of the offset that
    either fails or gives the parsed fields. *)
Variable DIE_parse : Z -> exception + DIE.parsed.

(** [DIE._translate_indirect_attributes] rewrites the attributes of the
    top DIE; it belongs to die.py and is taken as given. *)
Variable translate_indirect :
  list (string * DIE.AttributeValue) ->
  exception + list (string * DIE.AttributeValue).

(** [self.dwarfinfo.supplementary_dwarfinfo], as a truth value. *)
Variable supplementary_dwarfinfo : bool.

(** [DIE.get_DIE_from_attribute], taken as given. *)
Variable get_DIE_from_attribute : ref -> string -> M ref.

(** Allocation of a DIE object: nothing is allocated when the
    constructor raises.  The constructor belongs to die.py: of what it
    does, this is the object it builds from the stream.  It also asks
    the unit for its abbreviation table, a call that is no part of this
    function: [_abbrev_table] is written by [get_abbrev_table] alone. *)
Definition DIE_new (off : Z) : M ref :=
  fun w =>
    match DIE_parse off with
    | inl e => (inl e, w)
    | inr p => (inr (length (heap w)),
                set_heap w (heap w ++ [DIE.init off p]))
    end.

Definition _translate_indirect_attributes (r : ref) : M unit :=
  let* d := deref r in
  match translate_indirect (DIE.attributes d) with
  | inl e => raise e
  | inr a => update r (fun d => DIE.with_attributes d a)
  end.

Definition get_top_DIE : M ref :=
  let* diemap := gets (fun w => _diemap (tu w)) in
  match diemap with
  | _ :: _ =>
      let* dielist := gets (fun w => _dielist (tu w)) in
      list_getitem dielist 0
  | [] =>
      let* off := gets (fun w => tu_die_offset (tu w)) in
      let* top := DIE_new off in
      modify (fun w => set_cache w (list_insert_at 0 top (_dielist (tu w)))
                                   (list_insert_at 0 off (_diemap (tu w)))) ;;
      _translate_indirect_attributes top ;;
      ret top
  end.

Definition has_top_DIE : M bool :=
  let* diemap := gets (fun w => _diemap (tu w)) in
  ret (match diemap with [] => false | _ :: _ => true end).

Definition _get_cached_DIE (off : Z) : M ref :=
  let* top := get_top_DIE in
  let* diemap := gets (fun w => _diemap (tu w)) in
  let i := bisect_right diemap off in
  let* found := list_getitem diemap (Z.of_nat i - 1) in
  if off =? found then
    let* dielist := gets (fun w => _dielist (tu w)) in
    list_getitem dielist (Z.of_nat i - 1)
  else
    let* die := DIE_new off in
    modify (fun w => set_cache w (list_insert_at i die (_dielist (tu w)))
                                 (list_insert_at i off (_diemap (tu w)))) ;;
    ret die.

Definition get_DIE_from_refaddr (refaddr : Z) : M ref :=
  let* u := gets tu in
  dwarf_assert
    ((cu_die_offset u <=? refaddr) && (refaddr <? cu_offset u + size u))
    ("refaddr " +:+ str_of_int refaddr +:+ " not in DIE range of CU "
                +:+ str_of_int (cu_offset u)) ;;
  _get_cached_DIE refaddr.

(** *** [iter_DIE_children], a generator

    A generator object is its suspension point: not yet started,
    suspended at [yield child] with the locals [die] and [cur_offset],
    or finished. *)
Inductive children_gen : Type :=
| GenStart (die : ref)
| GenYielded (die : ref) (cur_offset : Z) (child : ref)
| GenDone.

Definition sibling_forms : list string :=
  ["DW_FORM_ref1"; "DW_FORM_ref2"; "DW_FORM_ref4"; "DW_FORM_ref8";
   "DW_FORM_ref"; "DW_FORM_ref_udata"].

Definition form_in (f : string) (l : list string) : bool :=
  existsb (String.eqb f) l.

(** Lines 162-171: the cursor a sibling attribute gives. *)
Definition sibling_offset (sibling : DIE.AttributeValue) : M Z :=
  if form_in (DIE.form sibling) sibling_forms then
    let* base := gets (fun w => tu_offset (tu w)) in
    ret (DIE.value sibling + base)
  else if String.eqb (DIE.form sibling) "DW_FORM_ref_addr" then
    ret (DIE.value sibling)
  else raise (NotImplementedError ("sibling in form " +:+ DIE.form sibling)).

(** Lines 150-158: one turn of the loop up to its [yield]. *)
Definition fetch_child (die : ref) (cur_offset : Z)
  : M (option ref * children_gen) :=
  let* child := _get_cached_DIE cur_offset in
  set_parent child die ;;
  let* c := deref child in
  if DIE.is_null c then
    set_terminator die child ;;
    ret (None, GenDone)
  else ret (Some child, GenYielded die cur_offset child).

(** [for c in gen: body(c)], with what the bodies return kept in order. *)
Fixpoint for_in {A} (next : children_gen -> M (option ref * children_gen))
         (body : ref -> M A) (n : nat) (g : children_gen) : M (list A) :=
  match n with
  | O => raise RecursionError
  | S n' =>
      let* r := next g in
      match r with
      | (None, _) => ret []
      | (Some c, g') =>
          let* x := body c in
          let* xs := for_in next body n' g' in
          ret (x :: xs)
      end
  end.

(** [for _ in gen: pass] *)
Definition drain (next : children_gen -> M (option ref * children_gen))
           (n : nat) (g : children_gen) : M unit :=
  for_in next (fun _ => ret tt) n g ;; ret tt.

(** [next(gen)]: [None] stands for StopIteration. *)
Fixpoint gen_next (fuel : nat) (g : children_gen)
  : M (option ref * children_gen) :=
  match fuel with
  | O => raise RecursionError
  | S fuel' =>
      match g with
      | GenDone => ret (None, GenDone)
      | GenStart die =>
          let* d := deref die in
          if negb (DIE.has_children d) then ret (None, GenDone)
          else fetch_child die (DIE.offset d + DIE.size d)
      | GenYielded die cur_offset child =>
          let* c := deref child in
          let* cur_offset' :=
            if negb (DIE.has_children c) then ret (cur_offset + DIE.size c)
            else match DIE.get_attr "DW_AT_sibling" (DIE.attributes c) with
                 | Some sibling => sibling_offset sibling
                 | None =>
                     match DIE._terminator c with
                     | None => drain (gen_next fuel') fuel' (GenStart child)
                     | Some _ => ret tt
                     end ;;
                     let* c' := deref child in
                     let* t := lift_opt
                                 (AttributeError "'NoneType' object has no attribute 'offset'")
                                 (DIE._terminator c') in
                     let* td := deref t in
                     ret (DIE.offset td + DIE.size td)
                 end in
          fetch_child die cur_offset'
      end
  end.

(** [list(gen)] *)
Definition collect (next : children_gen -> M (option ref * children_gen))
           (n : nat) (g : children_gen) : M (list ref) :=
  for_in next (fun c => ret c) n g.

Definition iter_DIE_children (fuel : nat) (die : ref) : M (list ref) :=
  collect (gen_next fuel) fuel (GenStart die).

(** *** [_iter_DIE_subtree] and [iter_DIEs]

    [for c in die.iter_children(): yield from die.cu._iter_DIE_subtree(c)]:
    the body runs between two resumptions of the children generator.
    Modelled from the spec: [DIE.iter_children] (die.py is missing) is the
    child iteration of the owning unit. *)
Definition for_children (next : children_gen -> M (option ref * children_gen))
           (body : ref -> M (list (option ref)))
           (n : nat) (g : children_gen) : M (list (option ref)) :=
  let* xss := for_in next body n g in
  ret (concat xss).

(** The values yielded are Python values: [None] is what
    [yield die._terminator] gives when no terminator was recorded.
    The world holds one unit, and the DIE walked is taken to be one of
    its DIEs: [die.cu] is [self], so that [die.iter_children()] and
    [die.cu._iter_DIE_subtree] are the methods of this unit.  A DIE of
    another unit, which an import may resolve to, has its children walked
    by the code of that unit, which the world does not hold. *)
Fixpoint _iter_DIE_subtree (fuel : nat) (die : ref) : M (list (option ref)) :=
  match fuel with
  | O => raise RecursionError
  | S fuel' =>
      let* d0 := deref die in
      let* die :=
        if (match DIE.tag d0 with
            | Some t => String.eqb t "DW_TAG_imported_unit"
            | None => false
            end) && supplementary_dwarfinfo
        then get_DIE_from_attribute die "DW_AT_import"
        else ret die in
      let* d := deref die in
      if DIE.has_children d then
        let* cs := for_children (gen_next fuel') (_iter_DIE_subtree fuel')
                                fuel' (GenStart die) in
        let* d' := deref die in
        ret (Some die :: cs ++ [DIE._terminator d'])
      else ret [Some die]
  end.

Definition iter_DIEs (fuel : nat) : M (list (option ref)) :=
  let* top := get_top_DIE in
  _iter_DIE_subtree fuel top.

End Operations.

(** ** Lists: subscripts, insertion and bisection *)

(** Strictly ascending, by positions. *)
Definition ascending (l : list Z) : Prop :=
  forall i j x y, (i < j)%nat -> l !! i = Some x -> l !! j = Some y -> x < y.

Lemma ascending_nil : ascending [].
Proof. intros i j x y _ H. rewrite lookup_nil in H. discriminate. Qed.

Lemma ascending_inj l i j x :
  ascending l -> l !! i = Some x -> l !! j = Some x -> i = j.
Proof.
  intros Ha Hi Hj.
  destruct (Nat.lt_trichotomy i j) as [H|[H|H]]; [|assumption|].
  - pose proof (Ha _ _ _ _ H Hi Hj). lia.
  - pose proof (Ha _ _ _ _ H Hj Hi). lia.
Qed.

Lemma py_index_nonneg {A} (l : list A) (i : nat) :
  py_index l (Z.of_nat i) = l !! i.
Proof.
  unfold py_index. destruct (Z.leb_spec 0 (Z.of_nat i)); [|lia].
  by rewrite Nat2Z.id.
Qed.

Lemma py_index_pred {A} (l : list A) (i : nat) :
  (1 <= i)%nat -> py_index l (Z.of_nat i - 1) = l !! (i - 1)%nat.
Proof.
  intros Hi. replace (Z.of_nat i - 1) with (Z.of_nat (i - 1)) by lia.
  apply py_index_nonneg.
Qed.

Lemma py_index_minus_one {A} (l : list A) :
  py_index l (-1) = last l.
Proof.
  unfold py_index. simpl (0 <=? -1).
  destruct (Z.leb_spec (- Z.of_nat (length l)) (-1)) as [H|H].
  - replace (Z.to_nat (Z.of_nat (length l) + -1)) with (Init.Nat.pred (length l)) by lia.
    by rewrite last_lookup.
  - destruct l; [done | simpl in H; lia].
Qed.

Lemma length_list_insert_at {A} (i : nat) (x : A) l :
  length (list_insert_at i x l) = S (length l).
Proof.
  unfold list_insert_at. rewrite length_app. simpl.
  rewrite length_take, length_drop. lia.
Qed.

Lemma lookup_list_insert_at_lt {A} (i j : nat) (x : A) l :
  (j < i)%nat -> (i <= length l)%nat -> list_insert_at i x l !! j = l !! j.
Proof.
  intros Hj Hi. unfold list_insert_at.
  rewrite lookup_app_l by (rewrite length_take; lia).
  by rewrite lookup_take_lt.
Qed.

Lemma lookup_list_insert_at_eq {A} (i : nat) (x : A) l :
  (i <= length l)%nat -> list_insert_at i x l !! i = Some x.
Proof.
  intros Hi. unfold list_insert_at.
  rewrite lookup_app_r by (rewrite length_take; lia).
  rewrite length_take. by replace (i - i `min` length l)%nat with 0%nat by lia.
Qed.

Lemma lookup_list_insert_at_gt {A} (i j : nat) (x : A) l :
  (i <= j)%nat -> (i <= length l)%nat -> list_insert_at i x l !! S j = l !! j.
Proof.
  intros Hj Hi. unfold list_insert_at.
  rewrite lookup_app_r by (rewrite length_take; lia).
  rewrite length_take.
  replace (S j - i `min` length l)%nat with (S (j - i)) by lia.
  simpl. rewrite lookup_drop. f_equal. lia.
Qed.

(** Every position of the list after an insertion: the new element, or
    an old element at its old or shifted position. *)
Lemma lookup_list_insert_at_inv {A} (i k : nat) (x y : A) l :
  (i <= length l)%nat ->
  list_insert_at i x l !! k = Some y ->
  (k = i /\ y = x) \/
  ((k < i)%nat /\ l !! k = Some y) \/
  ((i < k)%nat /\ l !! (k - 1)%nat = Some y).
Proof.
  intros Hi Hk.
  destruct (Nat.lt_trichotomy k i) as [H|[H|H]].
  - right; left. rewrite lookup_list_insert_at_lt in Hk by lia. auto.
  - subst k. rewrite lookup_list_insert_at_eq in Hk by lia. left. split; congruence.
  - right; right. destruct k as [|k]; [lia|].
    rewrite lookup_list_insert_at_gt in Hk by lia.
    split; [lia|]. by replace (S k - 1)%nat with k by lia.
Qed.

Section Bisect.

Variables (a : list Z) (x : Z).
Hypothesis Hasc : ascending a.

Lemma bisect_right_loop_spec fuel : forall lo hi,
  (hi - lo <= fuel)%nat -> (lo <= hi <= length a)%nat ->
  (forall j y, (j < lo)%nat -> a !! j = Some y -> y <= x) ->
  (forall j y, (hi <= j)%nat -> a !! j = Some y -> x < y) ->
  let r := bisect_right_loop fuel a x lo hi in
  (lo <= r <= hi)%nat /\
  (forall j y, (j < r)%nat -> a !! j = Some y -> y <= x) /\
  (forall j y, (r <= j)%nat -> a !! j = Some y -> x < y).
Proof.
  induction fuel as [|fuel IH]; intros lo hi Hf Hr Hlo Hhi; cbn [bisect_right_loop].
  - assert (lo = hi) by lia. subst. repeat split; auto; lia.
  - destruct (Nat.ltb_spec lo hi) as [Hlt|Hge].
    + set (mid := ((lo + hi) / 2)%nat).
      assert (Hmid : (lo <= mid < hi)%nat).
      { subst mid. split.
        - apply Nat.div_le_lower_bound; lia.
        - apply Nat.Div0.div_lt_upper_bound; lia. }
      destruct (lookup_lt_is_Some_2 a mid) as [am Ham]; [lia|].
      rewrite Ham. destruct (Z.ltb_spec x am) as [Hx|Hx].
      * destruct (IH lo mid) as (H1 & H2 & H3); try lia; auto.
        { intros j y Hj Hy. destruct (decide (j = mid)) as [->|Hne].
          - congruence.
          - assert (am < y) by (apply (Hasc mid j); auto; lia). lia. }
        repeat split; auto; lia.
      * destruct (IH (S mid) hi) as (H1 & H2 & H3); try lia; auto.
        { intros j y Hj Hy. destruct (decide (j = mid)) as [->|Hne].
          - assert (y = am) by congruence. lia.
          - assert (y < am) by (apply (Hasc j mid); auto; lia). lia. }
        repeat split; auto; lia.
    + assert (lo = hi) by lia. subst. repeat split; auto; lia.
Qed.

Lemma bisect_right_spec :
  let r := bisect_right a x in
  (r <= length a)%nat /\
  (forall j y, (j < r)%nat -> a !! j = Some y -> y <= x) /\
  (forall j y, (r <= j)%nat -> a !! j = Some y -> x < y).
Proof.
  unfold bisect_right.
  destruct (bisect_right_loop_spec (length a) 0 (length a)) as (H1 & H2 & H3);
    try lia.
  - intros j y Hj Hy. apply lookup_lt_Some in Hy. lia.
  - repeat split; auto; lia.
Qed.

(** A cached offset is found just left of the insertion point. *)
Lemma bisect_right_found i :
  a !! i = Some x -> bisect_right a x = S i.
Proof.
  intros Hi. destruct bisect_right_spec as (H1 & H2 & H3).
  destruct (Nat.lt_trichotomy (bisect_right a x) (S i)) as [H|[H|H]]; [|done|].
  - assert (x < x) by (apply (H3 i x); [lia|done]). lia.
  - destruct (lookup_lt_is_Some_2 a (S i)) as [y Hy].
    { lia. }
    assert (x < y) by (apply (Hasc i (S i)); auto).
    specialize (H2 (S i) y H Hy). lia.
Qed.

(** Inserting at the insertion point keeps the list ascending when the
    element is new. *)
Lemma ascending_insert_bisect :
  (forall j, a !! j <> Some x) ->
  ascending (list_insert_at (bisect_right a x) x a).
Proof.
  intros Hnew. destruct bisect_right_spec as (H1 & H2 & H3).
  set (r := bisect_right a x) in *.
  assert (Hlt : forall j y, (j < r)%nat -> a !! j = Some y -> y < x).
  { intros j y Hj Hy. specialize (H2 j y Hj Hy).
    assert (y <> x) by (intros ->; exact (Hnew j Hy)). lia. }
  intros i j u v Hij Hu Hv.
  apply lookup_list_insert_at_inv in Hu; [|lia].
  apply lookup_list_insert_at_inv in Hv; [|lia].
  destruct Hu as [[-> ->]|[[Hi Hu]|[Hi Hu]]];
    destruct Hv as [[-> ->]|[[Hj Hv]|[Hj Hv]]]; try lia.
  - apply (H3 (j - 1)%nat); [lia|done].
  - eapply Hlt; eauto.
  - apply (Hasc i j); auto.
  - apply (Hasc i (j - 1)%nat); auto; lia.
  - apply (Hasc (i - 1)%nat (j - 1)%nat); auto; lia.
Qed.

End Bisect.

(** ** The cache invariant *)

(** The two lists are parallel, the offsets ascend strictly, and each
    cached object sits under its own offset. *)
Record cache_inv (w : World) : Prop := mkCacheInv {
  inv_len : length (_dielist (tu w)) = length (_diemap (tu w));
  inv_asc : ascending (_diemap (tu w));
  inv_obj : forall i o r,
      _diemap (tu w) !! i = Some o -> _dielist (tu w) !! i = Some r ->
      exists d, heap w !! r = Some d /\ DIE.offset d = o
}.

(** The object [r] is the one cached for offset [o]. *)
Definition cached (w : World) (o : Z) (r : ref) : Prop :=
  exists i, _diemap (tu w) !! i = Some o /\ _dielist (tu w) !! i = Some r.

(** The top entry is cached first: position 0 holds the unit's top
    offset (and so, the list ascending, the minimum). *)
Definition top_first (w : World) : Prop :=
  _diemap (tu w) = [] \/ _diemap (tu w) !! 0%nat = Some (tu_die_offset (tu w)).

(** The fields of the unit that no operation writes. *)
Definition same_unit (w w' : World) : Prop :=
  header (tu w) = header (tu w') /\ structs (tu w) = structs (tu w') /\
  tu_offset (tu w) = tu_offset (tu w') /\
  tu_die_offset (tu w) = tu_die_offset (tu w').

(** What never changes in a DIE once it is parsed. *)
Definition same_entry (d d' : DIE.t) : Prop :=
  DIE.offset d = DIE.offset d' /\ DIE.tag d = DIE.tag d' /\
  DIE.has_children d = DIE.has_children d' /\ DIE.size d = DIE.size d'.

(** [w'] is a later world: same unit, every object still there with the
    same parsed fields, every cached entry still cached. *)
Record extends (w w' : World) : Prop := mkExtends {
  ext_unit : same_unit w w';
  ext_heap : forall r d, heap w !! r = Some d ->
      exists d', heap w' !! r = Some d' /\ same_entry d d' /\
                 (DIE.offset d <> tu_die_offset (tu w) ->
                  DIE.attributes d = DIE.attributes d');
  ext_cached : forall o r, cached w o r -> cached w' o r
}.

Lemma same_entry_refl d : same_entry d d.
Proof. by repeat split. Qed.

Lemma same_entry_trans d1 d2 d3 :
  same_entry d1 d2 -> same_entry d2 d3 -> same_entry d1 d3.
Proof. unfold same_entry. intuition congruence. Qed.

Lemma extends_refl w : extends w w.
Proof.
  split; [by repeat split| |auto].
  intros r d H. exists d. split; [done|]. split; [apply same_entry_refl|done].
Qed.

Lemma extends_trans w1 w2 w3 : extends w1 w2 -> extends w2 w3 -> extends w1 w3.
Proof.
  intros [U1 H1 C1] [U2 H2 C2]. split.
  - unfold same_unit in *. intuition congruence.
  - intros r d Hd. destruct (H1 r d Hd) as (d2 & Hd2 & S12 & A12).
    destruct (H2 r d2 Hd2) as (d3 & Hd3 & S23 & A23).
    exists d3. split; [done|]. split; [eapply same_entry_trans; eauto|].
    intros Hne. rewrite A12 by done. apply A23.
    destruct S12 as (E & _). destruct U1 as (_ & _ & _ & T). congruence.
  - auto.
Qed.

Lemma cached_offset w o r :
  cache_inv w -> cached w o r ->
  exists d, heap w !! r = Some d /\ DIE.offset d = o.
Proof. intros Hinv (i & Ho & Hr). eapply inv_obj; eauto. Qed.

Lemma cached_fun w o r r' :
  cache_inv w -> cached w o r -> cached w o r' -> r = r'.
Proof.
  intros Hinv (i & Ho & Hr) (j & Ho' & Hr').
  assert (i = j) by (eapply ascending_inj; eauto using inv_asc). subst j.
  congruence.
Qed.

(** ** Allocating and caching one entry *)

(** The world after [die = DIE(offset=off)] succeeded with fields [p] and
    both lists received their [insert(i, ...)]. *)
Definition alloc_insert (w : World) (i : nat) (off : Z) (p : DIE.parsed) : World :=
  set_cache (set_heap w (heap w ++ [DIE.init off p]))
            (list_insert_at i (length (heap w)) (_dielist (tu w)))
            (list_insert_at i off (_diemap (tu w))).

Lemma cached_alloc_insert w i off p o r :
  cache_inv w -> (i <= length (_diemap (tu w)))%nat ->
  cached w o r -> cached (alloc_insert w i off p) o r.
Proof.
  intros Hinv Hi (k & Ho & Hr). pose proof (inv_len w Hinv) as L.
  destruct (Nat.lt_ge_cases k i) as [Hk|Hk].
  - exists k. simpl. by rewrite !lookup_list_insert_at_lt by lia.
  - exists (S k). simpl. by rewrite !lookup_list_insert_at_gt by lia.
Qed.

Lemma cached_alloc_insert_new w i off p :
  cache_inv w -> (i <= length (_diemap (tu w)))%nat ->
  cached (alloc_insert w i off p) off (length (heap w)).
Proof.
  intros Hinv Hi. pose proof (inv_len w Hinv) as L.
  exists i. simpl. by rewrite !lookup_list_insert_at_eq by lia.
Qed.

Lemma extends_alloc_insert w i off p :
  cache_inv w -> (i <= length (_diemap (tu w)))%nat ->
  extends w (alloc_insert w i off p).
Proof.
  intros Hinv Hi. split.
  - by repeat split.
  - intros r d Hd. exists d. simpl. rewrite lookup_app_l by (eapply lookup_lt_Some; eauto).
    split; [done|]. split; [apply same_entry_refl|done].
  - intros o r. by apply cached_alloc_insert.
Qed.

Lemma cache_inv_alloc_insert w off p :
  cache_inv w -> (forall j, _diemap (tu w) !! j <> Some off) ->
  cache_inv (alloc_insert w (bisect_right (_diemap (tu w)) off) off p).
Proof.
  intros Hinv Hnew. pose proof (inv_len w Hinv) as L.
  pose proof (inv_asc w Hinv) as A.
  destruct (bisect_right_spec _ off A) as (Hi & _).
  set (i := bisect_right (_diemap (tu w)) off) in *.
  split; simpl.
  - by rewrite !length_list_insert_at, L.
  - by apply ascending_insert_bisect.
  - intros k o r Ho Hr.
    apply lookup_list_insert_at_inv in Ho; [|lia].
    apply lookup_list_insert_at_inv in Hr; [|lia].
    destruct Ho as [[-> ->]|[[Hk Ho]|[Hk Ho]]];
      destruct Hr as [[E ->]|[[Hk' Hr]|[Hk' Hr]]]; try lia.
    + exists (DIE.init off p). split; [|done].
      rewrite lookup_app_r by lia. by rewrite Nat.sub_diag.
    + destruct (inv_obj w Hinv _ _ _ Ho Hr) as (d & Hd & Hoff).
      exists d. split; [|done].
      rewrite lookup_app_l by (eapply lookup_lt_Some; eauto). done.
    + destruct (inv_obj w Hinv _ _ _ Ho Hr) as (d & Hd & Hoff).
      exists d. split; [|done].
      rewrite lookup_app_l by (eapply lookup_lt_Some; eauto). done.
Qed.

Lemma bisect_right_nil x : bisect_right [] x = 0%nat.
Proof. reflexivity. Qed.

(** Inserting an offset that is not below the head keeps the head. *)
Lemma top_first_alloc_insert w off p :
  cache_inv w -> top_first w ->
  (_diemap (tu w) = [] -> off = tu_die_offset (tu w)) ->
  tu_die_offset (tu w) <= off ->
  top_first (alloc_insert w (bisect_right (_diemap (tu w)) off) off p).
Proof.
  intros Hinv Htop Hnil Hge. right. simpl.
  destruct (_diemap (tu w)) as [|o dm] eqn:E.
  - rewrite Hnil by done. reflexivity.
  - destruct Htop as [Htop|Htop]; rewrite E in Htop; [done|]. simpl in Htop.
    assert (o = tu_die_offset (tu w)) by congruence. subst o.
    pose proof (inv_asc w Hinv) as A. rewrite E in A.
    destruct (bisect_right_spec _ off A) as (Hi & Hle & Hgt).
    set (i := bisect_right _ off) in *.
    destruct i as [|i].
    + specialize (Hgt 0%nat _ (Nat.le_refl _) eq_refl). lia.
    + by rewrite lookup_list_insert_at_lt by (simpl in *; lia).
Qed.

Definition set_obj (w : World) (r : ref) (d : DIE.t) : World :=
  set_heap w (<[r := d]> (heap w)).

Lemma deref_eq w r d : heap w !! r = Some d -> deref r w = (inr d, w).
Proof. intros H. unfold deref. by rewrite H. Qed.

Lemma update_eq w r d f :
  heap w !! r = Some d -> update r f w = (inr tt, set_obj w r (f d)).
Proof. intros H. unfold update, bind. by rewrite (deref_eq _ _ _ H). Qed.

Lemma heap_alloc_insert_new w i off p :
  heap (alloc_insert w i off p) !! length (heap w) = Some (DIE.init off p).
Proof. simpl. rewrite lookup_app_r by lia. by rewrite Nat.sub_diag. Qed.

Lemma cache_inv_set_obj w r d d' :
  cache_inv w -> heap w !! r = Some d -> DIE.offset d' = DIE.offset d ->
  cache_inv (set_obj w r d').
Proof.
  intros [L A O] Hd Hoff. split; simpl; auto.
  intros i o r' Ho Hr'. destruct (O i o r' Ho Hr') as (d0 & Hd0 & Hoff0).
  destruct (decide (r' = r)) as [->|Hne].
  - exists d'. rewrite list_lookup_insert_eq by (eapply lookup_lt_Some; eauto).
    split; [done|]. simplify_eq. congruence.
  - exists d0. by rewrite list_lookup_insert_ne.
Qed.

Lemma extends_set_obj w r d d' :
  heap w !! r = Some d -> same_entry d d' ->
  (DIE.offset d <> tu_die_offset (tu w) -> DIE.attributes d = DIE.attributes d') ->
  extends w (set_obj w r d').
Proof.
  intros Hd Hs Ha. split; simpl; [by repeat split| |auto].
  intros r' d0 Hd0. destruct (decide (r' = r)) as [->|Hne].
  - exists d'. rewrite list_lookup_insert_eq by (eapply lookup_lt_Some; eauto).
    simplify_eq. split; [done|]. by split.
  - exists d0. rewrite list_lookup_insert_ne by done.
    split; [done|]. split; [apply same_entry_refl|done].
Qed.

Lemma top_first_set_obj w r d : top_first w -> top_first (set_obj w r d).
Proof. done. Qed.

Section CacheOps.

Variable DIE_parse : Z -> exception + DIE.parsed.
Variable translate_indirect :
  list (string * DIE.AttributeValue) ->
  exception + list (string * DIE.AttributeValue).

Abbreviation get_top := (get_top_DIE DIE_parse translate_indirect).
Abbreviation get_cached := (_get_cached_DIE DIE_parse translate_indirect).

(** The four ways [get_top_DIE] can go. *)
Inductive top_outcome (w : World) : (exception + ref) * World -> Prop :=
| TopHit r :
    _diemap (tu w) <> [] -> _dielist (tu w) !! 0%nat = Some r ->
    top_outcome w (inr r, w)
| TopParseFails e :
    _diemap (tu w) = [] -> DIE_parse (tu_die_offset (tu w)) = inl e ->
    top_outcome w (inl e, w)
| TopTranslateFails p e :
    _diemap (tu w) = [] -> DIE_parse (tu_die_offset (tu w)) = inr p ->
    translate_indirect (DIE.p_attributes p) = inl e ->
    top_outcome w (inl e, alloc_insert w 0 (tu_die_offset (tu w)) p)
| TopParsed p a :
    _diemap (tu w) = [] -> DIE_parse (tu_die_offset (tu w)) = inr p ->
    translate_indirect (DIE.p_attributes p) = inr a ->
    top_outcome w
      (inr (length (heap w)),
       set_obj (alloc_insert w 0 (tu_die_offset (tu w)) p) (length (heap w))
               (DIE.with_attributes (DIE.init (tu_die_offset (tu w)) p) a)).

Lemma get_top_DIE_empty w :
  _diemap (tu w) = [] ->
  get_top w =
    match DIE_parse (tu_die_offset (tu w)) with
    | inl e => (inl e, w)
    | inr p =>
        match translate_indirect (DIE.p_attributes p) with
        | inl e => (inl e, alloc_insert w 0 (tu_die_offset (tu w)) p)
        | inr a =>
            (inr (length (heap w)),
             set_obj (alloc_insert w 0 (tu_die_offset (tu w)) p) (length (heap w))
                     (DIE.with_attributes (DIE.init (tu_die_offset (tu w)) p) a))
        end
    end.
Proof.
  intros E. unfold get_top_DIE, bind, gets. rewrite E. unfold DIE_new.
  destruct (DIE_parse (tu_die_offset (tu w))) as [e|p] eqn:P; [done|].
  unfold modify, _translate_indirect_attributes, bind.
  set (w1 := set_cache _ _ _).
  assert (Hw1 : w1 = alloc_insert w 0 (tu_die_offset (tu w)) p).
  { subst w1. unfold alloc_insert. simpl. by rewrite E. }
  rewrite Hw1.
  rewrite (deref_eq _ _ _ (heap_alloc_insert_new w 0 _ p)).
  change (DIE.attributes (DIE.init (tu_die_offset (tu w)) p))
    with (DIE.p_attributes p).
  destruct (translate_indirect (DIE.p_attributes p)) as [e|a] eqn:T; [done|].
  by rewrite (update_eq _ _ _ _ (heap_alloc_insert_new w 0 _ p)).
Qed.

Lemma get_top_DIE_outcome w : cache_inv w -> top_outcome w (get_top w).
Proof.
  intros Hinv. pose proof (inv_len w Hinv) as L.
  destruct (_diemap (tu w)) as [|o dm] eqn:E.
  - rewrite (get_top_DIE_empty w E).
    destruct (DIE_parse (tu_die_offset (tu w))) as [e|p] eqn:P.
    + by apply TopParseFails.
    + destruct (translate_indirect (DIE.p_attributes p)) as [e|a] eqn:T.
      * by eapply TopTranslateFails.
      * by eapply TopParsed.
  - unfold get_top_DIE, bind, gets. rewrite E.
    destruct (_dielist (tu w)) as [|r dl] eqn:E'; [done|].
    unfold list_getitem, lift_opt. simpl.
    apply TopHit; [by rewrite E | by rewrite E'].
Qed.

(** Whatever happens, [get_top_DIE] keeps the invariant, only adds to the
    world, and leaves a non-empty cache unchanged. *)
Lemma get_top_DIE_inv w res w' :
  cache_inv w -> get_top w = (res, w') ->
  cache_inv w' /\ extends w w' /\ (top_first w -> top_first w') /\
  (_diemap (tu w) <> [] -> w' = w) /\
  (forall r, res = inr r ->
     _diemap (tu w') <> [] /\ _dielist (tu w') !! 0%nat = Some r).
Proof.
  intros Hinv Heq. pose proof (get_top_DIE_outcome w Hinv) as Hout.
  rewrite Heq in Hout.
  assert (Hai : forall p, _diemap (tu w) = [] ->
          cache_inv (alloc_insert w 0 (tu_die_offset (tu w)) p) /\
          extends w (alloc_insert w 0 (tu_die_offset (tu w)) p) /\
          top_first (alloc_insert w 0 (tu_die_offset (tu w)) p)).
  { intros p E. split; [|split].
    - pose proof (cache_inv_alloc_insert w (tu_die_offset (tu w)) p Hinv) as H.
      rewrite E in H. rewrite bisect_right_nil in H. apply H.
      intros j. by rewrite lookup_nil.
    - apply extends_alloc_insert; [done|lia].
    - by right. }
  inversion Hout as [r Hne Hr|e Hn Hp|p e Hn Hp Ht|p a Hn Hp Ht]; subst.
  - split; [done|]. split; [apply extends_refl|]. split; [done|].
    split; [done|]. intros r' [= <-]. done.
  - split; [done|]. split; [apply extends_refl|]. split; [done|].
    split; [done|]. intros r' [=].
  - destruct (Hai p) as (H1 & H2 & H3); [done|].
    split; [done|]. split; [done|]. split; [done|].
    split; [congruence|]. intros r' [=].
  - destruct (Hai p) as (H1 & H2 & H3); [done|].
    pose proof (heap_alloc_insert_new w 0 (tu_die_offset (tu w)) p) as Hnew.
    split; [|split; [|split; [|split]]].
    + eapply cache_inv_set_obj; eauto.
    + eapply extends_trans; [exact H2|].
      eapply extends_set_obj; eauto; [by repeat split|]. simpl. done.
    + intros _. by apply top_first_set_obj.
    + congruence.
    + intros r Hr. injection Hr as <-. simpl. split; done.
Qed.

Lemma get_top_DIE_nonempty w :
  cache_inv w -> _diemap (tu w) <> [] ->
  exists r, _dielist (tu w) !! 0%nat = Some r /\ get_top w = (inr r, w).
Proof.
  intros Hinv Hne. pose proof (get_top_DIE_outcome w Hinv) as Hout.
  inversion Hout as [r Hne' Hr E|e Hn Hp E|p e Hn Hp Ht E|p a Hn Hp Ht E];
    try congruence.
  exists r. split; [done|]. congruence.
Qed.

(** The three ways [_get_cached_DIE] can go once the top DIE is cached. *)
Inductive cached_outcome (w : World) (off : Z)
  : (exception + ref) * World -> Prop :=
| CacheHit r :
    cached w off r -> cached_outcome w off (inr r, w)
| CacheMissFails e :
    (forall j, _diemap (tu w) !! j <> Some off) -> DIE_parse off = inl e ->
    cached_outcome w off (inl e, w)
| CacheMiss p :
    (forall j, _diemap (tu w) !! j <> Some off) -> DIE_parse off = inr p ->
    cached_outcome w off
      (inr (length (heap w)),
       alloc_insert w (bisect_right (_diemap (tu w)) off) off p).

Lemma DIE_new_fails w off e :
  DIE_parse off = inl e -> DIE_new DIE_parse off w = (inl e, w).
Proof. intros H. unfold DIE_new. by rewrite H. Qed.

Lemma DIE_new_ok w off p :
  DIE_parse off = inr p ->
  DIE_new DIE_parse off w =
    (inr (length (heap w)), set_heap w (heap w ++ [DIE.init off p])).
Proof. intros H. unfold DIE_new. by rewrite H. Qed.

Lemma get_cached_DIE_outcome w off :
  cache_inv w -> _diemap (tu w) <> [] ->
  cached_outcome w off (get_cached off w).
Proof.
  intros Hinv Hne. pose proof (inv_len w Hinv) as L.
  pose proof (inv_asc w Hinv) as A.
  destruct (get_top_DIE_nonempty w Hinv Hne) as (r0 & _ & Htop).
  destruct (bisect_right_spec _ off A) as (Hi & Hle & Hgt).
  unfold _get_cached_DIE, bind. rewrite Htop. unfold gets.
  remember (bisect_right (_diemap (tu w)) off) as i eqn:Ei.
  assert (Hmiss : (forall j, _diemap (tu w) !! j <> Some off) ->
    cached_outcome w off
     ((let* die := DIE_new DIE_parse off in
       modify (fun w0 => set_cache w0 (list_insert_at i die (_dielist (tu w0)))
                                   (list_insert_at i off (_diemap (tu w0)))) ;;
       ret die) w)).
  { intros Hnew. unfold bind.
    destruct (DIE_parse off) as [e|p] eqn:P.
    - rewrite (DIE_new_fails _ _ _ P). by apply CacheMissFails.
    - rewrite (DIE_new_ok _ _ _ P). unfold modify, ret. simpl.
      pose proof (CacheMiss w off p Hnew P) as H. rewrite <- Ei in H.
      exact H. }
  destruct i as [|k].
  - (* the subscript is -1: the last entry, which is above [off] *)
    assert (Hnew : forall j, _diemap (tu w) !! j <> Some off).
    { intros j Hj. specialize (Hgt j off (Nat.le_0_l _) Hj). lia. }
    unfold list_getitem at 1. change (Z.of_nat 0 - 1) with (-1).
    rewrite py_index_minus_one.
    destruct (last (_diemap (tu w))) as [x|] eqn:El.
    + simpl. rewrite last_lookup in El.
      destruct (Z.eqb_spec off x) as [->|Hx]; [by apply Hnew in El|].
      exact (Hmiss Hnew).
    + apply last_None in El. done.
  - destruct (lookup_lt_is_Some_2 (_diemap (tu w)) k) as [x Hx]; [lia|].
    destruct (lookup_lt_is_Some_2 (_dielist (tu w)) k) as [r Hr]; [lia|].
    assert (Hget : forall A (l : list A) y, l !! k = Some y ->
              list_getitem l (Z.of_nat (S k) - 1) w = (inr y, w)).
    { intros B l y Hy. unfold list_getitem.
      rewrite py_index_pred by lia. simpl. rewrite Nat.sub_0_r, Hy. done. }
    rewrite (Hget _ _ _ Hx).
    destruct (Z.eqb_spec off x) as [->|Hne'].
    + rewrite (Hget _ _ _ Hr). apply CacheHit. by exists k.
    + assert (Hnew : forall j, _diemap (tu w) !! j <> Some off).
      { intros j Hj. pose proof (bisect_right_found _ _ A j Hj) as E.
        rewrite <- Ei in E. injection E as <-. congruence. }
      exact (Hmiss Hnew).
Qed.

(** [_get_cached_DIE] is [get_top_DIE] followed by the lookup in a world
    whose cache is not empty. *)
Lemma get_cached_DIE_unfold w off :
  cache_inv w ->
  get_cached off w =
    match get_top w with
    | (inl e, w1) => (inl e, w1)
    | (inr _, w1) => get_cached off w1
    end.
Proof.
  intros Hinv. destruct (get_top w) as [[e|r] w1] eqn:Htop.
  - unfold _get_cached_DIE, bind. by rewrite Htop.
  - destruct (get_top_DIE_inv w _ _ Hinv Htop) as (Hinv1 & _ & _ & _ & Hr).
    destruct (Hr r eq_refl) as (Hne & Hr0).
    destruct (get_top_DIE_nonempty w1 Hinv1 Hne) as (r' & Hr' & Htop1).
    unfold _get_cached_DIE at 2. unfold bind at 1. rewrite Htop1.
    unfold _get_cached_DIE, bind. rewrite Htop. reflexivity.
Qed.

End CacheOps.

(** ** A concrete unit

    A 32-bit type unit at offset 0 whose top entry sits behind the 23-byte
    header.  The stream holds a type-unit entry with children (offset 23,
    2 bytes); its children are an outer structure (25, 6 bytes) and a base
    type (43, 1 byte), ended by the null entry at 44.  The outer structure
    holds an inner structure (31, 6 bytes) and a member (40, 2 bytes),
    ended by the null entry at 42; the inner structure holds a member
    (37, 2 bytes) and the null entry at 39.  Everywhere else the
    abbreviation code read has no declaration. *)

Module Example.

Definition hdr : TU_header :=
  mkHeader 41 0 [("version", 4); ("address_size", 8); ("type_offset", 23)].
Definition st : DWARFStructs := mkStructs 32 4.
Definition unit0 : TypeUnit := TypeUnit_init hdr st 0 23.
Definition w0 : World := new_world unit0.

Definition entry (tag : string) (kids : bool) (sz : Z)
           (attrs : list (string * DIE.AttributeValue)) : DIE.parsed :=
  DIE.mkParsed (Some tag) kids sz attrs.

Definition null_entry : DIE.parsed := DIE.mkParsed None false 1 [].

Definition top_entry : DIE.parsed :=
  entry "DW_TAG_type_unit" true 2
        [("DW_AT_language", DIE.mkAttr "DW_FORM_data1" 12)].
Definition member_entry : DIE.parsed := entry "DW_TAG_member" false 2 [].
Definition base_entry : DIE.parsed := entry "DW_TAG_base_type" false 1 [].
Definition struct_entry (attrs : list (string * DIE.AttributeValue)) : DIE.parsed :=
  entry "DW_TAG_structure_type" true 6 attrs.

(** The stream, with the attributes of the two structures left open. *)
Definition stream (outer inner : list (string * DIE.AttributeValue)) (off : Z)
  : exception + DIE.parsed :=
  if off =? 23 then inr top_entry
  else if off =? 25 then inr (struct_entry outer)
  else if off =? 31 then inr (struct_entry inner)
  else if off =? 37 then inr member_entry
  else if off =? 39 then inr null_entry
  else if off =? 40 then inr member_entry
  else if off =? 42 then inr null_entry
  else if off =? 43 then inr base_entry
  else if off =? 44 then inr null_entry
  else inl (ParseFailure 99).

Definition sibling_to (form : string) (target : Z)
  : list (string * DIE.AttributeValue) :=
  [("DW_AT_sibling", DIE.mkAttr form target)].

Definition no_sibling : list (string * DIE.AttributeValue) :=
  [("DW_AT_decl_line", DIE.mkAttr "DW_FORM_data4" 7)].

(** Both structures carry a sibling shortcut. *)
Definition with_shortcut : Z -> exception + DIE.parsed :=
  stream (sibling_to "DW_FORM_ref4" 43) (sibling_to "DW_FORM_ref4" 40).

(** The same bytes counted, but no shortcut. *)
Definition without_shortcut : Z -> exception + DIE.parsed :=
  stream no_sibling no_sibling.

(** A sibling attribute in a form that is not a reference. *)
Definition odd_sibling_form : Z -> exception + DIE.parsed :=
  stream (sibling_to "DW_FORM_data4" 43) no_sibling.

(** A sibling reference that points into the unit header; the byte read
    there is zero, a null entry. *)
Definition stray_sibling (off : Z) : exception + DIE.parsed :=
  if off =? 5 then inr null_entry
  else stream (sibling_to "DW_FORM_ref4" 5) no_sibling off.

(** The round trip of the specification: entry A with one attribute and
    children, its child B, the null entry. *)
Definition round_trip (off : Z) : exception + DIE.parsed :=
  if off =? 23 then inr (entry "A" true 2
                           [("DW_AT_language", DIE.mkAttr "DW_FORM_data1" 12)])
  else if off =? 25 then inr (entry "B" false 1 [])
  else if off =? 26 then inr null_entry
  else inl (ParseFailure 99).

(** The round trip again, the childless entry B now carrying a sibling
    attribute in a form that is not a reference (5 bytes in all). *)
Definition leaf_odd_sibling (off : Z) : exception + DIE.parsed :=
  if off =? 23 then inr (entry "A" true 2
                           [("DW_AT_language", DIE.mkAttr "DW_FORM_data1" 12)])
  else if off =? 25 then inr (entry "B" false 5 (sibling_to "DW_FORM_data4" 30))
  else if off =? 30 then inr null_entry
  else inl (ParseFailure 99).

(** An imported unit among the children of the top entry: offset 25,
    5 bytes; then a base type at 30 and the null entry at 31. *)
Definition with_import (off : Z) : exception + DIE.parsed :=
  if off =? 23 then inr top_entry
  else if off =? 25 then
    inr (entry "DW_TAG_imported_unit" false 5
               [("DW_AT_import", DIE.mkAttr "DW_FORM_GNU_ref_alt" 11)])
  else if off =? 30 then inr base_entry
  else if off =? 31 then inr null_entry
  else inl (ParseFailure 99).

Definition no_translate (a : list (string * DIE.AttributeValue))
  : exception + list (string * DIE.AttributeValue) := inr a.

Definition no_import (r : ref) (name : string) : M ref :=
  raise (AttributeError name).

(** The import attribute resolves to an object of the supplementary
    file: a partial unit without children, allocated on the side. *)
Definition partial_unit : DIE.t :=
  DIE.mk 11 (Some "DW_TAG_partial_unit") false 3 [] None None.

Definition import_partial_unit (r : ref) (name : string) : M ref :=
  fun w => (inr (length (heap w)), set_heap w (heap w ++ [partial_unit])).

End Example.

(** ** The top entry and the cached lookup *)

(** The unit's top offset is among the cached offsets as soon as
    anything is cached: the first insertion is always the top entry's. *)
Definition top_cached (w : World) : Prop :=
  _diemap (tu w) = [] \/ exists j, _diemap (tu w) !! j = Some (tu_die_offset (tu w)).

Lemma top_first_top_cached w : top_first w -> top_cached w.
Proof. intros [H|H]; [by left|right; by exists 0%nat]. Qed.

Section TopAndLookup.

Variable DIE_parse : Z -> exception + DIE.parsed.
Variable translate_indirect :
  list (string * DIE.AttributeValue) ->
  exception + list (string * DIE.AttributeValue).

Abbreviation get_top := (get_top_DIE DIE_parse translate_indirect).
Abbreviation get_cached := (_get_cached_DIE DIE_parse translate_indirect).
Abbreviation from_refaddr := (get_DIE_from_refaddr DIE_parse translate_indirect).

Lemma get_top_DIE_top_cached w res w' :
  cache_inv w -> top_cached w -> get_top w = (res, w') ->
  forall r, res = inr r -> exists j, _diemap (tu w') !! j = Some (tu_die_offset (tu w')).
Proof.
  intros Hinv Htc Heq r ->.
  pose proof (get_top_DIE_outcome DIE_parse translate_indirect w Hinv) as Hout.
  rewrite Heq in Hout.
  inversion Hout as [r' Hne Hr|e Hn Hp|p e Hn Hp Ht|p a Hn Hp Ht]; subst.
  - destruct Htc as [?|?]; done.
  - by exists 0%nat.
Qed.

Lemma get_cached_DIE_hit w off r :
  cache_inv w -> cached w off r -> get_cached off w = (inr r, w).
Proof.
  intros Hinv Hc.
  assert (Hne : _diemap (tu w) <> []).
  { destruct Hc as (i & Hi & _). intros E. rewrite E in Hi. done. }
  pose proof (get_cached_DIE_outcome DIE_parse translate_indirect w off Hinv Hne) as Hout.
  destruct Hc as (i & Hi & Hr).
  inversion Hout as [r' Hhit E|e Hnew Hp E|p Hnew Hp E];
    try (by apply Hnew in Hi).
  f_equal. f_equal. eapply cached_fun; eauto. by exists i.
Qed.

(** C9: [get_top_DIE] returns the cached object from the second call on,
    [has_top_DIE] is false on a new unit and true after a successful
    [get_top_DIE], and [has_top_DIE] only reads the cache: it returns
    without an error in the very world it was called in. *)
Theorem get_top_DIE_twice_same_object w r w' :
  get_top w = (inr r, w') ->
  get_top w' = (inr r, w') /\
  has_top_DIE w' = (inr true, w') /\
  (forall h s tu_off tu_die_off,
      has_top_DIE (new_world (TypeUnit_init h s tu_off tu_die_off)) =
        (inr false, new_world (TypeUnit_init h s tu_off tu_die_off))) /\
  (forall w0, exists b, has_top_DIE w0 = (inr b, w0)).
Proof.
  intros Heq.
  assert (Hshape : exists o dm dl, _diemap (tu w') = o :: dm /\
                                   _dielist (tu w') = r :: dl).
  { destruct (_diemap (tu w)) as [|o dm] eqn:E.
    - rewrite (get_top_DIE_empty _ _ w E) in Heq.
      destruct (DIE_parse (tu_die_offset (tu w))) as [e|p]; [done|].
      destruct (translate_indirect (DIE.p_attributes p)) as [e|a]; [done|].
      injection Heq as <- <-. simpl. eauto 6.
    - unfold get_top_DIE, bind, gets in Heq. rewrite E in Heq.
      destruct (_dielist (tu w)) as [|r0 dl] eqn:E'.
      + unfold list_getitem in Heq. simpl in Heq. done.
      + unfold list_getitem in Heq. simpl in Heq. injection Heq as -> <-.
        eauto 6. }
  destruct Hshape as (o & dm & dl & Hm & Hl).
  split; [|split; [|split]].
  - unfold get_top_DIE, bind, gets. rewrite Hm, Hl. reflexivity.
  - unfold has_top_DIE, bind, gets. by rewrite Hm.
  - reflexivity.
  - intros w0. unfold has_top_DIE, bind, gets. eauto.
Qed.

(** C10: after the call to [get_top_DIE] the cache is not empty, so the
    subscript [i - 1] always denotes an element; for an offset not below
    the top offset the insertion point is at least 1, the element read is
    the one at position [i - 1] (never the wrapped-around last one), and
    the call leaves the top entry at position 0 of both lists. *)
Theorem get_cached_DIE_subscript_in_bounds w off r w1 :
  cache_inv w -> top_cached w ->
  tu_die_offset (tu w) <= off ->
  get_top w = (inr r, w1) ->
  let dm := _diemap (tu w1) in
  let i := bisect_right dm off in
  dm <> [] /\
  (forall off', is_Some (py_index dm (Z.of_nat (bisect_right dm off') - 1))) /\
  (1 <= i <= length dm)%nat /\
  (exists x, py_index dm (Z.of_nat i - 1) = Some x /\ dm !! (i - 1)%nat = Some x) /\
  (top_first w -> forall res w2, get_cached off w = (res, w2) ->
     _diemap (tu w2) !! 0%nat = Some (tu_die_offset (tu w2)) /\
     _dielist (tu w2) !! 0%nat = Some r).
Proof.
  intros Hinv Htc Hge Htop dm i.
  destruct (get_top_DIE_inv DIE_parse translate_indirect w _ _ Hinv Htop) as (Hinv1 & Hext & Htf & Hsame & Hr).
  destruct (Hr r eq_refl) as (Hne & Hr0).
  destruct (get_top_DIE_top_cached w _ _ Hinv Htc Htop r eq_refl) as (j & Hj).
  pose proof (inv_asc w1 Hinv1) as A. pose proof (inv_len w1 Hinv1) as L.
  assert (Htu : tu_die_offset (tu w1) = tu_die_offset (tu w)).
  { destruct Hext as [(_ & _ & _ & E) _ _]. done. }
  assert (Hbound : forall off', (bisect_right dm off' <= length dm)%nat).
  { intros off'. by destruct (bisect_right_spec dm off' A) as (H & _). }
  destruct (bisect_right_spec dm off A) as (Hi & Hle & Hgt). fold i in Hi, Hle, Hgt.
  assert (Hi1 : (1 <= i)%nat).
  { destruct (Nat.lt_ge_cases j i) as [H|H]; [lia|].
    specialize (Hgt j _ H Hj). lia. }
  split; [done|]. split; [|split; [done|split]].
  - intros off'. specialize (Hbound off').
    destruct (bisect_right dm off') as [|k].
    + change (Z.of_nat 0 - 1) with (-1). rewrite py_index_minus_one.
      destruct (last dm) eqn:El; [eauto|]. by apply last_None in El.
    + rewrite py_index_pred by lia. apply lookup_lt_is_Some_2. lia.
  - destruct (lookup_lt_is_Some_2 dm (i - 1)%nat) as [x Hx]; [lia|].
    exists x. by rewrite py_index_pred.
  - intros Htf0 res w2 Hc.
    rewrite (get_cached_DIE_unfold DIE_parse translate_indirect w off Hinv), Htop in Hc.
    pose proof (get_cached_DIE_outcome DIE_parse translate_indirect w1 off Hinv1 Hne) as Hout.
    rewrite Hc in Hout. specialize (Htf Htf0).
    destruct Htf as [?|Htf]; [done|].
    inversion Hout as [r' Hhit|e Hnew Hp|p Hnew Hp]; subst; try done.
    subst dm i. simpl.
    rewrite !lookup_list_insert_at_lt by lia. done.
Qed.

(** C4: a cached offset gives back the cached object and changes nothing;
    an offset that is not cached is parsed once, lands at the insertion
    point that bisection computes, the offsets stay ascending, and from
    then on the call returns that same object. *)
Theorem get_cached_DIE_parse_once w off :
  cache_inv w ->
  (forall r, cached w off r -> get_cached off w = (inr r, w)) /\
  (forall t w1 p,
      get_top w = (inr t, w1) ->
      (forall j, _diemap (tu w1) !! j <> Some off) ->
      DIE_parse off = inr p ->
      exists r w2,
        get_cached off w = (inr r, w2) /\
        heap w1 !! r = None /\
        heap w2 !! r = Some (DIE.init off p) /\
        _diemap (tu w2) =
          list_insert_at (bisect_right (_diemap (tu w1)) off) off (_diemap (tu w1)) /\
        _dielist (tu w2) =
          list_insert_at (bisect_right (_diemap (tu w1)) off) r (_dielist (tu w1)) /\
        ascending (_diemap (tu w2)) /\
        cached w2 off r /\
        (forall o' r', cached w1 o' r' -> cached w2 o' r') /\
        get_cached off w2 = (inr r, w2)).
Proof.
  intros Hinv.
  split; [intros r; by apply get_cached_DIE_hit|].
  intros t w1 p Htop Hnew Hp.
  destruct (get_top_DIE_inv DIE_parse translate_indirect w _ _ Hinv Htop) as (Hinv1 & Hext & _ & _ & Hr).
  destruct (Hr t eq_refl) as (Hne & _).
  pose proof (get_cached_DIE_outcome DIE_parse translate_indirect w1 off Hinv1 Hne) as Hout.
  rewrite (get_cached_DIE_unfold DIE_parse translate_indirect w off Hinv), Htop.
  inversion Hout as [r' (i & Hi & _) E|e _ Hp' E|p' _ Hp' E];
    [by apply Hnew in Hi|congruence|].
  assert (p' = p) by congruence. subst p'.
  pose proof (inv_asc w1 Hinv1) as A.
  destruct (bisect_right_spec _ off A) as (Hi & _).
  pose proof (cache_inv_alloc_insert w1 off p Hinv1 Hnew) as Hinv2.
  eexists _, _. split; [reflexivity|].
  split; [apply lookup_ge_None_2; lia|].
  split; [apply heap_alloc_insert_new|].
  split; [reflexivity|]. split; [reflexivity|].
  split; [apply (inv_asc _ Hinv2)|].
  split; [by apply cached_alloc_insert_new|].
  split; [intros o' r'; by apply cached_alloc_insert|].
  apply get_cached_DIE_hit; [done|]. by apply cached_alloc_insert_new.
Qed.

(** C7, as the code has it: a parse that fails inserts nothing for the
    offset asked for; what the failed call leaves behind is the world
    [get_top_DIE] produced, which is the world before the call whenever
    something was cached already. *)
Theorem get_cached_DIE_failed_parse w off e t w1 :
  cache_inv w ->
  get_top w = (inr t, w1) ->
  (forall j, _diemap (tu w1) !! j <> Some off) ->
  DIE_parse off = inl e ->
  get_cached off w = (inl e, w1) /\
  (_diemap (tu w) <> [] -> w1 = w) /\
  (_diemap (tu w) = [] ->
     _diemap (tu w1) = [tu_die_offset (tu w)] /\ _dielist (tu w1) = [t]).
Proof.
  intros Hinv Htop Hnew Hp.
  destruct (get_top_DIE_inv DIE_parse translate_indirect w _ _ Hinv Htop) as (Hinv1 & Hext & _ & Hsame & Hr).
  destruct (Hr t eq_refl) as (Hne & _).
  pose proof (get_cached_DIE_outcome DIE_parse translate_indirect w1 off Hinv1 Hne) as Hout.
  rewrite (get_cached_DIE_unfold DIE_parse translate_indirect w off Hinv), Htop.
  split; [|split; [done|]].
  - inversion Hout as [r' (i & Hi & _) E|e' _ Hp' E|p' _ Hp' E];
      [by apply Hnew in Hi| |congruence].
    congruence.
  - intros Hnil.
    pose proof (get_top_DIE_outcome DIE_parse translate_indirect w Hinv) as Ht.
    rewrite Htop in Ht. pose proof (inv_len w Hinv) as L. rewrite Hnil in L.
    inversion Ht as [r' Hne' Hr'|e' Hn Hp'|p e' Hn Hp' Htr|p a Hn Hp' Htr]; subst;
      [done|].
    simpl. rewrite Hnil. destruct (_dielist (tu w)); [done|done].
Qed.

(** C2, as the code has it: an offset below the top offset (one byte
    before it, say) or not below base plus size is refused by
    [dwarf_assert] with a DWARFError, in the same world; the top offset
    itself, when it lies inside the range and the top entry is available,
    resolves to the top entry. *)
Theorem get_DIE_from_refaddr_range w :
  cache_inv w -> top_first w ->
  (forall refaddr,
      refaddr < tu_die_offset (tu w) \/ tu_offset (tu w) + size (tu w) <= refaddr ->
      from_refaddr refaddr w =
        (inl (DWARFError ("refaddr " +:+ str_of_int refaddr +:+
                          " not in DIE range of CU " +:+
                          str_of_int (tu_offset (tu w)))), w)) /\
  from_refaddr (tu_die_offset (tu w) - 1) w =
    (inl (DWARFError ("refaddr " +:+ str_of_int (tu_die_offset (tu w) - 1) +:+
                      " not in DIE range of CU " +:+
                      str_of_int (tu_offset (tu w)))), w) /\
  (tu_die_offset (tu w) < tu_offset (tu w) + size (tu w) ->
   forall t w1, get_top w = (inr t, w1) ->
     from_refaddr (tu_die_offset (tu w)) w = (inr t, w1)).
Proof.
  intros Hinv Htf.
  assert (Hout : forall refaddr,
      refaddr < tu_die_offset (tu w) \/ tu_offset (tu w) + size (tu w) <= refaddr ->
      from_refaddr refaddr w =
        (inl (DWARFError ("refaddr " +:+ str_of_int refaddr +:+
                          " not in DIE range of CU " +:+
                          str_of_int (tu_offset (tu w)))), w)).
  { intros refaddr Hr. unfold get_DIE_from_refaddr, bind, gets, cu_die_offset, cu_offset.
    destruct (Z.leb_spec (tu_die_offset (tu w)) refaddr);
      destruct (Z.ltb_spec refaddr (tu_offset (tu w) + size (tu w)));
      try lia; reflexivity. }
  split; [exact Hout|]. split; [apply Hout; lia|].
  intros Hin t w1 Htop.
  unfold get_DIE_from_refaddr, bind, gets, cu_die_offset, cu_offset.
  destruct (Z.leb_spec (tu_die_offset (tu w)) (tu_die_offset (tu w))); [|lia].
  destruct (Z.ltb_spec (tu_die_offset (tu w)) (tu_offset (tu w) + size (tu w))); [|lia].
  simpl.
  destruct (get_top_DIE_inv DIE_parse translate_indirect w _ _ Hinv Htop) as (Hinv1 & Hext & Htf1 & _ & Hr).
  destruct (Hr t eq_refl) as (Hne & Ht0).
  rewrite (get_cached_DIE_unfold DIE_parse translate_indirect w _ Hinv), Htop.
  destruct (Htf1 Htf) as [?|Hhead]; [done|].
  assert (Htu : tu_die_offset (tu w1) = tu_die_offset (tu w)).
  { destruct Hext as [(_ & _ & _ & E) _ _]. done. }
  apply get_cached_DIE_hit; [done|]. exists 0%nat. by rewrite <- Htu.
Qed.

End TopAndLookup.

(** ** Runs that return *)

(** [m] run in [w] returns a value and a world that satisfy [Q]. *)
Definition ok {A} (m : M A) (w : World) (Q : A -> World -> Prop) : Prop :=
  exists a w', m w = (inr a, w') /\ Q a w'.

Lemma ok_ret {A} (a : A) w (Q : A -> World -> Prop) : Q a w -> ok (ret a) w Q.
Proof. intros H. by exists a, w. Qed.

Lemma ok_bind {A B} (m : M A) (k : A -> M B) w (Q : B -> World -> Prop) :
  ok m w (fun a w1 => ok (k a) w1 Q) -> ok (bind m k) w Q.
Proof.
  intros (a & w1 & Hm & b & w2 & Hk & HQ). exists b, w2.
  unfold bind. rewrite Hm. done.
Qed.

Lemma ok_mono {A} (m : M A) w (Q Q' : A -> World -> Prop) :
  ok m w Q -> (forall a w', Q a w' -> Q' a w') -> ok m w Q'.
Proof. intros (a & w' & Hm & HQ) H. exists a, w'. auto. Qed.

Lemma ok_eq {A} (m : M A) w a w' (Q : A -> World -> Prop) :
  m w = (inr a, w') -> Q a w' -> ok m w Q.
Proof. intros Hm HQ. by exists a, w'. Qed.

(** The first computation of a sequence may be replaced by one that
    does the same from another world. *)
Lemma ok_bind_swap {A B} (m m' : M A) (k : A -> M B) w w'
      (Q : B -> World -> Prop) :
  m w = m' w' -> ok (bind m' k) w' Q -> ok (bind m k) w Q.
Proof.
  intros E (b & w2 & H & HQ). exists b, w2. split; [|done].
  unfold bind in *. by rewrite E.
Qed.

(** ** A children list as the stream lays it out *)

(** The entries of one children list, in stream order: a childless entry,
    an entry followed by its own children list, and the null entry that
    ends the list. *)
Inductive entries : Type :=
| Null (q : DIE.parsed)
| Leaf (p : DIE.parsed) (next : entries)
| Node (p : DIE.parsed) (sub : entries) (next : entries).

(** The offset just past the list that starts at [cur]. *)
Fixpoint span (cur : Z) (s : entries) : Z :=
  match s with
  | Null q => cur + DIE.p_size q
  | Leaf p next => span (cur + DIE.p_size p) next
  | Node p sub next => span (span (cur + DIE.p_size p) sub) next
  end.

(** The offset of the null entry that ends the list. *)
Fixpoint term_offset (cur : Z) (s : entries) : Z :=
  match s with
  | Null _ => cur
  | Leaf p next => term_offset (cur + DIE.p_size p) next
  | Node p sub next => term_offset (span (cur + DIE.p_size p) sub) next
  end.

(** The offsets of the members of the list, without the null entry. *)
Fixpoint child_offsets (cur : Z) (s : entries) : list Z :=
  match s with
  | Null _ => []
  | Leaf p next => cur :: child_offsets (cur + DIE.p_size p) next
  | Node p sub next => cur :: child_offsets (span (cur + DIE.p_size p) sub) next
  end.

(** Depth first, parents before children, the null entry of a list after
    its members. *)
Fixpoint walk (cur : Z) (s : entries) : list Z :=
  match s with
  | Null _ => [cur]
  | Leaf p next => cur :: walk (cur + DIE.p_size p) next
  | Node p sub next =>
      cur :: walk (cur + DIE.p_size p) sub ++ walk (span (cur + DIE.p_size p) sub) next
  end.

(** How many entries there are, null entries included. *)
Fixpoint need (s : entries) : nat :=
  match s with
  | Null _ => 1
  | Leaf _ next => S (need next)
  | Node _ sub next => S (need sub + need next)
  end.

(** The absolute offset a sibling attribute stands for, when its form is
    one the code knows. *)
Definition resolve_sibling (base : Z) (a : DIE.AttributeValue) : option Z :=
  if form_in (DIE.form a) sibling_forms then Some (DIE.value a + base)
  else if String.eqb (DIE.form a) "DW_FORM_ref_addr" then Some (DIE.value a)
  else None.

Lemma sibling_offset_resolve a w :
  sibling_offset a w =
    match resolve_sibling (tu_offset (tu w)) a with
    | Some z => (inr z, w)
    | None => (inl (NotImplementedError ("sibling in form " +:+ DIE.form a)), w)
    end.
Proof.
  unfold sibling_offset, resolve_sibling.
  destruct (form_in (DIE.form a) sibling_forms); [done|].
  by destruct (String.eqb (DIE.form a) "DW_FORM_ref_addr").
Qed.

(** Two lists laid out alike: same sizes, same nesting; the attributes
    may differ. *)
Fixpoint same_layout (s s' : entries) : Prop :=
  match s, s' with
  | Null q, Null q' => DIE.p_size q = DIE.p_size q'
  | Leaf p next, Leaf p' next' =>
      DIE.p_size p = DIE.p_size p' /\ same_layout next next'
  | Node p sub next, Node p' sub' next' =>
      DIE.p_size p = DIE.p_size p' /\ same_layout sub sub' /\ same_layout next next'
  | _, _ => False
  end.

Lemma same_layout_span s : forall s' cur,
  same_layout s s' -> span cur s = span cur s'.
Proof.
  induction s as [q|p next IH|p sub IHs next IHn]; intros [q'|p' next'|p' sub' next'] cur H;
    simpl in *; try done.
  - by rewrite H.
  - destruct H as [-> H]. by apply IH.
  - destruct H as (-> & Hs & Hn). rewrite (IHs _ _ Hs). by apply IHn.
Qed.

Lemma same_layout_child_offsets s : forall s' cur,
  same_layout s s' -> child_offsets cur s = child_offsets cur s'.
Proof.
  induction s as [q|p next IH|p sub IHs next IHn]; intros [q'|p' next'|p' sub' next'] cur H;
    simpl in *; try done.
  - destruct H as [-> H]. f_equal. by apply IH.
  - destruct H as (-> & Hs & Hn). rewrite (same_layout_span _ _ _ Hs).
    f_equal. by apply IHn.
Qed.

Lemma same_layout_walk s : forall s' cur,
  same_layout s s' -> walk cur s = walk cur s'.
Proof.
  induction s as [q|p next IH|p sub IHs next IHn]; intros [q'|p' next'|p' sub' next'] cur H;
    simpl in *; try done.
  - destruct H as [-> H]. f_equal. by apply IH.
  - destruct H as (-> & Hs & Hn). rewrite (same_layout_span _ _ _ Hs).
    f_equal. rewrite (IHs _ _ Hs). f_equal. by apply IHn.
Qed.

(** The list with every sibling shortcut taken out (the sizes stay). *)
Fixpoint drop_sibling (a : list (string * DIE.AttributeValue))
  : list (string * DIE.AttributeValue) :=
  match a with
  | [] => []
  | (k, v) :: a' =>
      if String.eqb k "DW_AT_sibling" then drop_sibling a'
      else (k, v) :: drop_sibling a'
  end.

Definition without_sibling (p : DIE.parsed) : DIE.parsed :=
  DIE.mkParsed (DIE.p_tag p) (DIE.p_has_children p) (DIE.p_size p)
               (drop_sibling (DIE.p_attributes p)).

Fixpoint strip_shortcuts (s : entries) : entries :=
  match s with
  | Null q => Null q
  | Leaf p next => Leaf p (strip_shortcuts next)
  | Node p sub next =>
      Node (without_sibling p) (strip_shortcuts sub) (strip_shortcuts next)
  end.

Lemma get_attr_drop_sibling a :
  DIE.get_attr "DW_AT_sibling" (drop_sibling a) = None.
Proof.
  induction a as [|[k v] a IH]; [done|]. simpl.
  destruct (String.eqb k "DW_AT_sibling") eqn:E; [done|]. simpl. by rewrite E.
Qed.

Lemma same_layout_strip s : same_layout s (strip_shortcuts s).
Proof. induction s; simpl; auto. Qed.

(** ** Walking an encoded children list *)

Section Navigation.

Variable DIE_parse : Z -> exception + DIE.parsed.
Variable translate_indirect :
  list (string * DIE.AttributeValue) ->
  exception + list (string * DIE.AttributeValue).

(** The unit's base offset and the offset of its top entry. *)
Variables base top : Z.

Abbreviation get_top := (get_top_DIE DIE_parse translate_indirect).
Abbreviation get_cached := (_get_cached_DIE DIE_parse translate_indirect).
Abbreviation fetch := (fetch_child DIE_parse translate_indirect).
Abbreviation next_child := (gen_next DIE_parse translate_indirect).

(** The stream holds the list [s] at [cur], well formed: every member
    parses to a non-null entry, a member with children is followed by its
    own list and is not the unit's top entry, a sibling attribute on it
    resolves to the offset just past that list, and the list ends with a
    null entry. *)
Fixpoint encodes (cur : Z) (s : entries) : Prop :=
  match s with
  | Null q => DIE_parse cur = inr q /\ DIE.p_tag q = None
  | Leaf p next =>
      DIE_parse cur = inr p /\ DIE.p_tag p <> None /\
      DIE.p_has_children p = false /\
      encodes (cur + DIE.p_size p) next
  | Node p sub next =>
      DIE_parse cur = inr p /\ DIE.p_tag p <> None /\
      DIE.p_has_children p = true /\ cur <> top /\
      encodes (cur + DIE.p_size p) sub /\
      (forall a, DIE.get_attr "DW_AT_sibling" (DIE.p_attributes p) = Some a ->
                 resolve_sibling base a = Some (span (cur + DIE.p_size p) sub)) /\
      encodes (span (cur + DIE.p_size p) sub) next
  end.

Lemma encodes_fun s : forall s' cur, encodes cur s -> encodes cur s' -> s = s'.
Proof.
  induction s as [q|p next IH|p sub IHs next IHn];
    intros [q'|p' next'|p' sub' next'] cur H H'; simpl in *.
  - destruct H as [H _], H' as [H' _]. congruence.
  - destruct H as [H T], H' as (H' & T' & _). congruence.
  - destruct H as [H T], H' as (H' & T' & _). congruence.
  - destruct H as (H & T & _), H' as [H' T']. congruence.
  - destruct H as (H & T & K & E), H' as (H' & T' & K' & E').
    assert (p' = p) by congruence. subst p'. f_equal. eapply IH; eauto.
  - destruct H as (H & T & K & E), H' as (H' & T' & K' & _). congruence.
  - destruct H as (H & T & _), H' as [H' T']. congruence.
  - destruct H as (H & T & K & _), H' as (H' & T' & K' & E'). congruence.
  - destruct H as (H & T & K & N & Es & S & En),
             H' as (H' & T' & K' & N' & Es' & S' & En').
    assert (p' = p) by congruence. subst p'.
    assert (sub' = sub) by (symmetry; eapply IHs; eauto). subst sub'.
    f_equal. eapply IHn; eauto.
Qed.

Lemma encodes_term s : forall cur, encodes cur s ->
  exists q, DIE_parse (term_offset cur s) = inr q /\ DIE.p_tag q = None /\
            span cur s = term_offset cur s + DIE.p_size q.
Proof.
  induction s as [q|p next IH|p sub IHs next IHn]; intros cur H; simpl in *.
  - destruct H as [H T]. eauto.
  - destruct H as (_ & _ & _ & E). by apply IH.
  - destruct H as (_ & _ & _ & _ & _ & _ & E). by apply IHn.
Qed.

(** The object [d] carries what the stream holds at its offset; the top
    entry is exempt for its attributes, which were translated. *)
Definition parsed_as (d : DIE.t) (p : DIE.parsed) : Prop :=
  DIE.tag d = DIE.p_tag p /\ DIE.has_children d = DIE.p_has_children p /\
  DIE.size d = DIE.p_size p /\
  (DIE.offset d <> top -> DIE.attributes d = DIE.p_attributes p).

Record tree_inv (w : World) : Prop := mkTreeInv {
  ti_base : tu_offset (tu w) = base;
  ti_top : tu_die_offset (tu w) = top;
  ti_cache : cache_inv w;
  ti_parsed : forall r d, heap w !! r = Some d ->
      exists p, DIE_parse (DIE.offset d) = inr p /\ parsed_as d p;
  ti_cached : forall r d, heap w !! r = Some d -> cached w (DIE.offset d) r;
  ti_term : forall r d t, heap w !! r = Some d -> DIE._terminator d = Some t ->
      exists td s, heap w !! t = Some td /\
                   encodes (DIE.offset d + DIE.size d) s /\
                   DIE.offset td = term_offset (DIE.offset d + DIE.size d) s
}.

Lemma tree_inv_new u :
  tu_offset u = base -> tu_die_offset u = top ->
  _dielist u = [] -> _diemap u = [] -> tree_inv (new_world u).
Proof.
  intros Hb Ht Hl Hm. split; simpl; try done.
  - split; simpl; rewrite ?Hl, ?Hm; [done|apply ascending_nil|].
    intros i o r H. by rewrite lookup_nil in H.
Qed.

Lemma parsed_as_init off p : parsed_as (DIE.init off p) p.
Proof. by repeat split. Qed.

Lemma tree_inv_alloc_insert w off p :
  tree_inv w -> (forall j, _diemap (tu w) !! j <> Some off) ->
  DIE_parse off = inr p ->
  tree_inv (alloc_insert w (bisect_right (_diemap (tu w)) off) off p).
Proof.
  intros [Hb Ht Hc Hp Hcd Htm] Hnew Hparse.
  pose proof (inv_asc w Hc) as A.
  destruct (bisect_right_spec _ off A) as (Hi & _).
  assert (Hold : forall r d,
            (heap w ++ [DIE.init off p]) !! r = Some d ->
            heap w !! r = Some d \/ (r = length (heap w) /\ d = DIE.init off p)).
  { intros r d H. apply lookup_app_Some in H as [H|[Hge H]]; [by left|right].
    apply list_lookup_singleton_Some in H as [H ->]. split; [lia|done]. }
  split; simpl; try done.
  - by apply cache_inv_alloc_insert.
  - intros r d H. apply Hold in H as [H|[-> ->]]; [by apply (Hp r)|].
    exists p. split; [done|apply parsed_as_init].
  - intros r d H. apply Hold in H as [H|[-> ->]].
    + apply (cached_alloc_insert w _ off p _ _ Hc Hi). by apply (Hcd r).
    + by apply cached_alloc_insert_new.
  - intros r d t H Hterm. apply Hold in H as [H|[-> ->]]; [|done].
    destruct (Htm r d t H Hterm) as (td & s & Htd & He & Ho).
    exists td, s. split; [|done].
    rewrite lookup_app_l by (eapply lookup_lt_Some; eauto). done.
Qed.

(** Overwriting an object keeps the invariant when the entry fields stay
    and the terminator written, if any, is the right one. *)
Lemma tree_inv_set_obj w r d d' :
  tree_inv w -> heap w !! r = Some d ->
  same_entry d d' ->
  (DIE.offset d <> top -> DIE.attributes d' = DIE.attributes d) ->
  (forall t, DIE._terminator d' = Some t ->
     exists td s, heap w !! t = Some td /\
                  encodes (DIE.offset d + DIE.size d) s /\
                  DIE.offset td = term_offset (DIE.offset d + DIE.size d) s) ->
  tree_inv (set_obj w r d').
Proof.
  intros [Hb Ht Hc Hp Hcd Htm] Hd (So & Stag & Sk & Ssz) Sattr Hterm.
  assert (Hlook : forall r0 d0, <[r := d']> (heap w) !! r0 = Some d0 ->
            (r0 = r /\ d0 = d') \/ (r0 <> r /\ heap w !! r0 = Some d0)).
  { intros r0 d0 H. destruct (decide (r0 = r)) as [->|Hne].
    - rewrite list_lookup_insert_eq in H by (eapply lookup_lt_Some; eauto).
      left. split; congruence.
    - rewrite list_lookup_insert_ne in H by done. by right. }
  assert (Hkeep : forall t td, heap w !! t = Some td ->
            exists td', <[r := d']> (heap w) !! t = Some td' /\
                        DIE.offset td' = DIE.offset td).
  { intros t td H. destruct (decide (t = r)) as [->|Hne].
    - exists d'. rewrite list_lookup_insert_eq by (eapply lookup_lt_Some; eauto).
      split; [done|]. simplify_eq. done.
    - exists td. by rewrite list_lookup_insert_ne. }
  split; simpl; try done.
  - eapply cache_inv_set_obj; eauto.
  - intros r0 d0 H. apply Hlook in H as [[-> ->]|[Hne H]]; [|by apply (Hp r0)].
    destruct (Hp r d Hd) as (p & Hparse & Pt & Pk & Ps & Pa).
    exists p. rewrite <- So. split; [done|].
    split; [congruence|]. split; [congruence|]. split; [congruence|].
    intros Hn. rewrite Sattr by congruence. apply Pa. congruence.
  - intros r0 d0 H. apply Hlook in H as [[-> ->]|[Hne H]].
    + rewrite <- So. by apply (Hcd r).
    + by apply (Hcd r0).
  - intros r0 d0 t H Ht0. apply Hlook in H as [[-> ->]|[Hne H]].
    + destruct (Hterm t Ht0) as (td & s & Htd & He & Ho).
      destruct (Hkeep t td Htd) as (td' & Htd' & Ho').
      exists td', s. rewrite <- So, <- Ssz. split; [done|]. split; [done|]. congruence.
    + destruct (Htm r0 d0 t H Ht0) as (td & s & Htd & He & Ho).
      destruct (Hkeep t td Htd) as (td' & Htd' & Ho').
      exists td', s. split; [done|]. split; [done|]. congruence.
Qed.

Lemma tree_inv_nonempty w r d :
  tree_inv w -> heap w !! r = Some d -> _diemap (tu w) <> [].
Proof.
  intros Hinv Hd. destruct (ti_cached w Hinv r d Hd) as (i & Hi & _).
  intros E. rewrite E in Hi. done.
Qed.

(** Looking up an offset the stream can parse, in a world that has
    cached something. *)
Lemma get_cached_DIE_ok w off p :
  tree_inv w -> _diemap (tu w) <> [] -> DIE_parse off = inr p ->
  ok (get_cached off) w (fun c w' =>
    tree_inv w' /\ extends w w' /\
    exists cd, heap w' !! c = Some cd /\ DIE.offset cd = off /\ parsed_as cd p).
Proof.
  intros Hinv Hne Hparse. pose proof (ti_cache w Hinv) as Hc.
  pose proof (get_cached_DIE_outcome DIE_parse translate_indirect w off Hc Hne) as Hout.
  inversion Hout as [r Hhit E|e Hnew Hp E|p' Hnew Hp E]; [| congruence |].
  - eapply ok_eq; [done|]. split; [done|]. split; [apply extends_refl|].
    destruct (cached_offset w off r Hc Hhit) as (d & Hd & Ho).
    exists d. split; [done|]. split; [done|].
    destruct (ti_parsed w Hinv r d Hd) as (p0 & Hp0 & Hpa).
    rewrite Ho in Hp0. assert (p0 = p) by congruence. by subst p0.
  - assert (p' = p) by congruence. subst p'.
    eapply ok_eq; [done|].
    pose proof (inv_asc w Hc) as A.
    destruct (bisect_right_spec _ off A) as (Hi & _).
    split; [by apply tree_inv_alloc_insert|].
    split; [by apply extends_alloc_insert|].
    exists (DIE.init off p). split; [apply heap_alloc_insert_new|].
    split; [done|apply parsed_as_init].
Qed.

Lemma heap_set_obj_eq w r d d' :
  heap w !! r = Some d -> heap (set_obj w r d') !! r = Some d'.
Proof.
  intros H. simpl. apply list_lookup_insert_eq. eapply lookup_lt_Some; eauto.
Qed.

Lemma heap_set_obj_offset w r d d' t td :
  heap w !! r = Some d -> DIE.offset d' = DIE.offset d ->
  heap w !! t = Some td ->
  exists td', heap (set_obj w r d') !! t = Some td' /\
              DIE.offset td' = DIE.offset td.
Proof.
  intros Hd Ho Ht. destruct (decide (t = r)) as [->|Hne].
  - exists d'. split; [by eapply heap_set_obj_eq|]. simplify_eq. done.
  - exists td. simpl. by rewrite list_lookup_insert_ne.
Qed.

(** The first entry of a list. *)
Definition first_entry (s : entries) : DIE.parsed :=
  match s with Null q => q | Leaf p _ => p | Node p _ _ => p end.

Definition is_Null (s : entries) : bool :=
  match s with Null _ => true | _ => false end.

Lemma encodes_first cur s :
  encodes cur s ->
  DIE_parse cur = inr (first_entry s) /\
  (match DIE.p_tag (first_entry s) with None => true | Some _ => false end
   = is_Null s).
Proof.
  destruct s as [q|p next|p sub next]; simpl.
  - intros [H ->]. done.
  - intros (H & T & _). split; [done|]. by destruct (DIE.p_tag p).
  - intros (H & T & _). split; [done|]. by destruct (DIE.p_tag p).
Qed.

(** Setting the parent of a cached object. *)
Lemma set_parent_ok w c cd die :
  tree_inv w -> heap w !! c = Some cd ->
  set_parent c die w = (inr tt, set_obj w c (DIE.with_parent cd die)) /\
  tree_inv (set_obj w c (DIE.with_parent cd die)) /\
  extends w (set_obj w c (DIE.with_parent cd die)).
Proof.
  intros Hinv Hcd. split; [unfold set_parent; by rewrite (update_eq _ _ _ _ Hcd)|]. split.
  - eapply tree_inv_set_obj; eauto; [by repeat split|].
    simpl. intros t Ht. by apply (ti_term w Hinv c cd t).
  - eapply extends_set_obj; eauto. by repeat split.
Qed.

(** One turn of the loop at a cursor where the stream holds [s]: on the
    null entry the generator stops with the terminator recorded, on any
    other entry it yields the object cached for the cursor. *)
Lemma fetch_child_ok w die dd cur s :
  tree_inv w -> heap w !! die = Some dd -> encodes cur s ->
  (exists s0, encodes (DIE.offset dd + DIE.size dd) s0 /\
              term_offset (DIE.offset dd + DIE.size dd) s0 = term_offset cur s) ->
  ok (fetch die cur) w (fun r w' =>
    tree_inv w' /\ extends w w' /\
    if is_Null s then
      r = (None, GenDone) /\
      exists dd' t td, heap w' !! die = Some dd' /\ DIE._terminator dd' = Some t /\
                       heap w' !! t = Some td /\ DIE.offset td = cur
    else
      exists c cd, r = (Some c, GenYielded die cur c) /\
                   heap w' !! c = Some cd /\ DIE.offset cd = cur /\
                   DIE._parent cd = Some die).
Proof.
  intros Hinv Hdd Henc (s0 & Henc0 & Hterm0).
  destruct (encodes_first cur s Henc) as (Hparse & Hnull).
  pose proof (tree_inv_nonempty w die dd Hinv Hdd) as Hne.
  unfold fetch_child. apply ok_bind.
  eapply ok_mono; [by apply (get_cached_DIE_ok w cur _ Hinv Hne Hparse)|].
  intros c w1 (Hinv1 & Hext1 & cd & Hcd & Ho & Hpa). simpl.
  destruct (set_parent_ok w1 c cd die Hinv1 Hcd) as (Hsp & Hinv2 & Hext2).
  set (w2 := set_obj w1 c (DIE.with_parent cd die)) in *.
  pose proof (heap_set_obj_eq w1 c cd (DIE.with_parent cd die) Hcd) as Hc2.
  fold w2 in Hc2.
  apply ok_bind. eapply ok_eq; [exact Hsp|].
  apply ok_bind. eapply ok_eq; [by apply deref_eq|].
  assert (Hn : DIE.is_null (DIE.with_parent cd die) = is_Null s).
  { unfold DIE.is_null. simpl. destruct Hpa as (-> & _). done. }
  rewrite Hn. destruct (is_Null s) eqn:Es.
  - assert (Hext02 : extends w w2) by (eapply extends_trans; eauto).
    destruct (ext_heap w w2 Hext02 die dd Hdd) as (dd2 & Hdd2 & (So & _ & _ & Ssz) & _).
    assert (Hcur : term_offset cur s = cur) by (by destruct s).
    apply ok_bind. eapply ok_eq; [unfold set_terminator; by rewrite (update_eq _ _ _ _ Hdd2)|].
    apply ok_ret.
    assert (Hinv3 : tree_inv (set_obj w2 die (DIE.with_terminator dd2 c))).
    { eapply tree_inv_set_obj; eauto; [by repeat split|].
      simpl. intros t [= <-]. exists (DIE.with_parent cd die), s0.
      split; [done|]. rewrite <- So, <- Ssz. split; [done|]. simpl. congruence. }
    split; [done|]. split.
    { eapply extends_trans; [exact Hext02|].
      eapply extends_set_obj; eauto. by repeat split. }
    split; [done|].
    destruct (heap_set_obj_offset w2 die dd2 (DIE.with_terminator dd2 c) c _ Hdd2 eq_refl Hc2)
      as (td & Htd & Hotd).
    exists (DIE.with_terminator dd2 c), c, td.
    split; [by eapply heap_set_obj_eq|]. split; [done|]. split; [done|].
    simpl in Hotd. congruence.
  - apply ok_ret. split; [done|]. split; [eapply extends_trans; eauto|].
    exists c, (DIE.with_parent cd die). by repeat split.
Qed.

(** The recorded terminator of a list tells where the list ends. *)
Lemma terminator_span w t td start sub :
  tree_inv w -> heap w !! t = Some td -> encodes start sub ->
  DIE.offset td = term_offset start sub ->
  DIE.offset td + DIE.size td = span start sub.
Proof.
  intros Hinv Htd Henc Ho.
  destruct (encodes_term sub start Henc) as (q & Hq & _ & Hspan).
  destruct (ti_parsed w Hinv t td Htd) as (p' & Hp' & _ & _ & Hsz & _).
  rewrite Ho in Hp'. assert (p' = q) by congruence. subst p'.
  rewrite Hspan, Hsz, Ho. done.
Qed.

(** A member of a children list: its offset, what the stream holds
    there, and its own children list if it has one. *)
Record kid : Type := mkKid {
  k_off : Z;
  k_entry : DIE.parsed;
  k_sub : option entries
}.

Fixpoint kids (cur : Z) (s : entries) : list kid :=
  match s with
  | Null _ => []
  | Leaf p next => mkKid cur p None :: kids (cur + DIE.p_size p) next
  | Node p sub next =>
      mkKid cur p (Some sub) :: kids (span (cur + DIE.p_size p) sub) next
  end.

Lemma kids_offsets s : forall cur, map k_off (kids cur s) = child_offsets cur s.
Proof.
  induction s as [q|p next IH|p sub IHs next IHn]; intros cur; simpl;
    [done|by rewrite IH|by rewrite IHn].
Qed.

(** What a loop body is asked to do for one member: run to the end from
    any good world in which the member's object is given, keep the world
    good, only add to it, and establish [R]. *)
Definition body_spec {A} (body : ref -> M A)
           (R : kid -> ref -> A -> World -> Prop) (k : kid) : Prop :=
  forall w c cd,
    tree_inv w -> heap w !! c = Some cd -> DIE.offset cd = k_off k ->
    ok (body c) w (fun x w' => tree_inv w' /\ extends w w' /\ R k c x w').

(** What is left of [for c in gen: body(c)] once [next(gen)] returned. *)
Definition loop_rest {A} (body : ref -> M A) (n f : nat)
           (r : option ref * children_gen) : M (list A) :=
  match r with
  | (None, _) => ret []
  | (Some c, g') =>
      let* x := body c in
      let* xs := for_in (next_child f) body n g' in
      ret (x :: xs)
  end.

Lemma for_in_S {A} (body : ref -> M A) n f g :
  for_in (next_child f) body (S n) g =
    (let* r := next_child f g in loop_rest body n f r).
Proof. reflexivity. Qed.

(** The loop over the members of [s], entered at the fetch of the cursor
    [cur]: it ends, every body ran on the object of its member in
    order, and the generator recorded the terminator. *)
Definition loop_ok (s : entries) : Prop :=
  forall (A : Type) (body : ref -> M A) (R : kid -> ref -> A -> World -> Prop),
    (forall k c x w w', R k c x w -> extends w w' -> R k c x w') ->
  forall cur n f w die dd,
    (need s <= S n)%nat -> (need s <= f)%nat ->
    tree_inv w -> heap w !! die = Some dd -> encodes cur s ->
    (exists s0, encodes (DIE.offset dd + DIE.size dd) s0 /\
                term_offset (DIE.offset dd + DIE.size dd) s0 = term_offset cur s) ->
    Forall (body_spec body R) (kids cur s) ->
    ok (let* r := fetch die cur in loop_rest body n f r) w (fun xs w' =>
      tree_inv w' /\ extends w w' /\
      Forall2 (fun k x => exists c cd, heap w' !! c = Some cd /\
                                       DIE.offset cd = k_off k /\ R k c x w')
              (kids cur s) xs /\
      exists dd' t td, heap w' !! die = Some dd' /\ DIE._terminator dd' = Some t /\
                       heap w' !! t = Some td /\
                       DIE.offset td = term_offset cur s).

(** The object of a member, as the invariant describes it. *)
Lemma member_fields w c cd p :
  tree_inv w -> heap w !! c = Some cd -> DIE_parse (DIE.offset cd) = inr p ->
  parsed_as cd p.
Proof.
  intros Hinv Hcd Hp. destruct (ti_parsed w Hinv c cd Hcd) as (p' & Hp' & Hpa).
  assert (p' = p) by congruence. by subst p'.
Qed.

(** After a childless member the cursor moves by the member's size. *)
Lemma advance_leaf w die cur c cd p f' :
  tree_inv w -> heap w !! c = Some cd -> DIE.offset cd = cur ->
  DIE_parse cur = inr p -> DIE.p_has_children p = false ->
  next_child (S f') (GenYielded die cur c) w = fetch die (cur + DIE.p_size p) w.
Proof.
  intros Hinv Hcd Ho Hp Hk. rewrite <- Ho in Hp.
  destruct (member_fields w c cd p Hinv Hcd Hp) as (_ & Hk' & Hsz & _).
  cbn [gen_next]. unfold bind at 1. rewrite (deref_eq _ _ _ Hcd).
  rewrite Hk', Hk. simpl negb. cbv iota. unfold bind at 1, ret at 1.
  by rewrite Hsz.
Qed.

(** After a member with children the cursor moves past the member's own
    list, by the shortcut or by the scan. *)
Lemma advance_node w die cur c cd p sub next f' :
  loop_ok sub ->
  tree_inv w -> heap w !! c = Some cd -> DIE.offset cd = cur ->
  encodes cur (Node p sub next) -> (need sub <= f')%nat ->
  exists w1, tree_inv w1 /\ extends w w1 /\
    next_child (S f') (GenYielded die cur c) w =
      fetch die (span (cur + DIE.p_size p) sub) w1.
Proof.
  intros Hsub Hinv Hcd Ho (Hp & Htag & Hk & Hntop & Hes & Hsib & Hen) Hf.
  rewrite <- Ho in Hp.
  destruct (member_fields w c cd p Hinv Hcd Hp) as (_ & Hk' & Hsz & Hattr).
  cbn [gen_next]. unfold bind at 1. rewrite (deref_eq _ _ _ Hcd).
  rewrite Hk', Hk. simpl negb. cbv iota.
  rewrite Hattr by congruence.
  destruct (DIE.get_attr "DW_AT_sibling" (DIE.p_attributes p)) as [a|] eqn:Ea.
  - exists w. split; [done|]. split; [apply extends_refl|].
    unfold bind at 1. rewrite sibling_offset_resolve, (ti_base w Hinv).
    by rewrite (Hsib a eq_refl).
  - assert (Hread : forall w1 cd1 t td,
              tree_inv w1 -> heap w1 !! c = Some cd1 ->
              DIE._terminator cd1 = Some t -> heap w1 !! t = Some td ->
              DIE.offset td = term_offset (cur + DIE.p_size p) sub ->
              (let* c' := deref c in
               let* t := lift_opt
                           (AttributeError "'NoneType' object has no attribute 'offset'")
                           (DIE._terminator c') in
               let* td := deref t in
               ret (DIE.offset td + DIE.size td)) w1 =
              (inr (span (cur + DIE.p_size p) sub), w1)).
    { intros w1 cd1 t td Hinv1 Hcd1 Ht Htd Hotd.
      unfold bind. rewrite (deref_eq _ _ _ Hcd1), Ht. simpl.
      rewrite (deref_eq _ _ _ Htd). unfold ret.
      by rewrite (terminator_span w1 t td _ sub Hinv1 Htd Hes Hotd). }
    destruct (DIE._terminator cd) as [t|] eqn:Et.
    + exists w. split; [done|]. split; [apply extends_refl|].
      destruct (ti_term w Hinv c cd t Hcd Et) as (td & s' & Htd & Henc' & Hotd).
      rewrite Ho, Hsz in Henc', Hotd.
      assert (s' = sub) by (eapply encodes_fun; eauto). subst s'.
      unfold bind at 1. unfold bind at 1. unfold ret at 1.
      by rewrite (Hread w cd t td Hinv Hcd Et Htd Hotd).
    + destruct f' as [|n0]; [destruct sub; simpl in Hf; lia|].
      assert (Hdrain : ok (drain (next_child (S n0)) (S n0) (GenStart c)) w
                (fun _ w1 => tree_inv w1 /\ extends w w1 /\
                   exists cd1 t td, heap w1 !! c = Some cd1 /\
                     DIE._terminator cd1 = Some t /\ heap w1 !! t = Some td /\
                     DIE.offset td = term_offset (cur + DIE.p_size p) sub)).
      { unfold drain. apply ok_bind. rewrite for_in_S.
        assert (Hstart : next_child (S n0) (GenStart c) w =
                         fetch c (cur + DIE.p_size p) w).
        { cbn [gen_next]. unfold bind at 1. rewrite (deref_eq _ _ _ Hcd).
          rewrite Hk', Hk. simpl negb. cbv iota. by rewrite Ho, Hsz. }
        eapply ok_bind_swap; [exact Hstart|].
        eapply ok_mono.
        { apply (Hsub unit (fun _ => ret tt) (fun _ _ _ _ => True)
                       (fun _ _ _ _ _ _ _ => I)
                       (cur + DIE.p_size p) n0 (S n0) w c cd);
            [lia|lia|exact Hinv|exact Hcd|exact Hes| |].
          - exists sub. by rewrite Ho, Hsz.
          - apply Forall_forall. intros k _ w0 c0 cd0 Hinv0 _ _.
            apply ok_ret. split; [done|]. split; [apply extends_refl|done]. }
        intros xs w1 (Hinv1 & Hext1 & _ & Hterm). simpl.
        apply ok_ret. split; [done|]. split; [done|]. exact Hterm. }
      destruct Hdrain as ([] & w1 & Hd & Hinv1 & Hext1 & cd1 & t & td & Hcd1 & Ht & Htd & Hotd).
      exists w1. split; [done|]. split; [done|].
      unfold bind at 1. unfold bind at 1. rewrite Hd.
      by rewrite (Hread w1 cd1 t td Hinv1 Hcd1 Ht Htd Hotd).
Qed.

Lemma extends_target w w' die dd cur s :
  extends w w' -> heap w !! die = Some dd ->
  (exists s0, encodes (DIE.offset dd + DIE.size dd) s0 /\
              term_offset (DIE.offset dd + DIE.size dd) s0 = term_offset cur s) ->
  exists dd', heap w' !! die = Some dd' /\
    (exists s0, encodes (DIE.offset dd' + DIE.size dd') s0 /\
                term_offset (DIE.offset dd' + DIE.size dd') s0 = term_offset cur s).
Proof.
  intros Hext Hdd Htgt.
  destruct (ext_heap w w' Hext die dd Hdd) as (dd' & Hdd' & (So & _ & _ & Ssz) & _).
  exists dd'. split; [done|]. by rewrite <- So, <- Ssz.
Qed.

Lemma extends_at_offset w w' c cd :
  extends w w' -> heap w !! c = Some cd ->
  exists cd', heap w' !! c = Some cd' /\ DIE.offset cd' = DIE.offset cd.
Proof.
  intros Hext Hcd.
  destruct (ext_heap w w' Hext c cd Hcd) as (cd' & Hcd' & (So & _) & _).
  exists cd'. split; [done|]. congruence.
Qed.

Lemma loop_ok_all s : loop_ok s.
Proof.
  induction s as [q|p next IH|p sub IHs next IHn];
    intros A body R Rst cur n f w die dd Hn Hf Hinv Hdd Henc Htgt Hbody.
  - apply ok_bind.
    eapply ok_mono; [by apply (fetch_child_ok w die dd cur (Null q))|].
    intros r w1 (Hinv1 & Hext1 & -> & Hterm). simpl.
    apply ok_ret. split; [done|]. split; [done|]. split; [constructor|]. exact Hterm.
  - apply ok_bind.
    eapply ok_mono; [by apply (fetch_child_ok w die dd cur (Leaf p next))|].
    intros r w1 (Hinv1 & Hext1 & c & cd & -> & Hcd & Ho & _). simpl.
    simpl in Hbody. apply Forall_cons in Hbody as [Hb Hbody].
    apply ok_bind. eapply ok_mono; [by apply (Hb w1 c cd)|].
    intros x w2 (Hinv2 & Hext2 & HR). simpl.
    simpl in Hn, Hf.
    destruct n as [|n']; [destruct next; simpl in Hn; lia|].
    destruct f as [|f']; [lia|].
    destruct (extends_at_offset w1 w2 c cd Hext2 Hcd) as (cd2 & Hcd2 & Ho2).
    destruct Henc as (Hp & Htag & Hk & Hen).
    assert (Hext02 : extends w w2) by (eapply extends_trans; eauto).
    destruct (extends_target w w2 die dd cur (Leaf p next) Hext02 Hdd Htgt)
      as (dd2 & Hdd2 & Htgt2).
    apply ok_bind. rewrite for_in_S.
    eapply ok_bind_swap.
    { apply (advance_leaf w2 die cur c cd2 p f'); congruence. }
    eapply ok_mono.
    { apply (IH A body R Rst (cur + DIE.p_size p) n' (S f') w2 die dd2);
        try done; lia. }
    intros xs w3 (Hinv3 & Hext3 & Hall & Hterm). simpl.
    apply ok_ret. split; [done|]. split; [eapply extends_trans; eauto|].
    split; [|exact Hterm].
    constructor; [|done].
    destruct (extends_at_offset w2 w3 c cd2 Hext3 Hcd2) as (cd3 & Hcd3 & Ho3).
    exists c, cd3. split; [done|]. split; [simpl; congruence|]. eapply Rst; eauto.
  - apply ok_bind.
    eapply ok_mono; [by apply (fetch_child_ok w die dd cur (Node p sub next))|].
    intros r w1 (Hinv1 & Hext1 & c & cd & -> & Hcd & Ho & _). simpl.
    simpl in Hbody. apply Forall_cons in Hbody as [Hb Hbody].
    apply ok_bind. eapply ok_mono; [by apply (Hb w1 c cd)|].
    intros x w2 (Hinv2 & Hext2 & HR). simpl.
    simpl in Hn, Hf.
    destruct n as [|n']; [destruct next; simpl in Hn; lia|].
    destruct f as [|f']; [lia|].
    destruct (extends_at_offset w1 w2 c cd Hext2 Hcd) as (cd2 & Hcd2 & Ho2).
    destruct (advance_node w2 die cur c cd2 p sub next f' IHs Hinv2 Hcd2)
      as (w2' & Hinv2' & Hext2' & Hadv); [congruence|done|lia|].
    destruct Henc as (Hp & Htag & Hk & Hntop & Hes & Hsib & Hen).
    assert (Hext02 : extends w w2').
    { eapply extends_trans; [|exact Hext2']. eapply extends_trans; eauto. }
    destruct (extends_target w w2' die dd cur (Node p sub next) Hext02 Hdd Htgt)
      as (dd2 & Hdd2 & Htgt2).
    apply ok_bind. rewrite for_in_S.
    eapply ok_bind_swap; [exact Hadv|].
    eapply ok_mono.
    { apply (IHn A body R Rst (span (cur + DIE.p_size p) sub) n' (S f') w2' die dd2);
        try done; lia. }
    intros xs w3 (Hinv3 & Hext3 & Hall & Hterm). simpl.
    apply ok_ret. split; [done|]. split; [eapply extends_trans; eauto|].
    split; [|exact Hterm].
    constructor; [|done].
    assert (Hext23 : extends w2 w3) by (eapply extends_trans; eauto).
    destruct (extends_at_offset w2 w3 c cd2 Hext23 Hcd2) as (cd3 & Hcd3 & Ho3).
    exists c, cd3. split; [done|]. split; [simpl; congruence|]. eapply Rst; eauto.
Qed.

(** The first [get_top_DIE] of a unit: the top entry is parsed, cached
    and translated, and the world is good. *)
Lemma get_top_DIE_tree_inv w t w' :
  tree_inv w -> _diemap (tu w) = [] -> get_top w = (inr t, w') ->
  tree_inv w' /\ extends w w' /\
  exists p d, DIE_parse top = inr p /\ heap w' !! t = Some d /\
              DIE.offset d = top /\ DIE.tag d = DIE.p_tag p /\
              DIE.has_children d = DIE.p_has_children p /\
              DIE.size d = DIE.p_size p.
Proof.
  intros Hinv Hnil Heq. pose proof (ti_top w Hinv) as Htop.
  rewrite (get_top_DIE_empty _ _ w Hnil), Htop in Heq.
  destruct (DIE_parse top) as [e|p] eqn:Hp; [done|].
  destruct (translate_indirect (DIE.p_attributes p)) as [e|a]; [done|].
  injection Heq as <- <-.
  pose proof (tree_inv_alloc_insert w top p Hinv) as H1.
  rewrite Hnil, bisect_right_nil in H1.
  assert (Hnew : forall j, ([] : list Z) !! j <> Some top)
    by (intros j; by rewrite lookup_nil).
  specialize (H1 Hnew Hp).
  pose proof (heap_alloc_insert_new w 0 top p) as Hobj.
  split; [|split].
  - eapply tree_inv_set_obj; eauto; [by repeat split|done|done].
  - eapply extends_trans.
    + apply (extends_alloc_insert w 0 top p); [apply (ti_cache w Hinv)|lia].
    + eapply extends_set_obj; eauto; [by repeat split|].
      simpl. rewrite Htop. done.
  - exists p, (DIE.with_attributes (DIE.init top p) a).
    split; [done|]. split; [by eapply heap_set_obj_eq|]. by repeat split.
Qed.

(** *** The children of a DIE *)

(** The objects of [l] sit at the offsets [os], in order. *)
Definition refs_at (w : World) (l : list ref) (os : list Z) : Prop :=
  Forall2 (fun r o => exists d, heap w !! r = Some d /\ DIE.offset d = o) l os.

Lemma start_children w die dd f' :
  heap w !! die = Some dd -> DIE.has_children dd = true ->
  next_child (S f') (GenStart die) w = fetch die (DIE.offset dd + DIE.size dd) w.
Proof.
  intros Hdd Hk. cbn [gen_next]. unfold bind at 1.
  rewrite (deref_eq _ _ _ Hdd), Hk. reflexivity.
Qed.

(** [list(iter_DIE_children(die))] over an encoded list: the members,
    in order, each the object cached for its offset; the terminator of
    [die] is recorded. *)
Lemma iter_DIE_children_ok w die dd s fuel :
  tree_inv w -> heap w !! die = Some dd -> DIE.has_children dd = true ->
  encodes (DIE.offset dd + DIE.size dd) s ->
  (need s <= fuel)%nat ->
  ok (iter_DIE_children DIE_parse translate_indirect fuel die) w (fun l w' =>
    tree_inv w' /\ extends w w' /\
    refs_at w' l (child_offsets (DIE.offset dd + DIE.size dd) s) /\
    exists dd' t td, heap w' !! die = Some dd' /\ DIE._terminator dd' = Some t /\
                     heap w' !! t = Some td /\
                     DIE.offset td = term_offset (DIE.offset dd + DIE.size dd) s).
Proof.
  intros Hinv Hdd Hk Henc Hfuel.
  destruct fuel as [|n]; [destruct s; simpl in Hfuel; lia|].
  unfold iter_DIE_children, collect. rewrite for_in_S.
  eapply ok_bind_swap; [by apply start_children|].
  eapply ok_mono.
  { apply (loop_ok_all s ref (fun c => ret c) (fun _ c x _ => x = c)
             (fun _ _ _ _ _ H _ => H)
             (DIE.offset dd + DIE.size dd) n (S n) w die dd);
      try done; try lia.
    - by exists s.
    - apply Forall_forall. intros k _ w0 c0 cd0 Hinv0 _ _.
      apply ok_ret. split; [done|]. split; [apply extends_refl|done]. }
  intros l w' (Hinv' & Hext' & Hall & Hterm). simpl.
  split; [done|]. split; [done|]. split; [|exact Hterm].
  unfold refs_at. rewrite <- kids_offsets.
  apply Forall2_fmap_r. apply Forall2_flip.
  eapply Forall2_impl; [exact Hall|].
  intros k x (c & cd & Hcd & Ho & ->). simpl. eauto.
Qed.

(** *** The subtree of a DIE *)

Variable supplementary_dwarfinfo : bool.
Variable get_DIE_from_attribute : ref -> string -> M ref.

Abbreviation subtree :=
  (_iter_DIE_subtree DIE_parse translate_indirect supplementary_dwarfinfo
                     get_DIE_from_attribute).

(** An entry the walk yields as it is: no supplementary file, or not an
    imported unit. *)
Definition plain_tag (t : option string) : Prop :=
  supplementary_dwarfinfo = false \/ t <> Some "DW_TAG_imported_unit".

Fixpoint all_plain (s : entries) : Prop :=
  match s with
  | Null _ => True
  | Leaf p next => plain_tag (DIE.p_tag p) /\ all_plain next
  | Node p sub next =>
      plain_tag (DIE.p_tag p) /\ all_plain sub /\ all_plain next
  end.

Lemma plain_tag_check t :
  plain_tag t ->
  (match t with
   | Some x => String.eqb x "DW_TAG_imported_unit"
   | None => false
   end) && supplementary_dwarfinfo = false.
Proof.
  intros [->|H]; [apply andb_false_r|].
  destruct t as [x|]; [|done].
  destruct (String.eqb_spec x "DW_TAG_imported_unit") as [->|]; [done|done].
Qed.

(** The offsets the walk of one member goes through. *)
Definition walk_kid (k : kid) : list Z :=
  k_off k :: match k_sub k with
             | None => []
             | Some sub => walk (k_off k + DIE.p_size (k_entry k)) sub
             end.

Lemma walk_kids s : forall cur,
  walk cur s = concat (map walk_kid (kids cur s)) ++ [term_offset cur s].
Proof.
  induction s as [q|p next IH|p sub IHs next IHn]; intros cur; simpl.
  - done.
  - by rewrite IH.
  - unfold walk_kid at 1. simpl. rewrite IHn. by rewrite <- app_assoc.
Qed.

(** The values yielded are objects sitting at the offsets [os]. *)
Definition yielded_at (w : World) (x : list (option ref)) (os : list Z) : Prop :=
  Forall2 (fun y o => exists r d, y = Some r /\ heap w !! r = Some d /\
                                  DIE.offset d = o) x os.

Lemma yielded_at_extends w w' x os :
  yielded_at w x os -> extends w w' -> yielded_at w' x os.
Proof.
  intros H Hext. eapply Forall2_impl; [exact H|].
  intros y o (r & d & -> & Hd & Ho).
  destruct (extends_at_offset w w' r d Hext Hd) as (d' & Hd' & Ho').
  exists r, d'. split; [done|]. split; [done|]. congruence.
Qed.

Lemma yielded_at_concat w (xss : list (list (option ref))) (oss : list (list Z)) :
  Forall2 (yielded_at w) xss oss -> yielded_at w (concat xss) (concat oss).
Proof.
  induction 1 as [|x os xss oss H _ IH]; simpl; [constructor|].
  by apply Forall2_app.
Qed.

(** What the walk of one member returns. *)
Definition walked (k : kid) (c : ref) (x : list (option ref)) (w : World) : Prop :=
  (exists rest, x = Some c :: rest) /\ yielded_at w x (walk_kid k).

Lemma walked_extends k c x w w' : walked k c x w -> extends w w' -> walked k c x w'.
Proof. intros [H1 H2] Hext. split; [done|]. eapply yielded_at_extends; eauto. Qed.

(** A childless entry is its whole subtree. *)
Lemma subtree_leaf w c cd f' :
  heap w !! c = Some cd -> DIE.has_children cd = false ->
  plain_tag (DIE.tag cd) ->
  subtree (S f') c w = (inr [Some c], w).
Proof.
  intros Hcd Hk Hplain. cbn [_iter_DIE_subtree].
  unfold bind at 1. rewrite (deref_eq _ _ _ Hcd).
  rewrite (plain_tag_check _ Hplain).
  unfold bind at 1. unfold ret at 1.
  unfold bind at 1. rewrite (deref_eq _ _ _ Hcd). by rewrite Hk.
Qed.

(** An entry with children: itself, the walks of its members in order,
    its terminator. *)
Lemma subtree_node w c cd sub f' :
  tree_inv w -> heap w !! c = Some cd -> DIE.has_children cd = true ->
  plain_tag (DIE.tag cd) ->
  encodes (DIE.offset cd + DIE.size cd) sub ->
  Forall (body_spec (subtree f') walked) (kids (DIE.offset cd + DIE.size cd) sub) ->
  (need sub <= f')%nat ->
  ok (subtree (S f') c) w (fun x w' =>
    tree_inv w' /\ extends w w' /\
    (exists xss t cd',
        x = Some c :: concat xss ++ [Some t] /\
        heap w' !! c = Some cd' /\ DIE._terminator cd' = Some t /\
        Forall2 (fun k xs => exists c' d', heap w' !! c' = Some d' /\
                                           DIE.offset d' = k_off k /\
                                           walked k c' xs w')
                (kids (DIE.offset cd + DIE.size cd) sub) xss) /\
    yielded_at w' x (DIE.offset cd :: walk (DIE.offset cd + DIE.size cd) sub)).
Proof.
  intros Hinv Hcd Hk Hplain Henc Hbody Hf.
  destruct f' as [|n]; [destruct sub; simpl in Hf; lia|].
  cbn [_iter_DIE_subtree].
  apply ok_bind. eapply ok_eq; [by apply deref_eq|].
  rewrite (plain_tag_check _ Hplain).
  apply ok_bind. apply ok_ret.
  apply ok_bind. eapply ok_eq; [by apply deref_eq|].
  rewrite Hk. apply ok_bind. unfold for_children. apply ok_bind.
  rewrite for_in_S.
  eapply ok_bind_swap; [by apply start_children|].
  eapply ok_mono.
  { apply (loop_ok_all sub _ (subtree (S n)) walked walked_extends
             (DIE.offset cd + DIE.size cd) n (S n) w c cd);
      try done; try lia. by exists sub. }
  intros xss w' (Hinv' & Hext' & Hall & cd' & t & td & Hcd' & Ht & Htd & Hotd).
  simpl. apply ok_ret.
  apply ok_bind. eapply ok_eq; [by apply deref_eq|].
  apply ok_ret. rewrite Ht.
  split; [done|]. split; [done|]. split; [by exists xss, t, cd'|].
  destruct (extends_at_offset w w' c cd Hext' Hcd) as (cd2 & Hcd2 & Ho2).
  constructor; [exists c, cd2; by repeat split|].
  rewrite walk_kids. apply Forall2_app.
  - apply yielded_at_concat. apply Forall2_fmap_r.
    apply Forall2_flip. eapply Forall2_impl; [exact Hall|].
    intros k x (c0 & cd0 & _ & _ & _ & Hy). exact Hy.
  - constructor; [|constructor]. exists t, td. by repeat split.
Qed.

(** Every member of an encoded list is walked as specified. *)
Lemma subtree_members s : forall cur f,
  encodes cur s -> all_plain s -> (need s <= f)%nat ->
  Forall (body_spec (subtree f) walked) (kids cur s).
Proof.
  induction s as [q|p next IH|p sub IHs next IHn]; intros cur f Henc Hpl Hf; simpl.
  - constructor.
  - destruct Henc as (Hp & Htag & Hk & Hen). destruct Hpl as [Hpt Hpl].
    simpl in Hf. constructor; [|apply IH; auto; lia].
    intros w c cd Hinv Hcd Ho. simpl in Ho.
    destruct f as [|f']; [lia|]. rewrite <- Ho in Hp.
    destruct (member_fields w c cd p Hinv Hcd Hp) as (Ht & Hk' & _).
    eapply ok_eq.
    { apply (subtree_leaf w c cd f' Hcd); [congruence|by rewrite Ht]. }
    split; [done|]. split; [apply extends_refl|].
    split; [by exists []|].
    unfold walk_kid. simpl. constructor; [|constructor]. exists c, cd. by repeat split.
  - destruct Henc as (Hp & Htag & Hk & Hntop & Hes & Hsib & Hen).
    destruct Hpl as (Hpt & Hps & Hpn). simpl in Hf.
    constructor; [|apply IHn; auto; lia].
    intros w c cd Hinv Hcd Ho. simpl in Ho.
    destruct f as [|f']; [lia|]. rewrite <- Ho in Hp.
    destruct (member_fields w c cd p Hinv Hcd Hp) as (Ht & Hk' & Hsz & _).
    eapply ok_mono.
    { apply (subtree_node w c cd sub f' Hinv Hcd); [congruence|by rewrite Ht| | |lia].
      - by rewrite Ho, Hsz.
      - rewrite Ho, Hsz. apply IHs; auto. lia. }
    intros x w' (Hinv' & Hext' & (xss & t & cd' & -> & _) & Hy). simpl.
    split; [done|]. split; [done|]. split; [by eexists|].
    unfold walk_kid. simpl. by rewrite <- Ho, <- Hsz.
Qed.


(** The fallback scan of an entry with children ends on the null entry
    of its list: the recorded terminator ends where the list ends. *)
Lemma scan_finds_boundary w c cd s fuel :
  tree_inv w -> heap w !! c = Some cd -> DIE.has_children cd = true ->
  encodes (DIE.offset cd + DIE.size cd) s -> (need s <= fuel)%nat ->
  ok (drain (next_child fuel) fuel (GenStart c)) w (fun _ w' =>
    tree_inv w' /\ extends w w' /\
    exists cd' t td, heap w' !! c = Some cd' /\ DIE._terminator cd' = Some t /\
                     heap w' !! t = Some td /\
                     DIE.offset td + DIE.size td = span (DIE.offset cd + DIE.size cd) s).
Proof.
  intros Hinv Hcd Hk Henc Hf.
  destruct fuel as [|n]; [destruct s; simpl in Hf; lia|].
  unfold drain. apply ok_bind. rewrite for_in_S.
  eapply ok_bind_swap; [by apply start_children|].
  eapply ok_mono.
  { apply (loop_ok_all s unit (fun _ => ret tt) (fun _ _ _ _ => True)
             (fun _ _ _ _ _ _ _ => I)
             (DIE.offset cd + DIE.size cd) n (S n) w c cd);
      try done; try lia.
    - by exists s.
    - apply Forall_forall. intros k _ w0 c0 cd0 Hinv0 _ _.
      apply ok_ret. split; [done|]. split; [apply extends_refl|done]. }
  intros xs w' (Hinv' & Hext' & _ & cd' & t & td & Hcd' & Ht & Htd & Hotd).
  simpl. apply ok_ret. split; [done|]. split; [done|].
  exists cd', t, td. split; [done|]. split; [done|]. split; [done|].
  by apply (terminator_span w' t td).
Qed.

(** [iter_DIEs] on a unit nothing was read from yet, whose top entry has
    children: the top entry is parsed, translated and cached, and the
    whole unit comes out in stream order, null entries included. *)
Lemma iter_DIEs_ok w p a s fuel :
  tree_inv w -> _diemap (tu w) = [] ->
  DIE_parse top = inr p -> translate_indirect (DIE.p_attributes p) = inr a ->
  plain_tag (DIE.p_tag p) -> DIE.p_has_children p = true ->
  encodes (top + DIE.p_size p) s -> all_plain s -> (need s <= fuel)%nat ->
  ok (iter_DIEs DIE_parse translate_indirect supplementary_dwarfinfo
                get_DIE_from_attribute (S fuel)) w (fun x w' =>
    tree_inv w' /\ extends w w' /\
    yielded_at w' x (top :: walk (top + DIE.p_size p) s)).
Proof.
  intros Hinv Hnil Hp Ht Hplain Hk Henc Hpl Hf.
  destruct (get_top_DIE DIE_parse translate_indirect w) as [res w1] eqn:Htop.
  assert (Hres : res = inr (length (heap w))).
  { rewrite (get_top_DIE_empty _ _ w Hnil), (ti_top w Hinv), Hp, Ht in Htop.
    by injection Htop as <- _. }
  subst res.
  destruct (get_top_DIE_tree_inv w _ _ Hinv Hnil Htop)
    as (Hinv1 & Hext1 & p' & d & Hp' & Hd & Ho & Htag & Hk' & Hsz).
  assert (p' = p) by congruence. subst p'.
  unfold iter_DIEs. apply ok_bind. eapply ok_eq; [exact Htop|].
  eapply ok_mono.
  { apply (subtree_node w1 _ d s fuel Hinv1 Hd); [congruence| | | |done].
    - by rewrite Htag.
    - by rewrite Ho, Hsz.
    - rewrite Ho, Hsz. by apply subtree_members. }
  intros x w' (Hinv' & Hext' & _ & Hy). simpl.
  split; [done|]. split; [eapply extends_trans; eauto|].
  by rewrite Ho, Hsz in Hy.
Qed.

End Navigation.

Lemma same_layout_need s : forall s', same_layout s s' -> need s = need s'.
Proof.
  induction s as [q|p next IH|p sub IHs next IHn]; intros [q'|p' next'|p' sub' next'] H;
    simpl in *; try done.
  - destruct H as [_ H]. by rewrite (IH _ H).
  - destruct H as (_ & Hs & Hn). by rewrite (IHs _ Hs), (IHn _ Hn).
Qed.

(** C5: on a well-formed children list, the cursor a sibling shortcut
    gives (the offset just past the list) is the cursor the fallback scan
    computes from the terminator it discovers; and two streams that lay
    out the same tree, one with shortcuts and one without, enumerate the
    same offsets, for the children and for the whole subtree. *)
Theorem sibling_shortcut_equivalence
        (parse1 parse2 : Z -> exception + DIE.parsed)
        (tr1 tr2 : list (string * DIE.AttributeValue) ->
                   exception + list (string * DIE.AttributeValue))
        (supp : bool) (import : ref -> string -> M ref)
        (base top : Z) (w1 w2 : World) (c1 c2 : ref) (d1 d2 : DIE.t)
        (s1 s2 : entries) (fuel : nat) :
  tree_inv parse1 base top w1 -> tree_inv parse2 base top w2 ->
  heap w1 !! c1 = Some d1 -> heap w2 !! c2 = Some d2 ->
  DIE.has_children d1 = true -> DIE.has_children d2 = true ->
  DIE.offset d1 = DIE.offset d2 -> DIE.size d1 = DIE.size d2 ->
  encodes parse1 base top (DIE.offset d1 + DIE.size d1) s1 ->
  encodes parse2 base top (DIE.offset d2 + DIE.size d2) s2 ->
  same_layout s1 s2 -> (need s1 <= fuel)%nat ->
  (forall a, DIE.get_attr "DW_AT_sibling" (DIE.attributes d1) = Some a ->
             resolve_sibling base a = Some (span (DIE.offset d1 + DIE.size d1) s1) ->
     exists cursor,
       sibling_offset a w1 = (inr cursor, w1) /\
       ok (drain (gen_next parse1 tr1 fuel) fuel (GenStart c1)) w1 (fun _ w' =>
         exists d' t td, heap w' !! c1 = Some d' /\ DIE._terminator d' = Some t /\
                         heap w' !! t = Some td /\
                         DIE.offset td + DIE.size td = cursor)) /\
  (ok (iter_DIE_children parse1 tr1 fuel c1) w1 (fun l w' =>
        refs_at w' l (child_offsets (DIE.offset d1 + DIE.size d1) s1)) /\
   ok (iter_DIE_children parse2 tr2 fuel c2) w2 (fun l w' =>
        refs_at w' l (child_offsets (DIE.offset d1 + DIE.size d1) s1))) /\
  (plain_tag supp (DIE.tag d1) -> all_plain supp s1 ->
   plain_tag supp (DIE.tag d2) -> all_plain supp s2 ->
   ok (_iter_DIE_subtree parse1 tr1 supp import (S fuel) c1) w1 (fun x w' =>
        yielded_at w' x (DIE.offset d1 :: walk (DIE.offset d1 + DIE.size d1) s1)) /\
   ok (_iter_DIE_subtree parse2 tr2 supp import (S fuel) c2) w2 (fun x w' =>
        yielded_at w' x (DIE.offset d1 :: walk (DIE.offset d1 + DIE.size d1) s1))).
Proof.
  intros Hinv1 Hinv2 Hd1 Hd2 Hk1 Hk2 Ho Hsz Henc1 Henc2 Hlay Hf.
  assert (Hf2 : (need s2 <= fuel)%nat) by (by rewrite <- (same_layout_need _ _ Hlay)).
  split; [|split].
  - intros a Ha Hres. exists (span (DIE.offset d1 + DIE.size d1) s1). split.
    + rewrite sibling_offset_resolve, (ti_base _ _ _ _ Hinv1). by rewrite Hres.
    + eapply ok_mono;
        [by apply (scan_finds_boundary parse1 tr1 base top w1 c1 d1 s1 fuel)|].
      intros [] w' (_ & _ & H). exact H.
  - split.
    + eapply ok_mono;
        [by apply (iter_DIE_children_ok parse1 tr1 base top w1 c1 d1 s1 fuel)|].
      intros l w' (_ & _ & H & _). exact H.
    + rewrite (same_layout_child_offsets _ _ _ Hlay), Ho, Hsz.
      eapply ok_mono;
        [by apply (iter_DIE_children_ok parse2 tr2 base top w2 c2 d2 s2 fuel)|].
      intros l w' (_ & _ & H & _). exact H.
  - intros Hp1 Hps1 Hp2 Hps2. split.
    + eapply ok_mono.
      { apply (subtree_node parse1 tr1 base top supp import w1 c1 d1 s1 fuel);
          auto. by apply subtree_members. }
      intros x w' (_ & _ & _ & Hy). exact Hy.
    + rewrite (same_layout_walk _ _ _ Hlay), Ho, Hsz.
      eapply ok_mono.
      { apply (subtree_node parse2 tr2 base top supp import w2 c2 d2 s2 fuel);
          auto. by apply subtree_members. }
      intros x w' (_ & _ & _ & Hy). exact Hy.
Qed.

(** ** One step of the children generator *)

Section ChildSteps.

Variable DIE_parse : Z -> exception + DIE.parsed.
Variable translate_indirect :
  list (string * DIE.AttributeValue) ->
  exception + list (string * DIE.AttributeValue).

Abbreviation get_cached := (_get_cached_DIE DIE_parse translate_indirect).
Abbreviation fetch := (fetch_child DIE_parse translate_indirect).
Abbreviation next_child := (gen_next DIE_parse translate_indirect).

(** The cached lookup keeps the cache invariant and only adds to the
    world, whatever it returns. *)
Lemma get_cached_DIE_inv w off res w' :
  cache_inv w -> get_cached off w = (res, w') ->
  cache_inv w' /\ extends w w'.
Proof.
  intros Hinv Heq.
  rewrite (get_cached_DIE_unfold DIE_parse translate_indirect w off Hinv) in Heq.
  destruct (get_top_DIE DIE_parse translate_indirect w) as [[e|t] w1] eqn:Htop.
  - injection Heq as <- <-.
    destruct (get_top_DIE_inv DIE_parse translate_indirect w _ _ Hinv Htop)
      as (H1 & H2 & _). done.
  - destruct (get_top_DIE_inv DIE_parse translate_indirect w _ _ Hinv Htop)
      as (Hinv1 & Hext1 & _ & _ & Hr).
    destruct (Hr t eq_refl) as (Hne & _).
    pose proof (get_cached_DIE_outcome DIE_parse translate_indirect w1 off Hinv1 Hne)
      as Hout.
    rewrite Heq in Hout.
    inversion Hout as [r Hhit|e Hnew Hp|p Hnew Hp]; subst; try done.
    pose proof (inv_asc w1 Hinv1) as A.
    destruct (bisect_right_spec _ off A) as (Hi & _).
    split; [by apply cache_inv_alloc_insert|].
    eapply extends_trans; [exact Hext1|]. by apply extends_alloc_insert.
Qed.


(** C1, as the code has it: after a yielded child with children that
    carries a sibling attribute, the next fetch happens at the attribute's
    value plus the unit's base offset for the six unit-relative forms, at
    the value itself for DW_FORM_ref_addr, and any other form raises
    NotImplementedError in the world as it is. *)
Theorem sibling_attribute_cursor w die cur c cd a f :
  heap w !! c = Some cd -> DIE.has_children cd = true ->
  DIE.get_attr "DW_AT_sibling" (DIE.attributes cd) = Some a ->
  (form_in (DIE.form a) sibling_forms = true ->
     next_child (S f) (GenYielded die cur c) w =
       fetch die (DIE.value a + tu_offset (tu w)) w) /\
  (DIE.form a = "DW_FORM_ref_addr" ->
     next_child (S f) (GenYielded die cur c) w = fetch die (DIE.value a) w) /\
  (form_in (DIE.form a) ("DW_FORM_ref_addr" :: sibling_forms) = false ->
     next_child (S f) (GenYielded die cur c) w =
       (inl (NotImplementedError ("sibling in form " +:+ DIE.form a)), w)).
Proof.
  intros Hcd Hk Ha.
  assert (E : next_child (S f) (GenYielded die cur c) w =
              (let* cur' := sibling_offset a in fetch die cur') w).
  { cbn [gen_next]. unfold bind at 1. rewrite (deref_eq _ _ _ Hcd).
    by rewrite Hk, Ha. }
  rewrite E. unfold bind. rewrite sibling_offset_resolve. unfold resolve_sibling.
  split; [|split].
  - intros ->. done.
  - intros Hf. rewrite Hf. done.
  - intros Hf.
    change (String.eqb (DIE.form a) "DW_FORM_ref_addr"
            || form_in (DIE.form a) sibling_forms = false) in Hf.
    apply orb_false_elim in Hf as [H1 H2]. by rewrite H2, H1.
Qed.

End ChildSteps.

(** ** What every operation keeps

    Whatever the stream holds and however a run ends, the two lists stay
    parallel and strictly ascending, every cached object stays under its
    own offset, no object is lost or re-parsed, and the header, hence
    [size], is not written.  (That the top entry stays first is another
    matter: it needs the offsets looked up to be at or above the top
    offset.) *)

Definition keeps {A} (m : M A) : Prop :=
  forall w res w', cache_inv w -> m w = (res, w') -> cache_inv w' /\ extends w w'.

Lemma keeps_ret {A} (a : A) : keeps (ret a).
Proof. intros w res w' Hinv [= <- <-]. split; [done|apply extends_refl]. Qed.

Lemma keeps_raise {A} e : keeps (raise e : M A).
Proof. intros w res w' Hinv [= <- <-]. split; [done|apply extends_refl]. Qed.

Lemma keeps_gets {A} (f : World -> A) : keeps (gets f).
Proof. intros w res w' Hinv [= <- <-]. split; [done|apply extends_refl]. Qed.

Lemma keeps_bind {A B} (m : M A) (k : A -> M B) :
  keeps m -> (forall a, keeps (k a)) -> keeps (bind m k).
Proof.
  intros Hm Hk w res w' Hinv Heq. unfold bind in Heq.
  destruct (m w) as [[e|a] w1] eqn:E.
  - injection Heq as <- <-. by apply (Hm w _ _ Hinv E).
  - destruct (Hm w _ _ Hinv E) as (Hinv1 & Hext1).
    destruct (Hk a w1 _ _ Hinv1 Heq) as (Hinv2 & Hext2).
    split; [done|]. eapply extends_trans; eauto.
Qed.

Lemma keeps_lift_opt {A} e (o : option A) : keeps (lift_opt e o).
Proof. destruct o; [apply keeps_ret|apply keeps_raise]. Qed.

Lemma keeps_deref r : keeps (deref r).
Proof.
  intros w res w' Hinv Heq.
  by apply (keeps_lift_opt (AttributeError "dangling reference") (heap w !! r) w res w').
Qed.

Lemma keeps_update r f :
  (forall d, same_entry d (f d) /\ DIE.attributes (f d) = DIE.attributes d) ->
  keeps (update r f).
Proof.
  intros Hf w res w' Hinv Heq. unfold update, bind, deref in Heq.
  destruct (heap w !! r) as [d|] eqn:Hd; simpl in Heq.
  - injection Heq as <- <-. destruct (Hf d) as ((So & Hs) & Ha). split.
    + by apply (cache_inv_set_obj w r d).
    + apply (extends_set_obj w r d); [done|by split|by intros _].
  - injection Heq as <- <-. split; [done|apply extends_refl].
Qed.

Lemma keeps_set_parent c die : keeps (set_parent c die).
Proof. apply keeps_update. intros d. by repeat split. Qed.

Lemma keeps_set_terminator die c : keeps (set_terminator die c).
Proof. apply keeps_update. intros d. by repeat split. Qed.

Lemma keeps_sibling_offset a : keeps (sibling_offset a).
Proof.
  intros w res w' Hinv Heq. rewrite sibling_offset_resolve in Heq.
  destruct (resolve_sibling _ a); injection Heq as <- <-;
    (split; [done|apply extends_refl]).
Qed.

Lemma keeps_has_top_DIE : keeps has_top_DIE.
Proof. apply keeps_bind; [apply keeps_gets|intros; apply keeps_ret]. Qed.

Lemma keeps_get_abbrev_table ctx : keeps (get_abbrev_table ctx).
Proof.
  intros w res w' Hinv Heq. unfold get_abbrev_table, bind, gets in Heq.
  destruct (_abbrev_table (tu w)).
  - injection Heq as <- <-. split; [done|apply extends_refl].
  - destruct (ctx (debug_abbrev_offset (header (tu w)))) as [e|a]; simpl in Heq.
    + injection Heq as <- <-. split; [done|apply extends_refl].
    + injection Heq as <- <-. split.
      * destruct Hinv as [L A O]. by split.
      * split; [by repeat split| |done].
        intros r d Hd. exists d. split; [done|]. split; [apply same_entry_refl|done].
Qed.

Section Keeps.

Variable DIE_parse : Z -> exception + DIE.parsed.
Variable translate_indirect :
  list (string * DIE.AttributeValue) ->
  exception + list (string * DIE.AttributeValue).
Variable supplementary_dwarfinfo : bool.
Variable get_DIE_from_attribute : ref -> string -> M ref.

Lemma keeps_get_top_DIE : keeps (get_top_DIE DIE_parse translate_indirect).
Proof.
  intros w res w' Hinv Heq.
  destruct (get_top_DIE_inv DIE_parse translate_indirect w _ _ Hinv Heq)
    as (H1 & H2 & _). done.
Qed.

Lemma keeps_get_cached_DIE off :
  keeps (_get_cached_DIE DIE_parse translate_indirect off).
Proof.
  intros w res w' Hinv Heq.
  by apply (get_cached_DIE_inv DIE_parse translate_indirect w off res w').
Qed.

Lemma keeps_get_DIE_from_refaddr refaddr :
  keeps (get_DIE_from_refaddr DIE_parse translate_indirect refaddr).
Proof.
  apply keeps_bind; [apply keeps_gets|]. intros u.
  apply keeps_bind; [|intros; apply keeps_get_cached_DIE].
  unfold dwarf_assert. destruct (_ && _); [apply keeps_ret|apply keeps_raise].
Qed.

Lemma keeps_fetch_child die cur :
  keeps (fetch_child DIE_parse translate_indirect die cur).
Proof.
  apply keeps_bind; [apply keeps_get_cached_DIE|]. intros child.
  apply keeps_bind; [apply keeps_set_parent|]. intros _.
  apply keeps_bind; [apply keeps_deref|]. intros c.
  destruct (DIE.is_null c); [|apply keeps_ret].
  apply keeps_bind; [apply keeps_set_terminator|]. intros _. apply keeps_ret.
Qed.

Lemma keeps_for_in {A} next (body : ref -> M A) n :
  (forall g, keeps (next g)) -> (forall c, keeps (body c)) ->
  forall g, keeps (for_in next body n g).
Proof.
  intros Hnext Hbody. induction n as [|n IH]; intros g; simpl.
  - apply keeps_raise.
  - apply keeps_bind; [apply Hnext|]. intros [[c|] g']; [|apply keeps_ret].
    apply keeps_bind; [apply Hbody|]. intros x.
    apply keeps_bind; [apply IH|]. intros xs. apply keeps_ret.
Qed.

Lemma keeps_gen_next fuel :
  forall g, keeps (gen_next DIE_parse translate_indirect fuel g).
Proof.
  induction fuel as [|fuel IH]; intros g; [apply keeps_raise|].
  destruct g as [die|die cur child|]; cbn [gen_next].
  - apply keeps_bind; [apply keeps_deref|]. intros d.
    destruct (negb (DIE.has_children d)); [apply keeps_ret|apply keeps_fetch_child].
  - apply keeps_bind; [apply keeps_deref|]. intros c.
    apply keeps_bind; [|intros; apply keeps_fetch_child].
    destruct (negb (DIE.has_children c)); [apply keeps_ret|].
    destruct (DIE.get_attr "DW_AT_sibling" (DIE.attributes c));
      [apply keeps_sibling_offset|].
    apply keeps_bind.
    { destruct (DIE._terminator c); [apply keeps_ret|].
      unfold drain. apply keeps_bind; [|intros; apply keeps_ret].
      apply keeps_for_in; [exact IH|intros; apply keeps_ret]. }
    intros _. apply keeps_bind; [apply keeps_deref|]. intros c'.
    apply keeps_bind; [apply keeps_lift_opt|]. intros t.
    apply keeps_bind; [apply keeps_deref|]. intros td. apply keeps_ret.
  - apply keeps_ret.
Qed.

Lemma keeps_iter_DIE_children fuel die :
  keeps (iter_DIE_children DIE_parse translate_indirect fuel die).
Proof.
  apply keeps_for_in; [apply keeps_gen_next|intros; apply keeps_ret].
Qed.

Lemma keeps_iter_DIE_subtree fuel :
  (forall r name, keeps (get_DIE_from_attribute r name)) ->
  forall die, keeps (_iter_DIE_subtree DIE_parse translate_indirect
                       supplementary_dwarfinfo get_DIE_from_attribute fuel die).
Proof.
  intros Himport. induction fuel as [|fuel IH]; intros die; [apply keeps_raise|].
  cbn [_iter_DIE_subtree].
  apply keeps_bind; [apply keeps_deref|]. intros d0.
  apply keeps_bind.
  { destruct (_ && _); [apply Himport|apply keeps_ret]. }
  intros die'. apply keeps_bind; [apply keeps_deref|]. intros d.
  destruct (DIE.has_children d); [|apply keeps_ret].
  apply keeps_bind.
  { unfold for_children. apply keeps_bind; [|intros; apply keeps_ret].
    apply keeps_for_in; [apply keeps_gen_next|exact IH]. }
  intros cs. apply keeps_bind; [apply keeps_deref|]. intros d'. apply keeps_ret.
Qed.

Lemma keeps_iter_DIEs fuel :
  (forall r name, keeps (get_DIE_from_attribute r name)) ->
  keeps (iter_DIEs DIE_parse translate_indirect
                   supplementary_dwarfinfo get_DIE_from_attribute fuel).
Proof.
  intros Himport. apply keeps_bind; [apply keeps_get_top_DIE|].
  intros top. by apply keeps_iter_DIE_subtree.
Qed.

End Keeps.

(** [size] is the declared length plus the width of the length field,
    in every world, and no run changes it. *)
Lemma size_invariant w w' :
  size (tu w) = unit_length (header (tu w)) +
                initial_length_field_size (structs (tu w)) /\
  (extends w w' -> size (tu w') = size (tu w)).
Proof.
  split; [reflexivity|]. intros [(Hh & Hs & _) _ _]. unfold size. by rewrite Hh, Hs.
Qed.

(** ** Scenarios on the concrete unit *)

Lemma cache_inv_new u :
  _dielist u = [] -> _diemap u = [] -> cache_inv (new_world u).
Proof.
  intros Hl Hm. split; simpl; rewrite ?Hl, ?Hm; [done|apply ascending_nil|].
  intros i o r H. by rewrite lookup_nil in H.
Qed.

Module Scenarios.

Import Example.

(** The world after the first [get_top_DIE] on each stream. *)
Definition top_world (stream : Z -> exception + DIE.parsed) : World :=
  snd (get_top_DIE stream no_translate w0).

(** The world after the top entry and its first child were fetched. *)
Definition child_world (stream : Z -> exception + DIE.parsed) : World :=
  snd (gen_next stream no_translate 1 (GenStart 0%nat) (top_world stream)).

Definition rt_top : World := top_world round_trip.
Lemma w0_cache_inv : cache_inv w0.
Proof. by apply cache_inv_new. Qed.

(** The round trip stream: the top entry A is parsed once. *)
Lemma get_top_DIE_twice_same_object_witness :
  get_top_DIE round_trip no_translate w0 = (inr 0%nat, rt_top) /\
  (get_top_DIE round_trip no_translate rt_top = (inr 0%nat, rt_top) /\
   has_top_DIE rt_top = (inr true, rt_top) /\
   (forall (h : TU_header) (s : DWARFStructs) (tu_off tu_die_off : Z),
       has_top_DIE (new_world (TypeUnit_init h s tu_off tu_die_off)) =
         (inr false, new_world (TypeUnit_init h s tu_off tu_die_off))) /\
   (forall w : World, exists b : bool, has_top_DIE w = (inr b, w))).
Proof.
  split; [reflexivity|].
  apply (get_top_DIE_twice_same_object round_trip no_translate w0 0%nat rt_top).
  reflexivity.
Defined.

(** Looking up offset 25, the child B, in the new unit. *)
Lemma get_cached_DIE_subscript_in_bounds_witness :
  cache_inv w0 /\ top_cached w0 /\ tu_die_offset (tu w0) <= 25 /\
  get_top_DIE round_trip no_translate w0 = (inr 0%nat, rt_top) /\
  (let dm := _diemap (tu rt_top) in
   let i := bisect_right dm 25 in
   dm <> [] /\
   (forall off' : Z,
       is_Some (py_index dm (Z.of_nat (bisect_right dm off') - 1))) /\
   (1 <= i <= length dm)%nat /\
   (exists x : Z, py_index dm (Z.of_nat i - 1) = Some x /\
                  dm !! (i - 1)%nat = Some x) /\
   (top_first w0 ->
    forall (res : exception + nat) (w2 : World),
      _get_cached_DIE round_trip no_translate 25 w0 = (res, w2) ->
      _diemap (tu w2) !! 0%nat = Some (tu_die_offset (tu w2)) /\
      _dielist (tu w2) !! 0%nat = Some 0%nat)).
Proof.
  split; [exact w0_cache_inv|]. split; [by left|]. split; [simpl; lia|].
  split; [reflexivity|].
  apply (get_cached_DIE_subscript_in_bounds round_trip no_translate w0 25 0%nat rt_top).
  - exact w0_cache_inv.
  - by left.
  - simpl. lia.
  - reflexivity.
Defined.

Lemma get_cached_DIE_parse_once_witness :
  cache_inv w0 /\
  ((forall r : nat,
       cached w0 25 r ->
       _get_cached_DIE round_trip no_translate 25 w0 = (inr r, w0)) /\
   (forall (t : nat) (w1 : World) (p : DIE.parsed),
       get_top_DIE round_trip no_translate w0 = (inr t, w1) ->
       (forall j : nat, _diemap (tu w1) !! j <> Some 25) ->
       round_trip 25 = inr p ->
       exists (r : nat) (w2 : World),
         _get_cached_DIE round_trip no_translate 25 w0 = (inr r, w2) /\
         heap w1 !! r = None /\
         heap w2 !! r = Some (DIE.init 25 p) /\
         _diemap (tu w2) =
           list_insert_at (bisect_right (_diemap (tu w1)) 25) 25 (_diemap (tu w1)) /\
         _dielist (tu w2) =
           list_insert_at (bisect_right (_diemap (tu w1)) 25) r (_dielist (tu w1)) /\
         ascending (_diemap (tu w2)) /\
         cached w2 25 r /\
         (forall (o' : Z) (r' : nat), cached w1 o' r' -> cached w2 o' r') /\
         _get_cached_DIE round_trip no_translate 25 w2 = (inr r, w2))).
Proof.
  split; [exact w0_cache_inv|].
  apply (get_cached_DIE_parse_once round_trip no_translate w0 25).
  exact w0_cache_inv.
Defined.

Lemma rt_top_not_cached_30 : forall j : nat, _diemap (tu rt_top) !! j <> Some 30.
Proof. intros [|[|j]]; simpl; congruence. Qed.

(** Offset 30 holds abbreviation code 99, which has no declaration. *)
Lemma get_cached_DIE_failed_parse_witness :
  cache_inv w0 /\
  get_top_DIE round_trip no_translate w0 = (inr 0%nat, rt_top) /\
  (forall j : nat, _diemap (tu rt_top) !! j <> Some 30) /\
  round_trip 30 = inl (ParseFailure 99) /\
  (_get_cached_DIE round_trip no_translate 30 w0 = (inl (ParseFailure 99), rt_top) /\
   (_diemap (tu w0) <> [] -> rt_top = w0) /\
   (_diemap (tu w0) = [] ->
    _diemap (tu rt_top) = [tu_die_offset (tu w0)] /\
    _dielist (tu rt_top) = [0%nat])).
Proof.
  split; [exact w0_cache_inv|]. split; [reflexivity|].
  split; [exact rt_top_not_cached_30|]. split; [reflexivity|].
  apply (get_cached_DIE_failed_parse round_trip no_translate w0 30
           (ParseFailure 99) 0%nat rt_top).
  - exact w0_cache_inv.
  - reflexivity.
  - exact rt_top_not_cached_30.
  - reflexivity.
Defined.

(** C7 as stated fails: on a new unit the failed lookup of offset 30
    leaves one entry, the top entry, in a cache that was empty. *)
Lemma get_cached_DIE_failed_parse_counterexample :
  fst (_get_cached_DIE round_trip no_translate 30 w0) = inl (ParseFailure 99) /\
  length (_diemap (tu w0)) = 0%nat /\
  length (_diemap (tu (snd (_get_cached_DIE round_trip no_translate 30 w0)))) = 1%nat /\
  snd (_get_cached_DIE round_trip no_translate 30 w0) <> w0.
Proof.
  split; [reflexivity|]. split; [reflexivity|]. split; [reflexivity|].
  intros H. apply (f_equal (fun w => length (heap w))) in H. discriminate H.
Qed.

Lemma get_DIE_from_refaddr_range_witness :
  cache_inv w0 /\ top_first w0 /\
  ((forall refaddr : Z,
       refaddr < tu_die_offset (tu w0) \/
       tu_offset (tu w0) + size (tu w0) <= refaddr ->
       get_DIE_from_refaddr round_trip no_translate refaddr w0 =
         (inl (DWARFError ("refaddr " +:+ str_of_int refaddr +:+
                           " not in DIE range of CU " +:+
                           str_of_int (tu_offset (tu w0)))), w0)) /\
   get_DIE_from_refaddr round_trip no_translate (tu_die_offset (tu w0) - 1) w0 =
     (inl (DWARFError ("refaddr " +:+ str_of_int (tu_die_offset (tu w0) - 1) +:+
                       " not in DIE range of CU " +:+
                       str_of_int (tu_offset (tu w0)))), w0) /\
   (tu_die_offset (tu w0) < tu_offset (tu w0) + size (tu w0) ->
    forall (t : nat) (w1 : World),
      get_top_DIE round_trip no_translate w0 = (inr t, w1) ->
      get_DIE_from_refaddr round_trip no_translate (tu_die_offset (tu w0)) w0 =
        (inr t, w1))).
Proof.
  split; [exact w0_cache_inv|]. split; [by left|].
  apply (get_DIE_from_refaddr_range round_trip no_translate w0).
  - exact w0_cache_inv.
  - by left.
Defined.

(** A unit whose declared length ends before its top entry: 4 bytes of
    length field and a length of 0, the top entry at 23. *)
Definition short_unit : World :=
  new_world (TypeUnit_init (mkHeader 0 0 []) st 0 23).

(** C2 as stated fails twice: the error raised out of range is the
    DWARFError of [dwarf_assert], the error of malformed data and not
    one of its own kind, and on [short_unit] the top offset itself is
    refused although the top entry parses. *)
Lemma get_DIE_from_refaddr_range_counterexample :
  fst (get_DIE_from_refaddr round_trip no_translate 22 w0) =
    inl (DWARFError "refaddr 22 not in DIE range of CU 0") /\
  fst (get_DIE_from_refaddr round_trip no_translate 45 w0) =
    inl (DWARFError "refaddr 45 not in DIE range of CU 0") /\
  fst (get_top_DIE round_trip no_translate short_unit) = inr 0%nat /\
  fst (get_DIE_from_refaddr round_trip no_translate 23 short_unit) =
    inl (DWARFError "refaddr 23 not in DIE range of CU 0").
Proof. repeat split; reflexivity. Qed.

(** *** The walks *)

Lemma top_world_good stream p :
  stream 23 = inr p ->
  get_top_DIE stream no_translate w0 = (inr 0%nat, top_world stream) /\
  tree_inv stream 0 23 (top_world stream).
Proof.
  intros Hp.
  assert (E : get_top_DIE stream no_translate w0 = (inr 0%nat, top_world stream)).
  { unfold top_world. rewrite (get_top_DIE_empty stream no_translate w0 eq_refl).
    simpl. by rewrite Hp. }
  split; [exact E|].
  eapply (get_top_DIE_tree_inv stream no_translate 0 23 w0); [|done|exact E].
  by apply tree_inv_new.
Qed.

Lemma child_world_good stream dtop s :
  tree_inv stream 0 23 (top_world stream) ->
  heap (top_world stream) !! 0%nat = Some dtop ->
  DIE.has_children dtop = true -> DIE.offset dtop + DIE.size dtop = 25 ->
  encodes stream 0 23 25 s ->
  tree_inv stream 0 23 (child_world stream).
Proof.
  intros Hinv Hd Hk Hstart Henc.
  unfold child_world.
  rewrite (start_children stream no_translate _ _ dtop 0 Hd Hk), Hstart.
  destruct (fetch_child_ok stream no_translate 0 23 (top_world stream) 0%nat dtop 25 s
              Hinv Hd Henc) as (r & w' & E & Hinv' & _).
  { exists s. by rewrite Hstart. }
  by rewrite E.
Qed.

Ltac solve_encodes :=
  repeat match goal with
         | |- _ /\ _ => split
         | |- forall a, _ = Some a -> _ =>
             let H := fresh in intros ? H; simpl in H;
             first [discriminate H | injection H as <-; reflexivity]
         | |- _ <> _ => discriminate
         | |- _ = _ => reflexivity
         | |- True => exact I
         end.

(** The children list of the round trip's entry A: B, then null. *)
Definition rt_children : entries := Leaf (entry "B" false 1 []) (Null null_entry).

Definition A_obj : DIE.t :=
  DIE.mk 23 (Some "A") true 2
         [("DW_AT_language", DIE.mkAttr "DW_FORM_data1" 12)] None None.

Lemma rt_top_tree_inv : tree_inv round_trip 0 23 rt_top.
Proof. by apply (top_world_good round_trip _ eq_refl). Qed.

Lemma rt_encodes : encodes round_trip 0 23 25 rt_children.
Proof. unfold rt_children. simpl. solve_encodes. Qed.

(** The round trip of the specification, run: [iter_DIEs] yields A, B
    and the null entry that follows B; the children of A are B alone;
    the terminator of A is that null entry, at the offset where B ends. *)
Example round_trip_scenario :
  let run := iter_DIEs round_trip no_translate false no_import 4 w0 in
  fst run = inr [Some 0%nat; Some 1%nat; Some 2%nat] /\
  (DIE.tag <$> heap (snd run)) = [Some "A"; Some "B"; None] /\
  (DIE.offset <$> heap (snd run)) = [23; 25; 26] /\
  (DIE._terminator <$> heap (snd run) !! 0%nat) = Some (Some 2%nat) /\
  fst (iter_DIE_children round_trip no_translate 4 0%nat rt_top) = inr [1%nat].
Proof. repeat split; reflexivity. Qed.





(** *** The generator, step by step *)

Definition outer_obj (attrs : list (string * DIE.AttributeValue)) : DIE.t :=
  DIE.mk 25 (Some "DW_TAG_structure_type") true 6 attrs (Some 0%nat) None.

(** The children list of the inner structure, of the outer structure
    and of the top entry. *)
Definition inner_list : entries := Leaf member_entry (Null null_entry).

Definition outer_list (inner : list (string * DIE.AttributeValue)) : entries :=
  Node (struct_entry inner) inner_list (Leaf member_entry (Null null_entry)).

Definition top_list (outer inner : list (string * DIE.AttributeValue)) : entries :=
  Node (struct_entry outer) (outer_list inner) (Leaf base_entry (Null null_entry)).

Lemma shortcut_world_good :
  tree_inv with_shortcut 0 23 (child_world with_shortcut).
Proof.
  destruct (top_world_good with_shortcut _ eq_refl) as (_ & Hinv).
  eapply (child_world_good with_shortcut _
            (top_list (sibling_to "DW_FORM_ref4" 43) (sibling_to "DW_FORM_ref4" 40)));
    [exact Hinv|reflexivity|reflexivity|reflexivity|].
  simpl. solve_encodes.
Qed.

Lemma scan_world_good :
  tree_inv without_shortcut 0 23 (child_world without_shortcut).
Proof.
  destruct (top_world_good without_shortcut _ eq_refl) as (_ & Hinv).
  eapply (child_world_good without_shortcut _ (top_list no_sibling no_sibling));
    [exact Hinv|reflexivity|reflexivity|reflexivity|].
  simpl. solve_encodes.
Qed.


(** The outer structure was yielded at cursor 25; its sibling attribute
    is a DW_FORM_ref4 of value 43. *)
Lemma sibling_attribute_cursor_witness :
  heap (child_world with_shortcut) !! 1%nat =
    Some (outer_obj (sibling_to "DW_FORM_ref4" 43)) /\
  DIE.has_children (outer_obj (sibling_to "DW_FORM_ref4" 43)) = true /\
  DIE.get_attr "DW_AT_sibling"
               (DIE.attributes (outer_obj (sibling_to "DW_FORM_ref4" 43))) =
    Some (DIE.mkAttr "DW_FORM_ref4" 43) /\
  ((form_in (DIE.form (DIE.mkAttr "DW_FORM_ref4" 43)) sibling_forms = true ->
    gen_next with_shortcut no_translate 1 (GenYielded 0%nat 25 1%nat)
             (child_world with_shortcut) =
      fetch_child with_shortcut no_translate 0%nat
                  (DIE.value (DIE.mkAttr "DW_FORM_ref4" 43) +
                   tu_offset (tu (child_world with_shortcut)))
                  (child_world with_shortcut)) /\
   (DIE.form (DIE.mkAttr "DW_FORM_ref4" 43) = "DW_FORM_ref_addr" ->
    gen_next with_shortcut no_translate 1 (GenYielded 0%nat 25 1%nat)
             (child_world with_shortcut) =
      fetch_child with_shortcut no_translate 0%nat
                  (DIE.value (DIE.mkAttr "DW_FORM_ref4" 43))
                  (child_world with_shortcut)) /\
   (form_in (DIE.form (DIE.mkAttr "DW_FORM_ref4" 43))
            ("DW_FORM_ref_addr" :: sibling_forms) = false ->
    gen_next with_shortcut no_translate 1 (GenYielded 0%nat 25 1%nat)
             (child_world with_shortcut) =
      (inl (NotImplementedError
              ("sibling in form " +:+ DIE.form (DIE.mkAttr "DW_FORM_ref4" 43))),
       child_world with_shortcut))).
Proof.
  split; [reflexivity|]. split; [reflexivity|]. split; [reflexivity|].
  apply (sibling_attribute_cursor with_shortcut no_translate
           (child_world with_shortcut) 0%nat 25 1%nat
           (outer_obj (sibling_to "DW_FORM_ref4" 43))
           (DIE.mkAttr "DW_FORM_ref4" 43) 0); reflexivity.
Defined.

(** C1 as stated fails twice.  A childless child that carries a sibling
    attribute in an unrecognized form raises nothing: the attribute is
    not looked at and the iteration goes on to the null entry.  And where
    the form is looked at (the outer structure, which has children, with
    its sibling in DW_FORM_data4), what is raised is NotImplementedError,
    not the DWARFError that malformed data raises. *)
Lemma sibling_attribute_cursor_counterexample :
  (DIE.get_attr "DW_AT_sibling" <$>
     (DIE.attributes <$> heap (child_world leaf_odd_sibling) !! 1%nat)) =
    Some (Some (DIE.mkAttr "DW_FORM_data4" 30)) /\
  form_in "DW_FORM_data4" ("DW_FORM_ref_addr" :: sibling_forms) = false /\
  fst (iter_DIE_children leaf_odd_sibling no_translate 4 0%nat
                         (top_world leaf_odd_sibling)) = inr [1%nat] /\
  fst (iter_DIE_children odd_sibling_form no_translate 4 0%nat
                         (top_world odd_sibling_form)) =
    inl (NotImplementedError "sibling in form DW_FORM_data4") /\
  (forall msg,
      fst (iter_DIE_children odd_sibling_form no_translate 4 0%nat
                             (top_world odd_sibling_form)) <>
        inl (DWARFError msg)).
Proof.
  split; [reflexivity|]. split; [reflexivity|]. split; [reflexivity|].
  split; [reflexivity|]. intros msg H. discriminate H.
Qed.

(** C3, where the code breaks its invariant: the sibling attribute of
    the outer structure points at offset 5, below the top entry at 23.
    The lookup of offset 5 bisects to position 0, reads [_diemap[-1]],
    the last offset, and inserts the new entry in front of the top
    entry: the offsets still ascend and [size] is still the declared
    length plus the length field, but position 0 no longer holds the
    top entry, and [get_top_DIE] now returns the entry of offset 5. *)
Theorem stray_sibling_displaces_top_entry :
  let w1 := top_world stray_sibling in
  let w2 := snd (iter_DIE_children stray_sibling no_translate 4 0%nat w1) in
  get_top_DIE stray_sibling no_translate w0 = (inr 0%nat, w1) /\
  top_first w1 /\
  fst (iter_DIE_children stray_sibling no_translate 4 0%nat w1) = inr [1%nat] /\
  bisect_right (_diemap (tu (child_world stray_sibling))) 5 = 0%nat /\
  py_index (_diemap (tu (child_world stray_sibling))) (Z.of_nat 0 - 1) = Some 25 /\
  _diemap (tu w2) = [5; 23; 25] /\ _dielist (tu w2) = [2%nat; 0%nat; 1%nat] /\
  size (tu w2) = unit_length (header (tu w2)) +
                 initial_length_field_size (structs (tu w2)) /\
  ~ top_first w2 /\
  get_top_DIE stray_sibling no_translate w2 = (inr 2%nat, w2) /\
  (DIE.offset <$> heap w2 !! 2%nat) = Some 5 /\
  tu_die_offset (tu w2) = 23.
Proof.
  repeat split; try reflexivity.
  - by right.
  - intros [H|H]; discriminate H.
Qed.

(** *** With and without shortcuts *)

Definition shortcut_obj : DIE.t := outer_obj (sibling_to "DW_FORM_ref4" 43).
Definition scan_obj : DIE.t := outer_obj no_sibling.
Definition shortcut_list : entries := outer_list (sibling_to "DW_FORM_ref4" 40).
Definition scan_list : entries := outer_list no_sibling.

(** The outer structure of the two streams, its children listed and its
    subtree walked with the shortcuts and without them. *)
Lemma sibling_shortcut_equivalence_witness :
  tree_inv with_shortcut 0 23 (child_world with_shortcut) /\
  tree_inv without_shortcut 0 23 (child_world without_shortcut) /\
  heap (child_world with_shortcut) !! 1%nat = Some shortcut_obj /\
  heap (child_world without_shortcut) !! 1%nat = Some scan_obj /\
  DIE.has_children shortcut_obj = true /\ DIE.has_children scan_obj = true /\
  DIE.offset shortcut_obj = DIE.offset scan_obj /\
  DIE.size shortcut_obj = DIE.size scan_obj /\
  encodes with_shortcut 0 23
          (DIE.offset shortcut_obj + DIE.size shortcut_obj) shortcut_list /\
  encodes without_shortcut 0 23
          (DIE.offset scan_obj + DIE.size scan_obj) scan_list /\
  same_layout shortcut_list scan_list /\
  (need shortcut_list <= 5)%nat /\
  ((forall a,
       DIE.get_attr "DW_AT_sibling" (DIE.attributes shortcut_obj) = Some a ->
       resolve_sibling 0 a =
         Some (span (DIE.offset shortcut_obj + DIE.size shortcut_obj) shortcut_list) ->
       exists cursor,
         sibling_offset a (child_world with_shortcut) =
           (inr cursor, child_world with_shortcut) /\
         ok (drain (gen_next with_shortcut no_translate 5) 5 (GenStart 1%nat))
            (child_world with_shortcut)
            (fun _ w' =>
               exists d' t td,
                 heap w' !! 1%nat = Some d' /\ DIE._terminator d' = Some t /\
                 heap w' !! t = Some td /\
                 DIE.offset td + DIE.size td = cursor)) /\
   (ok (iter_DIE_children with_shortcut no_translate 5 1%nat)
       (child_world with_shortcut)
       (fun l w' =>
          refs_at w' l (child_offsets (DIE.offset shortcut_obj + DIE.size shortcut_obj)
                                      shortcut_list)) /\
    ok (iter_DIE_children without_shortcut no_translate 5 1%nat)
       (child_world without_shortcut)
       (fun l w' =>
          refs_at w' l (child_offsets (DIE.offset shortcut_obj + DIE.size shortcut_obj)
                                      shortcut_list))) /\
   (plain_tag false (DIE.tag shortcut_obj) -> all_plain false shortcut_list ->
    plain_tag false (DIE.tag scan_obj) -> all_plain false scan_list ->
    ok (_iter_DIE_subtree with_shortcut no_translate false no_import 6 1%nat)
       (child_world with_shortcut)
       (fun x w' =>
          yielded_at w' x
            (DIE.offset shortcut_obj ::
             walk (DIE.offset shortcut_obj + DIE.size shortcut_obj) shortcut_list)) /\
    ok (_iter_DIE_subtree without_shortcut no_translate false no_import 6 1%nat)
       (child_world without_shortcut)
       (fun x w' =>
          yielded_at w' x
            (DIE.offset shortcut_obj ::
             walk (DIE.offset shortcut_obj + DIE.size shortcut_obj) shortcut_list)))).
Proof.
  assert (E1 : encodes with_shortcut 0 23
                 (DIE.offset shortcut_obj + DIE.size shortcut_obj) shortcut_list)
    by (simpl; solve_encodes).
  assert (E2 : encodes without_shortcut 0 23
                 (DIE.offset scan_obj + DIE.size scan_obj) scan_list)
    by (simpl; solve_encodes).
  assert (L : same_layout shortcut_list scan_list) by (simpl; solve_encodes).
  assert (N : (need shortcut_list <= 5)%nat) by (simpl; lia).
  split; [exact shortcut_world_good|]. split; [exact scan_world_good|].
  split; [reflexivity|]. split; [reflexivity|].
  split; [reflexivity|]. split; [reflexivity|].
  split; [reflexivity|]. split; [reflexivity|].
  split; [exact E1|]. split; [exact E2|]. split; [exact L|]. split; [exact N|].
  apply (sibling_shortcut_equivalence
           with_shortcut without_shortcut no_translate no_translate
           false no_import 0 23
           (child_world with_shortcut) (child_world without_shortcut)
           1%nat 1%nat shortcut_obj scan_obj shortcut_list scan_list 5).
  - exact shortcut_world_good.
  - exact scan_world_good.
  - reflexivity.
  - reflexivity.
  - reflexivity.
  - reflexivity.
  - reflexivity.
  - reflexivity.
  - exact E1.
  - exact E2.
  - exact L.
  - exact N.
Defined.

(** The two encodings, run: the children of the top entry and the whole
    unit come out at the same offsets, and the direct children listing
    with shortcuts never parses the entries the shortcuts skip. *)
Example shortcut_regression :
  let offsets (run : (exception + list (option ref)) * World) :=
    match fst run with
    | inr l => Some ((fun y => match y with
                               | Some r => DIE.offset <$> heap (snd run) !! r
                               | None => None
                               end) <$> l)
    | inl _ => None
    end in
  offsets (iter_DIEs with_shortcut no_translate false no_import 10 w0) =
    Some (Some <$> [23; 25; 31; 37; 39; 40; 42; 43; 44]) /\
  offsets (iter_DIEs without_shortcut no_translate false no_import 10 w0) =
    Some (Some <$> [23; 25; 31; 37; 39; 40; 42; 43; 44]) /\
  _diemap (tu (snd (iter_DIE_children with_shortcut no_translate 10 0%nat
                                      (top_world with_shortcut)))) =
    [23; 25; 43; 44] /\
  _diemap (tu (snd (iter_DIE_children without_shortcut no_translate 10 0%nat
                                      (top_world without_shortcut)))) =
    [23; 25; 31; 37; 39; 40; 42; 43; 44] /\
  fst (iter_DIE_children with_shortcut no_translate 10 0%nat
                         (top_world with_shortcut)) = inr [1%nat; 2%nat] /\
  fst (iter_DIE_children without_shortcut no_translate 10 0%nat
                         (top_world without_shortcut)) = inr [1%nat; 7%nat].
Proof. repeat split; reflexivity. Qed.

End Scenarios.

(** ** The states a client can reach

    A client calls the methods of a unit in any order and with any
    arguments, resumes a children generator as far as it likes, and may
    go on after an exception with the unit as the failed call left it. *)

Inductive call : Type :=
| call_get_abbrev_table
| call_get_top_DIE
| call_has_top_DIE
| call_iter_DIEs (fuel : nat)
| call_iter_DIE_children (fuel : nat) (die : ref)
| call_next (fuel : nat) (g : children_gen)
| call_get_DIE_from_refaddr (refaddr : Z)
| call_iter_DIE_subtree (fuel : nat) (die : ref)
| call_get_cached_DIE (offset : Z).

Section Calls.

Variable DIE_parse : Z -> exception + DIE.parsed.
Variable translate_indirect :
  list (string * DIE.AttributeValue) ->
  exception + list (string * DIE.AttributeValue).
Variable supplementary_dwarfinfo : bool.
Variable get_DIE_from_attribute : ref -> string -> M ref.
Variable dwarfinfo_get_abbrev_table : Z -> exception + Z.

Abbreviation get_top := (get_top_DIE DIE_parse translate_indirect).
Abbreviation get_cached := (_get_cached_DIE DIE_parse translate_indirect).
Abbreviation from_refaddr := (get_DIE_from_refaddr DIE_parse translate_indirect).

(** The world a call leaves behind, whether it returned or raised. *)
Definition after (c : call) (w : World) : World :=
  match c with
  | call_get_abbrev_table => snd (get_abbrev_table dwarfinfo_get_abbrev_table w)
  | call_get_top_DIE => snd (get_top w)
  | call_has_top_DIE => snd (has_top_DIE w)
  | call_iter_DIEs fuel =>
      snd (iter_DIEs DIE_parse translate_indirect supplementary_dwarfinfo
                     get_DIE_from_attribute fuel w)
  | call_iter_DIE_children fuel die =>
      snd (iter_DIE_children DIE_parse translate_indirect fuel die w)
  | call_next fuel g => snd (gen_next DIE_parse translate_indirect fuel g w)
  | call_get_DIE_from_refaddr refaddr => snd (from_refaddr refaddr w)
  | call_iter_DIE_subtree fuel die =>
      snd (_iter_DIE_subtree DIE_parse translate_indirect supplementary_dwarfinfo
                             get_DIE_from_attribute fuel die w)
  | call_get_cached_DIE offset => snd (get_cached offset w)
  end.

Definition after_all (cs : list call) (w : World) : World :=
  foldl (fun w c => after c w) w cs.

Lemma keeps_snd {A} (m : M A) w :
  keeps m -> cache_inv w -> cache_inv (snd (m w)) /\ extends w (snd (m w)).
Proof. intros Hk Hinv. exact (Hk w _ _ Hinv (surjective_pairing _)). Qed.

Hypothesis import_keeps : forall r name, keeps (get_DIE_from_attribute r name).

Lemma after_keeps c w :
  cache_inv w -> cache_inv (after c w) /\ extends w (after c w).
Proof.
  intros Hinv. destruct c; cbn [after]; apply keeps_snd; try done.
  - apply keeps_get_abbrev_table.
  - apply keeps_get_top_DIE.
  - apply keeps_has_top_DIE.
  - by apply keeps_iter_DIEs.
  - apply keeps_iter_DIE_children.
  - apply keeps_gen_next.
  - apply keeps_get_DIE_from_refaddr.
  - by apply keeps_iter_DIE_subtree.
  - apply keeps_get_cached_DIE.
Qed.

Lemma after_all_keeps cs : forall w,
  cache_inv w -> cache_inv (after_all cs w) /\ extends w (after_all cs w).
Proof.
  induction cs as [|c cs IH]; intros w Hinv; simpl.
  - split; [done|apply extends_refl].
  - destruct (after_keeps c w Hinv) as (H1 & E1).
    destruct (IH _ H1) as (H2 & E2). split; [done|]. eapply extends_trans; eauto.
Qed.

(** What the cached lookup returns is cached under the offset asked for. *)
Lemma get_cached_DIE_cached w off r w' :
  cache_inv w -> get_cached off w = (inr r, w') -> cached w' off r.
Proof.
  intros Hinv Heq.
  rewrite (get_cached_DIE_unfold DIE_parse translate_indirect w off Hinv) in Heq.
  destruct (get_top w) as [[e|t] w1] eqn:Htop; [done|].
  destruct (get_top_DIE_inv DIE_parse translate_indirect w _ _ Hinv Htop)
    as (Hinv1 & _ & _ & _ & Hr).
  destruct (Hr t eq_refl) as (Hne & _).
  pose proof (get_cached_DIE_outcome DIE_parse translate_indirect w1 off Hinv1 Hne)
    as Hout.
  rewrite Heq in Hout.
  inversion Hout as [r' Hhit|e Hnew Hp|p Hnew Hp]; subst; [done|].
  pose proof (inv_asc w1 Hinv1) as A.
  destruct (bisect_right_spec _ off A) as (Hi & _).
  by apply cached_alloc_insert_new.
Qed.

(** X1: in every state a client can reach from a new unit, by any calls
    in any order, returned or raised, the two lists of the cache have the
    same length, the offsets ascend strictly (so no offset is cached
    twice), every cached object carries the offset it is filed under, and
    [size], the base offset, the top offset, the format and the header
    entries read through the unit are the ones it was built with. *)
Theorem reachable_cache_sorted (cs : list call) h s tu_off tu_die_off :
  let w := after_all cs (new_world (TypeUnit_init h s tu_off tu_die_off)) in
  length (_dielist (tu w)) = length (_diemap (tu w)) /\
  ascending (_diemap (tu w)) /\
  (forall i o r, _diemap (tu w) !! i = Some o -> _dielist (tu w) !! i = Some r ->
     exists d, heap w !! r = Some d /\ DIE.offset d = o) /\
  size (tu w) = unit_length h + initial_length_field_size s /\
  cu_offset (tu w) = tu_off /\ cu_die_offset (tu w) = tu_die_off /\
  dwarf_format (tu w) = dwarf_format_ s /\
  getitem (tu w) "unit_length" = Some (unit_length h) /\
  getitem (tu w) "debug_abbrev_offset" = Some (debug_abbrev_offset h).
Proof.
  intros w.
  destruct (after_all_keeps cs (new_world (TypeUnit_init h s tu_off tu_die_off)))
    as ([L A O] & [(Hh & Hs & Hb & Ht) _ _]).
  { by apply cache_inv_new. }
  fold w in L, A, O, Hh, Hs, Hb, Ht. simpl in Hh, Hs, Hb, Ht.
  split; [done|]. split; [done|]. split; [done|].
  unfold size, cu_offset, cu_die_offset, dwarf_format, getitem.
  rewrite <- Hh, <- Hs. done.
Qed.

(** X2: a DIE obtained by [get_DIE_from_refaddr] lies inside the unit
    and carries the offset asked for, and whatever the client calls
    afterwards, asking for that offset again gives the very same object
    and changes nothing: no call evicts or replaces a cached DIE. *)
Theorem refaddr_object_stable (cs : list call) w refaddr r w1 :
  cache_inv w ->
  from_refaddr refaddr w = (inr r, w1) ->
  let w2 := after_all cs w1 in
  from_refaddr refaddr w2 = (inr r, w2) /\
  (exists d, heap w2 !! r = Some d /\ DIE.offset d = refaddr) /\
  cu_die_offset (tu w) <= refaddr < cu_offset (tu w) + size (tu w).
Proof.
  intros Hinv Heq w2.
  unfold get_DIE_from_refaddr, bind, gets, dwarf_assert in Heq.
  destruct ((cu_die_offset (tu w) <=? refaddr) &&
            (refaddr <? cu_offset (tu w) + size (tu w))) eqn:Hrange;
    [|done].
  simpl in Heq.
  pose proof (get_cached_DIE_cached w refaddr r w1 Hinv Heq) as Hc1.
  destruct (keeps_get_cached_DIE DIE_parse translate_indirect refaddr w _ _ Hinv Heq)
    as (Hinv1 & Hext1).
  destruct (after_all_keeps cs w1 Hinv1) as (Hinv2 & Hext2). fold w2 in Hinv2, Hext2.
  pose proof (ext_cached _ _ Hext2 _ _ Hc1) as Hc2.
  assert (Hu : same_unit w w2).
  { destruct (extends_trans _ _ _ Hext1 Hext2) as [U _ _]. exact U. }
  destruct Hu as (Hh & Hs & Hb & Ht).
  split; [|split].
  - unfold get_DIE_from_refaddr, bind, gets, dwarf_assert.
    unfold cu_die_offset, cu_offset, size in *.
    rewrite <- Hh, <- Hs, <- Hb, <- Ht, Hrange. simpl.
    by apply get_cached_DIE_hit.
  - by apply cached_offset.
  - apply andb_true_iff in Hrange as [H1 H2]. lia.
Qed.

End Calls.

(** ** When the top entry fails, and when an offset lies below it *)

Section TopFailures.

Variable DIE_parse : Z -> exception + DIE.parsed.
Variable translate_indirect :
  list (string * DIE.AttributeValue) ->
  exception + list (string * DIE.AttributeValue).
Variable supplementary_dwarfinfo : bool.
Variable get_DIE_from_attribute : ref -> string -> M ref.

Abbreviation get_top := (get_top_DIE DIE_parse translate_indirect).
Abbreviation get_cached := (_get_cached_DIE DIE_parse translate_indirect).
Abbreviation from_refaddr := (get_DIE_from_refaddr DIE_parse translate_indirect).

(** The call raised [e] and left nothing in the cache of the unit, whose
    top offset is the one it had. *)
Definition refused {A} (e : exception) (top : Z)
           (r : (exception + A) * World) : Prop :=
  fst r = inl e /\
  _diemap (tu (snd r)) = [] /\ _dielist (tu (snd r)) = [] /\
  tu_die_offset (tu (snd r)) = top /\
  fst (has_top_DIE (snd r)) = inr false.

(** X3: while the constructor of the top DIE raises, the unit serves
    nothing and caches nothing: from a state with an empty cache,
    [get_top_DIE], every cached lookup, every reference inside the unit
    and [iter_DIEs] raise that same error, whatever offset was asked
    for, and leave both lists of the cache empty, so that [has_top_DIE]
    is still false and the next call, in the state reached, fails in the
    same way. *)
Theorem top_parse_failure_serves_nothing w e :
  _diemap (tu w) = [] -> _dielist (tu w) = [] ->
  DIE_parse (tu_die_offset (tu w)) = inl e ->
  refused e (tu_die_offset (tu w)) (get_top w) /\
  (forall off, refused e (tu_die_offset (tu w)) (get_cached off w)) /\
  (forall refaddr,
      cu_die_offset (tu w) <= refaddr < cu_offset (tu w) + size (tu w) ->
      refused e (tu_die_offset (tu w)) (from_refaddr refaddr w)) /\
  (forall fuel,
      refused e (tu_die_offset (tu w))
        (iter_DIEs DIE_parse translate_indirect supplementary_dwarfinfo
                   get_DIE_from_attribute fuel w)).
Proof.
  intros Hnil Hl Hp.
  assert (Hw : forall A, refused (A := A) e (tu_die_offset (tu w)) (inl e, w)).
  { intros A. split; [done|]. split; [done|]. split; [done|]. split; [done|].
    unfold has_top_DIE, bind, gets. simpl. by rewrite Hnil. }
  assert (Htop : get_top w = (inl e, w)).
  { rewrite (get_top_DIE_empty _ _ w Hnil). by rewrite Hp. }
  assert (Hc : forall off, get_cached off w = (inl e, w)).
  { intros off. unfold _get_cached_DIE, bind. by rewrite Htop. }
  split; [rewrite Htop; apply Hw|]. split; [|split].
  - intros off. rewrite Hc. apply Hw.
  - intros refaddr [H1 H2].
    unfold get_DIE_from_refaddr, bind, gets, dwarf_assert.
    destruct (Z.leb_spec (cu_die_offset (tu w)) refaddr); [|lia].
    destruct (Z.ltb_spec refaddr (cu_offset (tu w) + size (tu w))); [|lia].
    simpl. rewrite Hc. apply Hw.
  - intros fuel. unfold iter_DIEs, bind. rewrite Htop. apply Hw.
Qed.

(** X4: the top DIE enters the cache before its indirect attributes are
    translated.  When the translation raises, [get_top_DIE] raises, but
    the entry stays cached as the constructor left it: [has_top_DIE] is
    true, and the next [get_top_DIE] returns that object without an
    error and without translating again. *)
Theorem top_translation_failure_stays_cached w p e :
  cache_inv w -> _diemap (tu w) = [] ->
  DIE_parse (tu_die_offset (tu w)) = inr p ->
  translate_indirect (DIE.p_attributes p) = inl e ->
  exists w1,
    get_top w = (inl e, w1) /\
    has_top_DIE w1 = (inr true, w1) /\
    get_top w1 = (inr (length (heap w)), w1) /\
    heap w1 !! length (heap w) = Some (DIE.init (tu_die_offset (tu w)) p) /\
    _diemap (tu w1) = [tu_die_offset (tu w)] /\
    _dielist (tu w1) = [length (heap w)].
Proof.
  intros Hinv Hnil Hp Ht.
  pose proof (inv_len w Hinv) as L. rewrite Hnil in L.
  assert (Hl : _dielist (tu w) = []) by (by destruct (_dielist (tu w))).
  exists (alloc_insert w 0 (tu_die_offset (tu w)) p).
  split; [|split; [|split; [|split; [|split]]]].
  - rewrite (get_top_DIE_empty _ _ w Hnil). by rewrite Hp, Ht.
  - reflexivity.
  - reflexivity.
  - apply heap_alloc_insert_new.
  - simpl. by rewrite Hnil.
  - simpl. by rewrite Hl.
Qed.

(** X5: a cached lookup of an offset below the top offset, in a cache
    that holds the top entry first, bisects to position 0, reads the
    subscript [-1] (the last offset), finds no match and inserts the new
    DIE in front: from then on [get_top_DIE] returns that DIE, not the
    top entry. *)
Theorem lookup_below_top_goes_in_front w off p :
  cache_inv w -> _diemap (tu w) <> [] -> top_first w ->
  off < tu_die_offset (tu w) ->
  DIE_parse off = inr p ->
  let r := length (heap w) in
  exists w',
    get_cached off w = (inr r, w') /\
    bisect_right (_diemap (tu w)) off = 0%nat /\
    py_index (_diemap (tu w)) (Z.of_nat 0 - 1) = last (_diemap (tu w)) /\
    _diemap (tu w') = off :: _diemap (tu w) /\
    _dielist (tu w') = r :: _dielist (tu w) /\
    heap w' !! r = Some (DIE.init off p) /\
    get_top w' = (inr r, w') /\
    tu_die_offset (tu w') = tu_die_offset (tu w) /\
    ~ top_first w'.
Proof.
  intros Hinv Hne [Htf|Htf] Hlt Hp r; [done|].
  pose proof (inv_asc w Hinv) as A.
  destruct (bisect_right_spec _ off A) as (Hi & Hle & Hgt).
  assert (H0 : bisect_right (_diemap (tu w)) off = 0%nat).
  { destruct (bisect_right (_diemap (tu w)) off) as [|k] eqn:E; [done|].
    specialize (Hle 0%nat _ (Nat.lt_0_succ _) Htf). lia. }
  pose proof (get_cached_DIE_outcome DIE_parse translate_indirect w off Hinv Hne)
    as Hout.
  inversion Hout as [r' (i & Hi' & _) E|e' Hnew Hp' E|p' Hnew Hp' E].
  - rewrite H0 in Hgt. specialize (Hgt i off (Nat.le_0_l _) Hi'). lia.
  - congruence.
  - assert (p' = p) by congruence. subst p'. rewrite H0.
    exists (alloc_insert w 0 off p).
    split; [done|]. split; [done|].
    split; [apply py_index_minus_one|].
    split; [done|]. split; [done|].
    split; [apply heap_alloc_insert_new|].
    split; [done|]. split; [done|].
    intros [Hn|Hn]; simpl in Hn; [done|]. injection Hn as Hn. lia.
Qed.

End TopFailures.

(** X6: [get_abbrev_table] asks the context once.  After a call that
    returned, the table is kept: every later call returns it without
    consulting the context, whatever the context would answer now; the
    table was asked under the header entry [debug_abbrev_offset]; the DIE
    cache and the objects are not touched.  A call in which the context
    raises keeps nothing, so that the next call asks again. *)
Theorem get_abbrev_table_asks_once ctx w a w1 :
  get_abbrev_table ctx w = (inr a, w1) ->
  (forall ctx', get_abbrev_table ctx' w1 = (inr a, w1)) /\
  _abbrev_table (tu w1) = Some a /\
  (_abbrev_table (tu w) = None ->
   exists off, getitem (tu w) "debug_abbrev_offset" = Some off /\
               ctx off = inr a) /\
  _dielist (tu w1) = _dielist (tu w) /\ _diemap (tu w1) = _diemap (tu w) /\
  heap w1 = heap w /\
  (forall w0 ctx0 e,
      _abbrev_table (tu w0) = None ->
      ctx0 (debug_abbrev_offset (header (tu w0))) = inl e ->
      get_abbrev_table ctx0 w0 = (inl e, w0)).
Proof.
  intros Heq. unfold get_abbrev_table, bind, gets in Heq.
  assert (Hfail : forall w0 ctx0 e,
            _abbrev_table (tu w0) = None ->
            ctx0 (debug_abbrev_offset (header (tu w0))) = inl e ->
            get_abbrev_table ctx0 w0 = (inl e, w0)).
  { intros w0 ctx0 e Hn He. unfold get_abbrev_table, bind, gets.
    by rewrite Hn, He. }
  destruct (_abbrev_table (tu w)) as [a0|] eqn:Ht.
  - injection Heq as <- <-.
    split; [|by repeat split].
    intros ctx'. unfold get_abbrev_table, bind, gets. by rewrite Ht.
  - destruct (ctx (debug_abbrev_offset (header (tu w)))) as [e|a1] eqn:Hc;
      simpl in Heq; [done|].
    injection Heq as <- <-.
    split; [intros ctx'; reflexivity|]. split; [done|].
    split; [intros _; by exists (debug_abbrev_offset (header (tu w)))|].
    by repeat split.
Qed.

(** ** Iteration over any stream

    What the iteration guarantees whenever it returns, with nothing
    assumed about what the stream holds. *)

Lemma bind_inr {A B} (m : M A) (k : A -> M B) w b w' :
  bind m k w = (inr b, w') ->
  exists a w1, m w = (inr a, w1) /\ k a w1 = (inr b, w').
Proof. unfold bind. destruct (m w) as [[e|a] w1]; [done|eauto]. Qed.

Lemma deref_inr r w d w' :
  deref r w = (inr d, w') -> heap w !! r = Some d /\ w' = w.
Proof.
  unfold deref. destruct (heap w !! r) as [d0|]; simpl; [|done].
  by intros [= <- <-].
Qed.

Lemma update_inr r f w w' :
  update r f w = (inr tt, w') ->
  exists d, heap w !! r = Some d /\ w' = set_obj w r (f d).
Proof.
  intros H. apply bind_inr in H as (d & w1 & Hd & Hm).
  apply deref_inr in Hd as [Hd ->]. injection Hm as <-. eauto.
Qed.

(** The generator of [die] has stopped on a null DIE: that DIE is the
    recorded terminator of [die] and has [die] as its parent. *)
Definition terminated (w : World) (die : ref) : Prop :=
  exists dd t td,
    heap w !! die = Some dd /\ DIE._terminator dd = Some t /\
    heap w !! t = Some td /\ DIE.is_null td = true /\ DIE._parent td = Some die.

(** What one resumption of the generator of [die] gives when it returns:
    the end, with the terminator recorded, or a child that is not null,
    whose parent is [die]. *)
Definition stops_or_yields (die : ref) (r : option ref * children_gen)
           (w : World) : Prop :=
  (r = (None, GenDone) /\ terminated w die) \/
  (exists cur c cd, r = (Some c, GenYielded die cur c) /\
                    heap w !! c = Some cd /\ DIE.is_null cd = false /\
                    DIE._parent cd = Some die).

Section AnyStream.

Variable DIE_parse : Z -> exception + DIE.parsed.
Variable translate_indirect :
  list (string * DIE.AttributeValue) ->
  exception + list (string * DIE.AttributeValue).
Variable supplementary_dwarfinfo : bool.
Variable get_DIE_from_attribute : ref -> string -> M ref.

Abbreviation fetch := (fetch_child DIE_parse translate_indirect).
Abbreviation next_child := (gen_next DIE_parse translate_indirect).
Abbreviation subtree :=
  (_iter_DIE_subtree DIE_parse translate_indirect supplementary_dwarfinfo
                     get_DIE_from_attribute).

Lemma fetch_child_inr die cur w r w' :
  fetch die cur w = (inr r, w') -> stops_or_yields die r w'.
Proof.
  intros H. unfold fetch_child in H.
  apply bind_inr in H as (c & w1 & _ & H).
  apply bind_inr in H as ([] & w2 & Hp & H).
  apply update_inr in Hp as (cd & Hcd & ->).
  apply bind_inr in H as (cd' & w3 & Hd & H).
  apply deref_inr in Hd as [Hd ->].
  rewrite (heap_set_obj_eq _ _ _ _ Hcd) in Hd. injection Hd as <-.
  destruct (DIE.is_null (DIE.with_parent cd die)) eqn:Hn.
  - apply bind_inr in H as ([] & w4 & Ht & H). injection H as <- <-.
    apply update_inr in Ht as (dd & Hdd & ->).
    left. split; [done|].
    exists (DIE.with_terminator dd c), c.
    destruct (decide (c = die)) as [->|Hne].
    + exists (DIE.with_terminator dd die).
      rewrite (heap_set_obj_eq _ _ _ _ Hdd).
      rewrite (heap_set_obj_eq _ _ _ _ Hcd) in Hdd. injection Hdd as <-.
      by repeat split.
    + exists (DIE.with_parent cd die).
      split; [by eapply heap_set_obj_eq|]. split; [done|].
      split; [|by split].
      simpl. rewrite list_lookup_insert_ne by done.
      apply list_lookup_insert_eq. eapply lookup_lt_Some; eauto.
  - injection H as <- <-. right.
    exists cur, c, (DIE.with_parent cd die).
    split; [done|]. split; [by eapply heap_set_obj_eq|]. by split.
Qed.

Lemma gen_next_inr f g w r w' :
  next_child f g w = (inr r, w') ->
  match g with
  | GenStart die =>
      (exists d, heap w !! die = Some d /\ DIE.has_children d = false /\
                 r = (None, GenDone) /\ w' = w) \/
      stops_or_yields die r w'
  | GenYielded die _ _ => stops_or_yields die r w'
  | GenDone => r = (None, GenDone) /\ w' = w
  end.
Proof.
  destruct f as [|f]; [done|]. destruct g as [die|die cur child|]; cbn [gen_next].
  - intros H. apply bind_inr in H as (d & w1 & Hd & H).
    apply deref_inr in Hd as [Hd ->].
    destruct (DIE.has_children d) eqn:Hk; simpl in H.
    + right. by eapply fetch_child_inr.
    + injection H as <- <-. left. by exists d.
  - intros H. apply bind_inr in H as (c & w1 & _ & H).
    apply bind_inr in H as (cur' & w2 & _ & H).
    by eapply fetch_child_inr.
  - by intros [= <- <-].
Qed.

(** The generator [g] belongs to [die] and, if it has not started, [die]
    has children. *)
Definition runs_for (w : World) (die : ref) (g : children_gen) : Prop :=
  match g with
  | GenStart d => d = die /\ exists dd, heap w !! die = Some dd /\
                                        DIE.has_children dd = true
  | GenYielded d _ _ => d = die
  | GenDone => False
  end.

(** A loop over the children that runs to its end leaves the terminator
    recorded, whatever the bodies did. *)
Lemma for_in_terminated {A} (body : ref -> M A) f n : forall g w xs w' die,
  for_in (next_child f) body n g w = (inr xs, w') ->
  runs_for w die g -> terminated w' die.
Proof.
  induction n as [|n IH]; intros g w xs w' die H Hg; [done|].
  cbn [for_in] in H. apply bind_inr in H as (r & w1 & Hnext & H).
  apply gen_next_inr in Hnext.
  assert (Hs : stops_or_yields die r w1).
  { destruct g as [d|d cur c|]; simpl in Hg.
    - destruct Hg as (-> & dd & Hdd & Hk).
      destruct Hnext as [(d0 & Hd0 & Hk0 & _)|Hs]; [congruence|done].
    - by subst d.
    - done. }
  destruct Hs as [(-> & Ht)|(cur & c & cd & -> & _)].
  - by injection H as _ <-.
  - apply bind_inr in H as (x & w2 & _ & H).
    apply bind_inr in H as (xs' & w3 & Hrest & H). injection H as _ <-.
    by apply (IH _ _ _ _ die Hrest).
Qed.

(** What the bodies of a loop returned. *)
Lemma for_in_results {A} (P : A -> Prop) next (body : ref -> M A) n :
  (forall c w x w', body c w = (inr x, w') -> P x) ->
  forall g w xs w', for_in next body n g w = (inr xs, w') -> Forall P xs.
Proof.
  intros Hb. induction n as [|n IH]; intros g w xs w' H; [done|].
  cbn [for_in] in H. apply bind_inr in H as ([[c|] g'] & w1 & _ & H).
  - apply bind_inr in H as (x & w2 & Hx & H).
    apply bind_inr in H as (xs' & w3 & Hrest & H). injection H as <- <-.
    constructor; [by eapply Hb|by eapply IH].
  - injection H as <- <-. constructor.
Qed.

(** The children listed are DIEs that are not null. *)
Lemma for_in_yields_nonnull f n : forall g w l w',
  cache_inv w ->
  for_in (next_child f) (fun c => ret c) n g w = (inr l, w') ->
  Forall (fun c => exists cd, heap w' !! c = Some cd /\ DIE.is_null cd = false) l.
Proof.
  induction n as [|n IH]; intros g w l w' Hinv H; [done|].
  cbn [for_in] in H. apply bind_inr in H as (r & w1 & Hnext & H).
  destruct (keeps_gen_next DIE_parse translate_indirect f g w _ _ Hinv Hnext)
    as (Hinv1 & _).
  apply gen_next_inr in Hnext.
  destruct r as [[c|] g'].
  - apply bind_inr in H as (x & w2 & Hx & H). injection Hx as <- <-.
    apply bind_inr in H as (l' & w3 & Hrest & H). injection H as <- <-.
    constructor; [|by eapply IH].
    assert (Hc : exists cd, heap w1 !! c = Some cd /\ DIE.is_null cd = false).
    { assert (Hs : forall die, stops_or_yields die (Some c, g') w1 ->
                exists cd, heap w1 !! c = Some cd /\ DIE.is_null cd = false).
      { intros die [(E & _)|(cur & c0 & cd & E & Hcd & Hn & _)]; [done|].
        injection E as -> _. eauto. }
      destruct g as [d|d cur0 c0|].
      - destruct Hnext as [(d0 & _ & _ & E & _)|Hs']; [done|by eapply Hs].
      - by eapply Hs.
      - by destruct Hnext. }
    destruct Hc as (cd & Hcd & Hn).
    assert (Hk : keeps (for_in (next_child f) (fun c => ret c) n g')).
    { apply keeps_for_in; [apply keeps_gen_next|intros; apply keeps_ret]. }
    destruct (Hk w1 _ _ Hinv1 Hrest) as (_ & Hext).
    destruct (ext_heap _ _ Hext c cd Hcd) as (cd' & Hcd' & (_ & Ht & _) & _).
    exists cd'. split; [done|]. unfold DIE.is_null in *. by rewrite <- Ht.
  - injection H as <- <-. constructor.
Qed.

(** X7: whenever [list(iter_DIE_children(die))] returns for a DIE with
    children, whatever the stream holds, the terminator of [die] has been
    saved, it is a null DIE whose parent is [die], and none of the
    children listed is null. *)
Theorem iter_DIE_children_saves_terminator w die dd fuel l w' :
  cache_inv w ->
  heap w !! die = Some dd -> DIE.has_children dd = true ->
  iter_DIE_children DIE_parse translate_indirect fuel die w = (inr l, w') ->
  (exists dd' t td,
      heap w' !! die = Some dd' /\ DIE._terminator dd' = Some t /\
      heap w' !! t = Some td /\ DIE.is_null td = true /\
      DIE._parent td = Some die) /\
  Forall (fun c => exists cd, heap w' !! c = Some cd /\ DIE.is_null cd = false) l.
Proof.
  intros Hinv Hdd Hk H. unfold iter_DIE_children, collect in H. split.
  - apply (for_in_terminated _ _ _ _ _ _ _ die H). simpl. eauto.
  - by apply (for_in_yields_nonnull _ _ _ _ _ _ Hinv H).
Qed.

(** The shape of what a subtree walk returns. *)
Definition walk_shape (w : World) (xs : list (option ref)) : Prop :=
  (exists r, xs = [Some r]) \/
  (exists r mid t td, xs = Some r :: mid ++ [Some t] /\
                      heap w !! t = Some td /\ DIE.is_null td = true).

Lemma subtree_returns fuel : forall die w xs w',
  subtree fuel die w = (inr xs, w') ->
  Forall is_Some xs /\ walk_shape w' xs.
Proof.
  induction fuel as [|fuel IH]; intros die w xs w' H; [done|].
  cbn [_iter_DIE_subtree] in H.
  apply bind_inr in H as (d0 & w1 & _ & H).
  apply bind_inr in H as (die' & w2 & _ & H).
  apply bind_inr in H as (d & w3 & Hd & H).
  apply deref_inr in Hd as [Hd ->].
  destruct (DIE.has_children d) eqn:Hk.
  - apply bind_inr in H as (cs & w4 & Hcs & H).
    apply bind_inr in H as (d' & w5 & Hd' & H).
    apply deref_inr in Hd' as [Hd' ->]. injection H as <- <-.
    unfold for_children in Hcs.
    apply bind_inr in Hcs as (xss & w6 & Hloop & Hcs). injection Hcs as <- <-.
    pose proof (for_in_terminated _ _ _ _ _ _ _ die' Hloop) as Hterm.
    destruct Hterm as (dd & t & td & Hdd & Ht & Htd & Hn & _); [simpl; eauto|].
    assert (d' = dd) by congruence. subst d'. rewrite Ht.
    assert (Hall : Forall is_Some (concat xss)).
    { apply Forall_concat.
      apply (for_in_results (Forall is_Some) _ _ _
               (fun c w x w' Hx => proj1 (IH c w x w' Hx)) _ _ _ _ Hloop). }
    split.
    + constructor; [done|]. apply Forall_app. split; [done|].
      constructor; [done|constructor].
    + right. by exists die', (concat xss), t, td.
  - injection H as <- <-. split; [by repeat constructor|]. left. by exists die'.
Qed.

End AnyStream.

(** X8: with no supplementary file configured, every value [iter_DIEs]
    yields is a DIE, never [None]: when the walk of an entry with
    children returns, the terminator yielded last has been recorded by
    the child iteration, and it is a null DIE.  This holds whatever the
    stream holds. *)
Theorem iter_DIEs_yields_DIEs DIE_parse translate_indirect
        get_DIE_from_attribute fuel w xs w' :
  iter_DIEs DIE_parse translate_indirect false get_DIE_from_attribute fuel w
    = (inr xs, w') ->
  Forall is_Some xs /\
  ((exists r, xs = [Some r]) \/
   (exists r mid t td, xs = Some r :: mid ++ [Some t] /\
                       heap w' !! t = Some td /\ DIE.is_null td = true)).
Proof.
  intros H. unfold iter_DIEs in H.
  apply bind_inr in H as (top & w1 & _ & H).
  exact (subtree_returns DIE_parse translate_indirect false
           get_DIE_from_attribute fuel top w1 xs w' H).
Qed.


(** ** A sibling reference that makes no progress *)

Section NoProgress.

Variable DIE_parse : Z -> exception + DIE.parsed.
Variable translate_indirect :
  list (string * DIE.AttributeValue) ->
  exception + list (string * DIE.AttributeValue).
Variables base top : Z.

Abbreviation fetch := (fetch_child DIE_parse translate_indirect).
Abbreviation next_child := (gen_next DIE_parse translate_indirect).

(** The fetch at a cursor where the stream holds an entry that is not
    null: the object of that offset is yielded. *)
Lemma fetch_child_yields w die dd cur p :
  tree_inv DIE_parse base top w -> heap w !! die = Some dd ->
  DIE_parse cur = inr p -> DIE.p_tag p <> None ->
  exists c cd w',
    fetch die cur w = (inr (Some c, GenYielded die cur c), w') /\
    tree_inv DIE_parse base top w' /\ extends w w' /\
    heap w' !! c = Some cd /\ DIE.offset cd = cur.
Proof.
  intros Hinv Hdd Hp Htag.
  pose proof (tree_inv_nonempty _ _ _ w die dd Hinv Hdd) as Hne.
  destruct (get_cached_DIE_ok DIE_parse translate_indirect base top w cur p
              Hinv Hne Hp)
    as (c & w1 & Hget & Hinv1 & Hext1 & cd & Hcd & Ho & Hpa).
  destruct (set_parent_ok _ _ _ w1 c cd die Hinv1 Hcd) as (Hsp & Hinv2 & Hext2).
  exists c, (DIE.with_parent cd die), (set_obj w1 c (DIE.with_parent cd die)).
  split; [|split; [done|split; [eapply extends_trans; eauto|split]]].
  - unfold fetch_child, bind. rewrite Hget, Hsp.
    rewrite (deref_eq _ _ _ (heap_set_obj_eq _ _ _ _ Hcd)).
    unfold DIE.is_null. simpl. destruct Hpa as (-> & _).
    by destruct (DIE.p_tag p).
  - by eapply heap_set_obj_eq.
  - done.
Qed.

Section Loop.

Variables (die : ref) (cur : Z) (p : DIE.parsed) (a : DIE.AttributeValue).
Hypothesis Hcur : cur <> top.
Hypothesis Hparse : DIE_parse cur = inr p.
Hypothesis Htag : DIE.p_tag p <> None.
Hypothesis Hkids : DIE.p_has_children p = true.
Hypothesis Hattr : DIE.get_attr "DW_AT_sibling" (DIE.p_attributes p) = Some a.
Hypothesis Hself : resolve_sibling base a = Some cur.

(** Resumed after the child at [cur], the generator fetches at [cur]
    again: however much fuel there is, the loop uses it up. *)
Lemma self_sibling_loop f n : forall w c cd dd,
  tree_inv DIE_parse base top w -> heap w !! die = Some dd ->
  heap w !! c = Some cd -> DIE.offset cd = cur ->
  exists w', for_in (next_child f) (fun c => ret c) n (GenYielded die cur c) w =
             (inl RecursionError, w').
Proof.
  induction n as [|n IH]; intros w c cd dd Hinv Hdd Hcd Ho; [by eexists|].
  destruct f as [|f']; [by eexists|].
  assert (Hp : DIE_parse (DIE.offset cd) = inr p) by (by rewrite Ho).
  destruct (member_fields _ _ _ w c cd p Hinv Hcd Hp) as (_ & Hk & _ & Ha).
  destruct (fetch_child_yields w die dd cur p Hinv Hdd Hparse Htag)
    as (c' & cd' & w1 & Hfetch & Hinv1 & Hext1 & Hcd' & Ho').
  assert (Hnext : next_child (S f') (GenYielded die cur c) w =
                  (inr (Some c', GenYielded die cur c'), w1)).
  { cbn [gen_next]. unfold bind at 1. rewrite (deref_eq _ _ _ Hcd).
    rewrite Hk, Hkids. simpl negb. cbv iota.
    rewrite Ha by congruence. rewrite Hattr.
    unfold bind at 1. rewrite sibling_offset_resolve, (ti_base _ _ _ _ Hinv), Hself.
    exact Hfetch. }
  destruct (ext_heap _ _ Hext1 die dd Hdd) as (dd1 & Hdd1 & _).
  destruct (IH w1 c' cd' dd1 Hinv1 Hdd1 Hcd' Ho') as (w' & Hrest).
  exists w'. cbn [for_in]. unfold bind at 1. rewrite Hnext.
  unfold bind at 1, ret at 1. unfold bind at 1. by rewrite Hrest.
Qed.

End Loop.

(** X9: the iteration does not check that a sibling reference moves
    forward.  When the first child of a DIE has children and carries a
    sibling attribute that resolves to the child's own offset, the
    generator yields that child again and again: the listing of the
    children never returns, however long it is run. *)
Theorem self_sibling_never_ends w die dd p a :
  tree_inv DIE_parse base top w ->
  heap w !! die = Some dd -> DIE.has_children dd = true ->
  DIE.offset dd + DIE.size dd <> top ->
  DIE_parse (DIE.offset dd + DIE.size dd) = inr p ->
  DIE.p_tag p <> None -> DIE.p_has_children p = true ->
  DIE.get_attr "DW_AT_sibling" (DIE.p_attributes p) = Some a ->
  resolve_sibling base a = Some (DIE.offset dd + DIE.size dd) ->
  forall fuel, exists w',
    iter_DIE_children DIE_parse translate_indirect fuel die w =
      (inl RecursionError, w').
Proof.
  intros Hinv Hdd Hk Hcur Hp Htag Hkids Ha Hself fuel.
  destruct fuel as [|n]; [by eexists|].
  destruct (fetch_child_yields w die dd _ p Hinv Hdd Hp Htag)
    as (c & cd & w1 & Hfetch & Hinv1 & Hext1 & Hcd & Ho).
  destruct (ext_heap _ _ Hext1 die dd Hdd) as (dd1 & Hdd1 & _).
  destruct (self_sibling_loop die _ p a Hcur Hp Htag Hkids Ha Hself (S n) n
              w1 c cd dd1 Hinv1 Hdd1 Hcd Ho) as (w' & Hrest).
  exists w'. unfold iter_DIE_children, collect. cbn [for_in].
  unfold bind at 1.
  rewrite (start_children DIE_parse translate_indirect w die dd n Hdd Hk), Hfetch.
  unfold bind at 1, ret at 1. unfold bind at 1.
  unfold collect in Hrest. by rewrite Hrest.
Qed.

End NoProgress.

(** ** Iteration over a well-formed unit *)

Lemma ascending_app l1 l2 :
  ascending l1 -> ascending l2 ->
  (forall x y, x ∈ l1 -> y ∈ l2 -> x < y) ->
  ascending (l1 ++ l2).
Proof.
  intros H1 H2 H12 i j x y Hij Hx Hy.
  apply lookup_app_Some in Hx as [Hx|[Hi Hx]];
    apply lookup_app_Some in Hy as [Hy|[Hj Hy]].
  - by apply (H1 i j).
  - apply H12; eapply list_elem_of_lookup_2; eauto.
  - apply lookup_lt_Some in Hy. lia.
  - apply (H2 (i - length l1)%nat (j - length l1)%nat); [lia|done|done].
Qed.

Lemma ascending_cons x l :
  (forall y, y ∈ l -> x < y) -> ascending l -> ascending (x :: l).
Proof.
  intros Hx Hl. apply (ascending_app [x] l); [|done|].
  - intros [|i] [|j] u v Hij Hu Hv; simpl in *; try lia; done.
  - intros u v Hu Hv. apply list_elem_of_singleton in Hu as ->. by apply Hx.
Qed.

(** Every entry of the list takes up at least one byte. *)
Fixpoint sized (s : entries) : Prop :=
  match s with
  | Null q => 0 < DIE.p_size q
  | Leaf p next => 0 < DIE.p_size p /\ sized next
  | Node p sub next => 0 < DIE.p_size p /\ sized sub /\ sized next
  end.

(** The walk of such a list goes forward, inside the bytes of the list. *)
Lemma walk_ascending s : forall cur,
  sized s ->
  ascending (walk cur s) /\
  (forall o, o ∈ walk cur s -> cur <= o < span cur s).
Proof.
  induction s as [q|p next IH|p sub IHs next IHn]; intros cur Hs; simpl in *.
  - split.
    + apply ascending_cons; [|apply ascending_nil].
      intros y Hy. by apply elem_of_nil in Hy.
    + intros o Ho. apply list_elem_of_singleton in Ho as ->. lia.
  - destruct Hs as [Hp Hs]. destruct (IH (cur + DIE.p_size p) Hs) as (Ha & Hb).
    split.
    + apply ascending_cons; [|done]. intros y Hy. apply Hb in Hy. lia.
    + intros o Ho. apply elem_of_cons in Ho as [->|Ho].
      * assert (Hin : cur + DIE.p_size p ∈ walk (cur + DIE.p_size p) next)
          by (destruct next; simpl; apply list_elem_of_here).
        apply Hb in Hin. lia.
      * apply Hb in Ho. lia.
  - destruct Hs as (Hp & Hss & Hsn).
    destruct (IHs (cur + DIE.p_size p) Hss) as (Ha1 & Hb1).
    destruct (IHn (span (cur + DIE.p_size p) sub) Hsn) as (Ha2 & Hb2).
    assert (Hin1 : cur + DIE.p_size p ∈ walk (cur + DIE.p_size p) sub)
      by (destruct sub; simpl; apply list_elem_of_here).
    assert (Hin2 : span (cur + DIE.p_size p) sub ∈
                   walk (span (cur + DIE.p_size p) sub) next)
      by (destruct next; simpl; apply list_elem_of_here).
    apply Hb1 in Hin1. apply Hb2 in Hin2.
    split.
    + apply ascending_cons.
      * intros y Hy. apply elem_of_app in Hy as [Hy|Hy].
        -- apply Hb1 in Hy. lia.
        -- apply Hb2 in Hy. lia.
      * apply ascending_app; [done|done|].
        intros x y Hx Hy. apply Hb1 in Hx. apply Hb2 in Hy. lia.
    + intros o Ho. apply elem_of_cons in Ho as [->|Ho]; [lia|].
      apply elem_of_app in Ho as [Ho|Ho].
      * apply Hb1 in Ho. lia.
      * apply Hb2 in Ho. lia.
Qed.

Lemma walk_length s : forall cur, length (walk cur s) = need s.
Proof.
  induction s as [q|p next IH|p sub IHs next IHn]; intros cur; simpl.
  - done.
  - by rewrite IH.
  - by rewrite length_app, IHs, IHn.
Qed.

Section WellFormed.

Variable DIE_parse : Z -> exception + DIE.parsed.
Variable translate_indirect :
  list (string * DIE.AttributeValue) ->
  exception + list (string * DIE.AttributeValue).
Variables base top : Z.
Variable supplementary_dwarfinfo : bool.
Variable get_DIE_from_attribute : ref -> string -> M ref.

Abbreviation get_cached := (_get_cached_DIE DIE_parse translate_indirect).
Abbreviation from_refaddr := (get_DIE_from_refaddr DIE_parse translate_indirect).
Abbreviation children := (iter_DIE_children DIE_parse translate_indirect).
Abbreviation subtree :=
  (_iter_DIE_subtree DIE_parse translate_indirect supplementary_dwarfinfo
                     get_DIE_from_attribute).
Abbreviation all_DIEs :=
  (iter_DIEs DIE_parse translate_indirect supplementary_dwarfinfo
             get_DIE_from_attribute).

(** An offset has one object. *)
Lemma object_at_fun w r r' d d' :
  tree_inv DIE_parse base top w ->
  heap w !! r = Some d -> heap w !! r' = Some d' ->
  DIE.offset d = DIE.offset d' -> r = r'.
Proof.
  intros Hinv Hd Hd' Ho.
  pose proof (ti_cached _ _ _ _ Hinv r d Hd) as Hc.
  pose proof (ti_cached _ _ _ _ Hinv r' d' Hd') as Hc'.
  rewrite Ho in Hc. eapply cached_fun; eauto. apply (ti_cache _ _ _ _ Hinv).
Qed.

Lemma refs_at_fun w os : forall l l',
  tree_inv DIE_parse base top w ->
  refs_at w l os -> refs_at w l' os -> l = l'.
Proof.
  induction os as [|o os IH]; intros l l' Hinv H H'.
  - apply Forall2_nil_inv_r in H. apply Forall2_nil_inv_r in H'. congruence.
  - apply Forall2_cons_inv_r in H as (r & l0 & (d & Hd & Ho) & H & ->).
    apply Forall2_cons_inv_r in H' as (r' & l0' & (d' & Hd' & Ho') & H' & ->).
    f_equal; [|by apply IH].
    eapply object_at_fun; eauto. congruence.
Qed.

Lemma yielded_at_fun w os : forall x x',
  tree_inv DIE_parse base top w ->
  yielded_at w x os -> yielded_at w x' os -> x = x'.
Proof.
  induction os as [|o os IH]; intros x x' Hinv H H'.
  - apply Forall2_nil_inv_r in H. apply Forall2_nil_inv_r in H'. congruence.
  - apply Forall2_cons_inv_r in H as (y & x0 & (r & d & -> & Hd & Ho) & H & ->).
    apply Forall2_cons_inv_r in H' as (y' & x0' & (r' & d' & -> & Hd' & Ho') & H' & ->).
    f_equal; [|by apply IH].
    f_equal. eapply object_at_fun; eauto. congruence.
Qed.

Lemma refs_at_extends w w' l os :
  refs_at w l os -> extends w w' -> refs_at w' l os.
Proof.
  intros H Hext. eapply Forall2_impl; [exact H|].
  intros r o (d & Hd & Ho).
  destruct (extends_at_offset w w' r d Hext Hd) as (d' & Hd' & Ho').
  exists d'. split; [done|]. congruence.
Qed.

(** X10: iterating a second time gives the same objects.  Over a
    well-formed children list, [list(iter_DIE_children(die))] run again
    after it returned lists the very same DIE objects in the same order,
    and so does the walk of the subtree of [die]: the DIEs parsed by the
    first iteration are served from the cache. *)
Theorem iteration_twice_same_objects w die dd s fuel :
  tree_inv DIE_parse base top w ->
  heap w !! die = Some dd -> DIE.has_children dd = true ->
  encodes DIE_parse base top (DIE.offset dd + DIE.size dd) s ->
  (need s <= fuel)%nat ->
  ok (children fuel die) w (fun l w1 =>
    ok (children fuel die) w1 (fun l' _ => l' = l)) /\
  (plain_tag supplementary_dwarfinfo (DIE.tag dd) ->
   all_plain supplementary_dwarfinfo s ->
   ok (subtree (S fuel) die) w (fun x w1 =>
     ok (subtree (S fuel) die) w1 (fun x' _ => x' = x))).
Proof.
  intros Hinv Hdd Hk Henc Hf.
  assert (Hagain : forall w1, extends w w1 ->
            exists dd1, heap w1 !! die = Some dd1 /\ same_entry dd dd1).
  { intros w1 Hext. destruct (ext_heap _ _ Hext die dd Hdd) as (dd1 & H1 & H2 & _).
    eauto. }
  split.
  - eapply ok_mono;
      [apply (iter_DIE_children_ok DIE_parse translate_indirect base top
                w die dd s fuel); done|].
    intros l w1 (Hinv1 & Hext1 & Hl & _). simpl.
    destruct (Hagain w1 Hext1) as (dd1 & Hdd1 & So & _ & Sk & Ssz).
    eapply ok_mono.
    { apply (iter_DIE_children_ok DIE_parse translate_indirect base top
               w1 die dd1 s fuel); try done; [congruence|].
      by rewrite <- So, <- Ssz. }
    intros l' w2 (Hinv2 & Hext2 & Hl' & _). simpl.
    rewrite <- So, <- Ssz in Hl'.
    eapply refs_at_fun; eauto. by eapply refs_at_extends.
  - intros Hplain Hpl.
    eapply ok_mono.
    { apply (subtree_node DIE_parse translate_indirect base top
               supplementary_dwarfinfo get_DIE_from_attribute
               w die dd s fuel); try done.
      by apply subtree_members. }
    intros x w1 (Hinv1 & Hext1 & _ & Hx). simpl.
    destruct (Hagain w1 Hext1) as (dd1 & Hdd1 & So & St & Sk & Ssz).
    eapply ok_mono.
    { apply (subtree_node DIE_parse translate_indirect base top
               supplementary_dwarfinfo get_DIE_from_attribute
               w1 die dd1 s fuel); try done.
      - congruence.
      - by rewrite <- St.
      - by rewrite <- So, <- Ssz.
      - rewrite <- So, <- Ssz. by apply subtree_members. }
    intros x' w2 (Hinv2 & Hext2 & _ & Hx'). simpl.
    rewrite <- So, <- Ssz in Hx'.
    eapply yielded_at_fun; eauto. by eapply yielded_at_extends.
Qed.

Section NewUnit.

Variables (h : TU_header) (st : DWARFStructs).
Variables (p : DIE.parsed) (a : list (string * DIE.AttributeValue)) (s : entries).

Abbreviation fresh := (new_world (TypeUnit_init h st base top)).

Hypothesis Hparse : DIE_parse top = inr p.
Hypothesis Htrans : translate_indirect (DIE.p_attributes p) = inr a.
Hypothesis Hplain : plain_tag supplementary_dwarfinfo (DIE.p_tag p).
Hypothesis Hkids : DIE.p_has_children p = true.
Hypothesis Henc : encodes DIE_parse base top (top + DIE.p_size p) s.
Hypothesis Hallplain : all_plain supplementary_dwarfinfo s.

Lemma iter_DIEs_new_unit fuel :
  (need s <= fuel)%nat ->
  ok (all_DIEs (S fuel)) fresh (fun x w' =>
    tree_inv DIE_parse base top w' /\ extends fresh w' /\
    yielded_at w' x (top :: walk (top + DIE.p_size p) s)).
Proof.
  intros Hf.
  apply (iter_DIEs_ok DIE_parse translate_indirect base top
           supplementary_dwarfinfo get_DIE_from_attribute fresh p a s fuel);
    try done.
Qed.

(** X11: [iter_DIEs] on a new unit whose stream is well formed, every
    entry taking at least one byte, yields the DIEs "in order of their
    appearance": the offsets of the DIEs yielded ascend strictly from the
    top offset, no DIE is yielded twice, and as many DIEs are yielded as
    the unit has entries, null entries included. *)
Theorem iter_DIEs_stream_order fuel :
  0 < DIE.p_size p -> sized s -> (need s <= fuel)%nat ->
  ok (all_DIEs (S fuel)) fresh (fun x w' =>
    exists os, yielded_at w' x os /\ os !! 0%nat = Some top /\
               ascending os /\ NoDup x /\ length x = S (need s)).
Proof.
  intros Hp Hs Hf.
  eapply ok_mono; [by apply iter_DIEs_new_unit|].
  intros x w' (Hinv & _ & Hy). simpl.
  destruct (walk_ascending s (top + DIE.p_size p) Hs) as (Ha & Hb).
  assert (Hasc : ascending (top :: walk (top + DIE.p_size p) s)).
  { apply ascending_cons; [|done]. intros y Hy'. apply Hb in Hy'. lia. }
  exists (top :: walk (top + DIE.p_size p) s).
  split; [done|]. split; [done|]. split; [done|]. split.
  - apply NoDup_alt. intros i j y Hi Hj.
    destruct (Forall2_lookup_l _ _ _ _ _ Hy Hi) as (o & Ho & r & d & -> & Hd & Hod).
    destruct (Forall2_lookup_l _ _ _ _ _ Hy Hj) as (o' & Ho' & r' & d' & E & Hd' & Hod').
    injection E as <-. assert (d' = d) by congruence. subst d'.
    eapply ascending_inj; eauto. congruence.
  - apply Forall2_length in Hy. rewrite Hy. simpl. by rewrite walk_length.
Qed.

(** X12: the DIEs that [iter_DIEs] yielded are the ones references
    resolve to.  After the iteration, [get_DIE_from_refaddr] at the
    offset of a yielded DIE that lies inside the unit returns that very
    object and leaves the unit as it is: nothing is parsed again. *)
Theorem iterated_DIEs_resolve fuel :
  (need s <= fuel)%nat ->
  ok (all_DIEs (S fuel)) fresh (fun x w' =>
    forall i r, x !! i = Some (Some r) ->
      exists d, heap w' !! r = Some d /\
        (top :: walk (top + DIE.p_size p) s) !! i = Some (DIE.offset d) /\
        get_cached (DIE.offset d) w' = (inr r, w') /\
        (top <= DIE.offset d <
           base + (unit_length h + initial_length_field_size st) ->
         from_refaddr (DIE.offset d) w' = (inr r, w'))).
Proof.
  intros Hf.
  eapply ok_mono; [by apply iter_DIEs_new_unit|].
  intros x w' (Hinv & Hext & Hy) i r Hi. simpl.
  destruct (Forall2_lookup_l _ _ _ _ _ Hy Hi) as (o & Ho & r' & d & E & Hd & Hod).
  injection E as <-. exists d. split; [done|]. split; [congruence|].
  pose proof (ti_cached _ _ _ _ Hinv r d Hd) as Hc.
  pose proof (get_cached_DIE_hit DIE_parse translate_indirect w' _ r
                (ti_cache _ _ _ _ Hinv) Hc) as Hhit.
  split; [done|]. intros [H1 H2].
  destruct Hext as [(Hh & Hst & Hb & Ht) _ _]. simpl in Hh, Hst, Hb, Ht.
  unfold get_DIE_from_refaddr, bind, gets, dwarf_assert, cu_die_offset,
    cu_offset, size.
  rewrite <- Hh, <- Hst, <- Hb, <- Ht.
  destruct (Z.leb_spec top (DIE.offset d)); [|lia].
  destruct (Z.ltb_spec (DIE.offset d)
              (base + (unit_length h + initial_length_field_size st))); [|lia].
  simpl. exact Hhit.
Qed.

End NewUnit.

End WellFormed.

(** ** What a full iteration leaves in the cache *)

(** The stream read only where [inside] allows; elsewhere the constructor
    raises. *)
Definition restrict (inside : Z -> bool) (parse : Z -> exception + DIE.parsed)
  : Z -> exception + DIE.parsed :=
  fun off => if inside off then parse off else inl (ParseFailure off).

(** Whenever [m'] returns, [m] returns the same from the same world. *)
Definition refines {A} (m' m : M A) : Prop :=
  forall w a w', m' w = (inr a, w') -> m w = (inr a, w').

Lemma refines_refl {A} (m : M A) : refines m m.
Proof. by intros w a w' H. Qed.

Lemma refines_bind {A B} (m' m : M A) (k' k : A -> M B) :
  refines m' m -> (forall a, refines (k' a) (k a)) ->
  refines (bind m' k') (bind m k).
Proof.
  intros Hm Hk w b w' H. apply bind_inr in H as (a & w1 & H1 & H2).
  unfold bind. rewrite (Hm _ _ _ H1). by apply Hk.
Qed.

Section Restricted.

Variable inside : Z -> bool.
Variable DIE_parse : Z -> exception + DIE.parsed.
Variable translate_indirect :
  list (string * DIE.AttributeValue) ->
  exception + list (string * DIE.AttributeValue).
Variable supplementary_dwarfinfo : bool.
Variable get_DIE_from_attribute : ref -> string -> M ref.

Abbreviation parse' := (restrict inside DIE_parse).

Lemma restrict_inr off p : parse' off = inr p -> DIE_parse off = inr p.
Proof. unfold restrict. by destruct (inside off). Qed.

Lemma restrict_inside off p : parse' off = inr p -> inside off = true.
Proof. unfold restrict. by destruct (inside off). Qed.

Lemma refines_DIE_new off : refines (DIE_new parse' off) (DIE_new DIE_parse off).
Proof.
  intros w r w' H. unfold DIE_new in *.
  destruct (parse' off) as [e|p] eqn:E; [done|].
  by rewrite (restrict_inr _ _ E).
Qed.

Lemma refines_get_top_DIE :
  refines (get_top_DIE parse' translate_indirect)
          (get_top_DIE DIE_parse translate_indirect).
Proof.
  apply refines_bind; [apply refines_refl|]. intros [|o dm]; [|apply refines_refl].
  apply refines_bind; [apply refines_refl|]. intros off.
  apply refines_bind; [apply refines_DIE_new|]. intros t. apply refines_refl.
Qed.

Lemma refines_get_cached_DIE off :
  refines (_get_cached_DIE parse' translate_indirect off)
          (_get_cached_DIE DIE_parse translate_indirect off).
Proof.
  apply refines_bind; [apply refines_get_top_DIE|]. intros t.
  apply refines_bind; [apply refines_refl|]. intros dm.
  apply refines_bind; [apply refines_refl|]. intros found.
  destruct (off =? found); [apply refines_refl|].
  apply refines_bind; [apply refines_DIE_new|]. intros die. apply refines_refl.
Qed.

Lemma refines_fetch_child die cur :
  refines (fetch_child parse' translate_indirect die cur)
          (fetch_child DIE_parse translate_indirect die cur).
Proof.
  apply refines_bind; [apply refines_get_cached_DIE|]. intros c. apply refines_refl.
Qed.

Lemma refines_for_in {A} next' next (body' body : ref -> M A) n :
  (forall g, refines (next' g) (next g)) ->
  (forall c, refines (body' c) (body c)) ->
  forall g, refines (for_in next' body' n g) (for_in next body n g).
Proof.
  intros Hn Hb. induction n as [|n IH]; intros g; [apply refines_refl|].
  cbn [for_in]. apply refines_bind; [apply Hn|]. intros [[c|] g']; [|apply refines_refl].
  apply refines_bind; [apply Hb|]. intros x.
  apply refines_bind; [apply IH|]. intros xs. apply refines_refl.
Qed.

Lemma refines_gen_next fuel : forall g,
  refines (gen_next parse' translate_indirect fuel g)
          (gen_next DIE_parse translate_indirect fuel g).
Proof.
  induction fuel as [|fuel IH]; intros g; [apply refines_refl|].
  destruct g as [die|die cur child|]; cbn [gen_next]; [| |apply refines_refl].
  - apply refines_bind; [apply refines_refl|]. intros d.
    destruct (negb (DIE.has_children d)); [apply refines_refl|].
    apply refines_fetch_child.
  - apply refines_bind; [apply refines_refl|]. intros c.
    apply refines_bind; [|intros; apply refines_fetch_child].
    destruct (negb (DIE.has_children c)); [apply refines_refl|].
    destruct (DIE.get_attr "DW_AT_sibling" (DIE.attributes c));
      [apply refines_refl|].
    apply refines_bind; [|intros; apply refines_refl].
    destruct (DIE._terminator c); [apply refines_refl|].
    unfold drain. apply refines_bind; [|intros; apply refines_refl].
    apply refines_for_in; [exact IH|intros; apply refines_refl].
Qed.

Lemma refines_iter_DIE_subtree fuel : forall die,
  refines (_iter_DIE_subtree parse' translate_indirect supplementary_dwarfinfo
                             get_DIE_from_attribute fuel die)
          (_iter_DIE_subtree DIE_parse translate_indirect supplementary_dwarfinfo
                             get_DIE_from_attribute fuel die).
Proof.
  induction fuel as [|fuel IH]; intros die; [apply refines_refl|].
  cbn [_iter_DIE_subtree].
  apply refines_bind; [apply refines_refl|]. intros d0.
  apply refines_bind; [apply refines_refl|]. intros die'.
  apply refines_bind; [apply refines_refl|]. intros d.
  destruct (DIE.has_children d); [|apply refines_refl].
  apply refines_bind; [|intros; apply refines_refl].
  unfold for_children. apply refines_bind; [|intros; apply refines_refl].
  apply refines_for_in; [apply refines_gen_next|exact IH].
Qed.

Lemma refines_iter_DIEs fuel :
  refines (iter_DIEs parse' translate_indirect supplementary_dwarfinfo
                     get_DIE_from_attribute fuel)
          (iter_DIEs DIE_parse translate_indirect supplementary_dwarfinfo
                     get_DIE_from_attribute fuel).
Proof.
  apply refines_bind; [apply refines_get_top_DIE|]. intros t.
  apply refines_iter_DIE_subtree.
Qed.

Variables base top : Z.

Lemma encodes_restrict s : forall cur,
  encodes DIE_parse base top cur s ->
  (forall o, o ∈ walk cur s -> inside o = true) ->
  encodes parse' base top cur s.
Proof.
  assert (Hin : forall cur p, DIE_parse cur = inr p -> inside cur = true ->
                              parse' cur = inr p).
  { intros cur p Hp Hi. unfold restrict. by rewrite Hi. }
  induction s as [q|p next IH|p sub IHs next IHn]; intros cur H Hw; simpl in *.
  - destruct H as [H T]. split; [|done]. apply Hin; [done|].
    apply Hw. apply list_elem_of_here.
  - destruct H as (H & T & K & E). split; [|split; [done|split; [done|]]].
    + apply Hin; [done|]. apply Hw. apply list_elem_of_here.
    + apply IH; [done|]. intros o Ho. apply Hw. by apply list_elem_of_further.
  - destruct H as (H & T & K & N & Es & Sb & En).
    split; [|split; [done|split; [done|split; [done|split; [|split; [done|]]]]]].
    + apply Hin; [done|]. apply Hw. apply list_elem_of_here.
    + apply IHs; [done|]. intros o Ho. apply Hw.
      apply list_elem_of_further. apply elem_of_app. by left.
    + apply IHn; [done|]. intros o Ho. apply Hw.
      apply list_elem_of_further. apply elem_of_app. by right.
Qed.

End Restricted.

Lemma ascending_cons_inv x l :
  ascending (x :: l) -> (forall y, y ∈ l -> x < y) /\ ascending l.
Proof.
  intros H. split.
  - intros y Hy. apply list_elem_of_lookup_1 in Hy as (j & Hj).
    apply (H 0%nat (S j)); [lia|done|done].
  - intros i j u v Hij Hu Hv. apply (H (S i) (S j)); [lia|done|done].
Qed.

(** Two strictly ascending lists with the same elements are the same. *)
Lemma ascending_same_elements l1 : forall l2,
  ascending l1 -> ascending l2 -> (forall o, o ∈ l1 <-> o ∈ l2) -> l1 = l2.
Proof.
  induction l1 as [|x l1 IH]; intros [|y l2] H1 H2 Hiff.
  - done.
  - exfalso. eapply elem_of_nil. apply Hiff. apply list_elem_of_here.
  - exfalso. eapply elem_of_nil. apply Hiff. apply list_elem_of_here.
  - apply ascending_cons_inv in H1 as (Hx & H1).
    apply ascending_cons_inv in H2 as (Hy & H2).
    assert (x = y).
    { assert (Hxin : x ∈ y :: l2) by (apply Hiff; apply list_elem_of_here).
      assert (Hyin : y ∈ x :: l1) by (apply Hiff; apply list_elem_of_here).
      apply elem_of_cons in Hxin as [?|Hxin]; [done|].
      apply elem_of_cons in Hyin as [?|Hyin]; [done|].
      apply Hy in Hxin. apply Hx in Hyin. lia. }
    subst y. f_equal. apply IH; [done|done|].
    intros o. split; intros Ho.
    + assert (Hin : o ∈ x :: l2) by (apply Hiff; by apply list_elem_of_further).
      apply elem_of_cons in Hin as [->|?]; [|done]. apply Hx in Ho. lia.
    + assert (Hin : o ∈ x :: l1) by (apply Hiff; by apply list_elem_of_further).
      apply elem_of_cons in Hin as [->|?]; [|done]. apply Hy in Ho. lia.
Qed.

Section FullIteration.

Variable DIE_parse : Z -> exception + DIE.parsed.
Variable translate_indirect :
  list (string * DIE.AttributeValue) ->
  exception + list (string * DIE.AttributeValue).
Variables base top : Z.
Variable supplementary_dwarfinfo : bool.
Variable get_DIE_from_attribute : ref -> string -> M ref.
Variables (h : TU_header) (st : DWARFStructs).

Abbreviation fresh := (new_world (TypeUnit_init h st base top)).

(** X13: a full iteration fills the cache with the unit, in stream
    order.  After [iter_DIEs] on a new unit whose stream is well formed,
    every entry taking at least one byte, the offsets cached are exactly
    the offsets of the entries of the unit, from the top offset upwards,
    and the objects cached are exactly the DIEs yielded, in the order
    they were yielded: nothing else was parsed, and the top entry is
    first. *)
Theorem full_iteration_fills_cache p a s fuel :
  DIE_parse top = inr p ->
  translate_indirect (DIE.p_attributes p) = inr a ->
  plain_tag supplementary_dwarfinfo (DIE.p_tag p) ->
  DIE.p_has_children p = true ->
  encodes DIE_parse base top (top + DIE.p_size p) s ->
  all_plain supplementary_dwarfinfo s ->
  0 < DIE.p_size p -> sized s -> (need s <= fuel)%nat ->
  ok (iter_DIEs DIE_parse translate_indirect supplementary_dwarfinfo
                get_DIE_from_attribute (S fuel)) fresh (fun x w' =>
    _diemap (tu w') = top :: walk (top + DIE.p_size p) s /\
    x = Some <$> _dielist (tu w') /\
    top_first w' /\
    length (heap w') = S (need s)).
Proof.
  intros Hp Ht Hplain Hk Henc Hpl Hsz Hs Hf.
  set (os := top :: walk (top + DIE.p_size p) s).
  set (inside := fun o : Z => bool_decide (o ∈ os)).
  assert (Hin : forall o, o ∈ os -> inside o = true).
  { intros o Ho. unfold inside. by apply bool_decide_eq_true. }
  assert (Hp' : restrict inside DIE_parse top = inr p).
  { unfold restrict. rewrite Hin; [done|]. apply list_elem_of_here. }
  assert (Henc' : encodes (restrict inside DIE_parse) base top
                          (top + DIE.p_size p) s).
  { apply encodes_restrict; [done|]. intros o Ho. apply Hin.
    by apply list_elem_of_further. }
  destruct (iter_DIEs_ok (restrict inside DIE_parse) translate_indirect base top
              supplementary_dwarfinfo get_DIE_from_attribute fresh p a s fuel)
    as (x & w' & Hrun & Hinv & Hext & Hy); try done.
  apply refines_iter_DIEs in Hrun.
  eapply ok_eq; [exact Hrun|].
  pose proof (ti_cache _ _ _ _ Hinv) as Hc.
  destruct (walk_ascending s (top + DIE.p_size p) Hs) as (Ha & Hb).
  assert (Hasc : ascending os).
  { apply ascending_cons; [|done]. intros y Hy'. apply Hb in Hy'. lia. }
  assert (Hobj : forall r d, heap w' !! r = Some d -> DIE.offset d ∈ os).
  { intros r d Hd. destruct (ti_parsed _ _ _ _ Hinv r d Hd) as (q & Hq & _).
    apply restrict_inside in Hq. unfold inside in Hq.
    by apply bool_decide_eq_true in Hq. }
  assert (Hmap : _diemap (tu w') = os).
  { apply ascending_same_elements; [apply (inv_asc _ Hc)|done|].
    intros o. split; intros Ho.
    - apply list_elem_of_lookup_1 in Ho as (i & Hi).
      destruct (lookup_lt_is_Some_2 (_dielist (tu w')) i) as (r & Hr).
      { rewrite (inv_len _ Hc). eapply lookup_lt_Some; eauto. }
      destruct (inv_obj _ Hc i o r Hi Hr) as (d & Hd & <-). by eapply Hobj.
    - apply list_elem_of_lookup_1 in Ho as (i & Hi).
      destruct (Forall2_lookup_r _ _ _ _ _ Hy Hi) as (y & _ & r & d & _ & Hd & <-).
      destruct (ti_cached _ _ _ _ Hinv r d Hd) as (j & Hj & _).
      by eapply list_elem_of_lookup_2. }
  assert (Hlen : length x = length (_dielist (tu w'))).
  { rewrite (Forall2_length _ _ _ Hy), (inv_len _ Hc), Hmap. done. }
  assert (Hlist : x = Some <$> _dielist (tu w')).
  { apply list_eq_same_length with (length x); [by rewrite length_fmap|done|].
    intros i y y' Hi Hx Hx'.
    rewrite list_lookup_fmap in Hx'.
    destruct (_dielist (tu w') !! i) as [r'|] eqn:Hr'; [|done].
    injection Hx' as <-.
    destruct (Forall2_lookup_l _ _ _ _ _ Hy Hx) as (o & Ho & r & d & -> & Hd & Hod).
    fold os in Ho. rewrite <- Hmap in Ho.
    destruct (inv_obj _ Hc i o r' Ho Hr') as (d' & Hd' & Hod').
    f_equal. eapply (object_at_fun (restrict inside DIE_parse)); eauto. congruence. }
  split; [done|]. split; [done|]. split.
  - right. rewrite Hmap. simpl.
    destruct Hext as [(_ & _ & _ & E) _ _]. simpl in E. by rewrite <- E.
  - apply Nat.le_antisymm.
    + (* every object is cached, at an offset of its own *)
      assert (Hinj : forall r, (r < length (heap w'))%nat ->
                exists i, (i < length (_dielist (tu w')))%nat /\
                          _dielist (tu w') !! i = Some r).
      { intros r Hr. destruct (lookup_lt_is_Some_2 _ _ Hr) as (d & Hd).
        destruct (ti_cached _ _ _ _ Hinv r d Hd) as (i & _ & Hi).
        exists i. split; [by eapply lookup_lt_Some|done]. }
      assert (Hnd : NoDup (seq 0 (length (heap w')))) by apply NoDup_seq.
      assert (Hsub : seq 0 (length (heap w')) ⊆ _dielist (tu w')).
      { intros r Hr. apply elem_of_seq in Hr.
        destruct (Hinj r) as (i & _ & Hi); [lia|].
        by eapply list_elem_of_lookup_2. }
      pose proof (submseteq_length _ _ (NoDup_submseteq _ _ Hnd Hsub)) as Hle.
      rewrite length_seq in Hle.
      rewrite <- Hlen, (Forall2_length _ _ _ Hy) in Hle.
      subst os. simpl in Hle. by rewrite walk_length in Hle.
    + (* the DIEs yielded are distinct objects *)
      assert (Hnd : NoDup (_dielist (tu w'))).
      { apply NoDup_alt. intros i j r Hi Hj.
        destruct (lookup_lt_is_Some_2 (_diemap (tu w')) i) as (o & Ho).
        { rewrite <- (inv_len _ Hc). eapply lookup_lt_Some; eauto. }
        destruct (lookup_lt_is_Some_2 (_diemap (tu w')) j) as (o' & Ho').
        { rewrite <- (inv_len _ Hc). eapply lookup_lt_Some; eauto. }
        destruct (inv_obj _ Hc i o r Ho Hi) as (d & Hd & Hod).
        destruct (inv_obj _ Hc j o' r Ho' Hj) as (d' & Hd' & Hod').
        assert (d' = d) by congruence. subst d'.
        eapply ascending_inj; [apply (inv_asc _ Hc)|exact Ho|]. congruence. }
      assert (Hsub : _dielist (tu w') ⊆ seq 0 (length (heap w'))).
      { intros r Hr. apply list_elem_of_lookup_1 in Hr as (i & Hi).
        destruct (lookup_lt_is_Some_2 (_diemap (tu w')) i) as (o & Ho).
        { rewrite <- (inv_len _ Hc). eapply lookup_lt_Some; eauto. }
        destruct (inv_obj _ Hc i o r Ho Hi) as (d & Hd & _).
        apply elem_of_seq. apply lookup_lt_Some in Hd. lia. }
      pose proof (submseteq_length _ _ (NoDup_submseteq _ _ Hnd Hsub)) as Hle.
      rewrite length_seq in Hle.
      rewrite (inv_len _ Hc), Hmap in Hle. subst os. simpl in Hle.
      by rewrite walk_length in Hle.
Qed.

End FullIteration.

(** ** The top entry, parsed *)

(** X14: on a unit with nothing cached, [get_top_DIE] creates one new
    object and returns it: the DIE of the unit's top offset, with the
    tag, the children flag and the size the constructor read and the
    attributes as [_translate_indirect_attributes] rewrote them, without
    parent and without terminator.  It is the only entry of the cache,
    and the objects that existed are as they were. *)
Theorem get_top_DIE_parses_top_entry
        (DIE_parse : Z -> exception + DIE.parsed)
        (translate_indirect : list (string * DIE.AttributeValue) ->
                              exception + list (string * DIE.AttributeValue))
        w p a :
  cache_inv w -> _diemap (tu w) = [] ->
  DIE_parse (tu_die_offset (tu w)) = inr p ->
  translate_indirect (DIE.p_attributes p) = inr a ->
  exists t w1,
    get_top_DIE DIE_parse translate_indirect w = (inr t, w1) /\
    heap w !! t = None /\
    heap w1 !! t =
      Some (DIE.mk (tu_die_offset (tu w)) (DIE.p_tag p) (DIE.p_has_children p)
                   (DIE.p_size p) a None None) /\
    _diemap (tu w1) = [tu_die_offset (tu w)] /\ _dielist (tu w1) = [t] /\
    length (heap w1) = S (length (heap w)) /\
    (forall r d, heap w !! r = Some d -> heap w1 !! r = Some d).
Proof.
  intros Hinv Hnil Hp Ht.
  pose proof (inv_len w Hinv) as L. rewrite Hnil in L.
  assert (Hl : _dielist (tu w) = []) by (by destruct (_dielist (tu w))).
  eexists _, _. split.
  { rewrite (get_top_DIE_empty _ _ w Hnil). by rewrite Hp, Ht. }
  split; [apply lookup_ge_None_2; lia|].
  split; [|split; [|split; [|split]]].
  - simpl. rewrite list_lookup_insert_eq by (rewrite length_app; simpl; lia).
    done.
  - simpl. by rewrite Hnil.
  - simpl. by rewrite Hl.
  - simpl. rewrite length_insert, length_app. simpl. lia.
  - intros r d Hd. simpl.
    rewrite list_lookup_insert_ne by (apply lookup_lt_Some in Hd; lia).
    by apply lookup_app_l_Some.
Qed.

(** ** Invariants of the cache, call by call

    A property [I] of the unit that the two cache primitives keep,
    [get_top_DIE] always and [_get_cached_DIE] at the offsets [allowed],
    is kept by every method, provided the cursors the child iteration
    computes are allowed. *)

Section Invariant.

Variable DIE_parse : Z -> exception + DIE.parsed.
Variable translate_indirect :
  list (string * DIE.AttributeValue) ->
  exception + list (string * DIE.AttributeValue).
Variable supplementary_dwarfinfo : bool.
Variable get_DIE_from_attribute : ref -> string -> M ref.

Variable I : World -> Prop.
Variable allowed : Z -> Prop.

Abbreviation get_top := (get_top_DIE DIE_parse translate_indirect).
Abbreviation get_cached := (_get_cached_DIE DIE_parse translate_indirect).
Abbreviation fetch := (fetch_child DIE_parse translate_indirect).
Abbreviation next_child := (gen_next DIE_parse translate_indirect).

Definition good (w : World) : Prop := cache_inv w /\ I w.

(** [m] keeps the cache invariant and [I], and only adds to the world. *)
Definition holds {A} (m : M A) : Prop :=
  forall w res w', good w -> m w = (res, w') -> good w' /\ extends w w'.

Lemma holds_bind {A B} (m : M A) (k : A -> M B) :
  holds m -> (forall a, holds (k a)) -> holds (bind m k).
Proof.
  intros Hm Hk w res w' Hg Heq. unfold bind in Heq.
  destruct (m w) as [[e|a] w1] eqn:E.
  - injection Heq as <- <-. by apply (Hm w _ _ Hg E).
  - destruct (Hm w _ _ Hg E) as (Hg1 & Hext1).
    destruct (Hk a w1 _ _ Hg1 Heq) as (Hg2 & Hext2).
    split; [done|]. eapply extends_trans; eauto.
Qed.

(** A computation that leaves the world as it is. *)
Lemma holds_same {A} (m : M A) :
  (forall w res w', m w = (res, w') -> w' = w) -> holds m.
Proof.
  intros H w res w' Hg Heq. rewrite (H _ _ _ Heq).
  split; [done|apply extends_refl].
Qed.

Lemma holds_ret {A} (a : A) : holds (ret a).
Proof. apply holds_same. by intros w res w' [= _ <-]. Qed.

Lemma holds_raise {A} e : holds (raise e : M A).
Proof. apply holds_same. by intros w res w' [= _ <-]. Qed.

Lemma holds_gets {A} (f : World -> A) : holds (gets f).
Proof. apply holds_same. by intros w res w' [= _ <-]. Qed.

Lemma holds_lift_opt {A} e (o : option A) : holds (lift_opt e o).
Proof. destruct o; [apply holds_ret|apply holds_raise]. Qed.

Lemma holds_deref r : holds (deref r).
Proof.
  apply holds_same. intros w res w'. unfold deref.
  destruct (heap w !! r); simpl; by intros [= _ <-].
Qed.

Lemma holds_sibling_offset a : holds (sibling_offset a).
Proof.
  apply holds_same. intros w res w'. rewrite sibling_offset_resolve.
  destruct (resolve_sibling _ a); by intros [= _ <-].
Qed.

Hypothesis I_parent : forall w r d die,
  good w -> heap w !! r = Some d -> I (set_obj w r (DIE.with_parent d die)).
Hypothesis I_terminator : forall w r d c cd,
  good w -> heap w !! r = Some d ->
  heap w !! c = Some cd -> DIE.is_null cd = true ->
  I (set_obj w r (DIE.with_terminator d c)).
Hypothesis I_top : forall w res w',
  good w -> get_top w = (res, w') -> I w'.
Hypothesis I_lookup : forall off w res w',
  good w -> allowed off -> get_cached off w = (res, w') -> I w'.
Hypothesis I_cursor : forall w r d,
  good w -> heap w !! r = Some d ->
  allowed (DIE.offset d + DIE.size d) /\
  (forall a z, DIE.get_attr "DW_AT_sibling" (DIE.attributes d) = Some a ->
               resolve_sibling (tu_offset (tu w)) a = Some z -> allowed z).
Hypothesis I_range : forall w refaddr,
  good w -> cu_die_offset (tu w) <= refaddr -> allowed refaddr.
Hypothesis I_import : forall r name, holds (get_DIE_from_attribute r name).

Lemma set_parent_holds c die w res w' :
  good w -> set_parent c die w = (res, w') -> good w' /\ extends w w'.
Proof.
  intros [Hinv HI] Heq.
  destruct (keeps_set_parent c die w _ _ Hinv Heq) as (Hinv' & Hext).
  split; [|done]. split; [done|].
  unfold set_parent, update, bind, deref in Heq.
  destruct (heap w !! c) as [d|] eqn:Hd; simpl in Heq; injection Heq as <- <-;
    [|done].
  by apply I_parent.
Qed.

Lemma set_terminator_holds die c cd w res w' :
  good w -> heap w !! c = Some cd -> DIE.is_null cd = true ->
  set_terminator die c w = (res, w') -> good w' /\ extends w w'.
Proof.
  intros [Hinv HI] Hcd Hn Heq.
  destruct (keeps_set_terminator die c w _ _ Hinv Heq) as (Hinv' & Hext).
  split; [|done]. split; [done|].
  unfold set_terminator, update, bind, deref in Heq.
  destruct (heap w !! die) as [d|] eqn:Hd; simpl in Heq; injection Heq as <- <-;
    [|done].
  by eapply I_terminator.
Qed.

Lemma holds_get_top_DIE : holds get_top.
Proof.
  intros w res w' [Hinv HI] Heq.
  destruct (keeps_get_top_DIE DIE_parse translate_indirect w _ _ Hinv Heq)
    as (Hinv' & Hext).
  split; [|done]. split; [done|]. by apply (I_top w res w').
Qed.

Lemma holds_get_cached_DIE off : allowed off -> holds (get_cached off).
Proof.
  intros Ha w res w' [Hinv HI] Heq.
  destruct (keeps_get_cached_DIE DIE_parse translate_indirect off w _ _ Hinv Heq)
    as (Hinv' & Hext).
  split; [|done]. split; [done|]. by apply (I_lookup off w res w').
Qed.

Lemma holds_get_DIE_from_refaddr refaddr :
  holds (get_DIE_from_refaddr DIE_parse translate_indirect refaddr).
Proof.
  intros w res w' Hg Heq.
  unfold get_DIE_from_refaddr, bind, gets, dwarf_assert in Heq.
  destruct ((cu_die_offset (tu w) <=? refaddr) &&
            (refaddr <? cu_offset (tu w) + size (tu w))) eqn:Hr; simpl in Heq.
  - apply andb_true_iff in Hr as [H1 _]. apply Z.leb_le in H1.
    apply (holds_get_cached_DIE refaddr (I_range w refaddr Hg H1) w res w' Hg Heq).
  - injection Heq as <- <-. split; [done|apply extends_refl].
Qed.

(** The generator may be resumed: the cursor after a childless child is
    allowed. *)
Definition resumable (w : World) (g : children_gen) : Prop :=
  match g with
  | GenYielded _ cur c =>
      forall cd, heap w !! c = Some cd -> allowed (cur + DIE.size cd)
  | _ => True
  end.

(** The generator was suspended by a fetch. *)
Definition suspended (w : World) (g : children_gen) : Prop :=
  match g with
  | GenYielded _ cur c =>
      exists cd, heap w !! c = Some cd /\ allowed (cur + DIE.size cd)
  | _ => True
  end.

Lemma suspended_resumable w w' g :
  suspended w g -> extends w w' -> resumable w' g.
Proof.
  destruct g as [|die cur c|]; simpl; try done.
  intros (cd & Hcd & Ha) Hext cd' Hcd'.
  destruct (ext_heap _ _ Hext c cd Hcd) as (cd2 & Hcd2 & (_ & _ & _ & Hsz) & _).
  assert (cd2 = cd') by congruence. subst cd2. by rewrite <- Hsz.
Qed.

(** What a resumption of the generator guarantees. *)
Definition step_ok (m : M (option ref * children_gen)) : Prop :=
  forall w res w', good w -> m w = (res, w') ->
    good w' /\ extends w w' /\
    (forall o g', res = inr (o, g') -> suspended w' g').

Lemma fetch_child_holds die cur : allowed cur -> step_ok (fetch die cur).
Proof.
  intros Ha w res w' Hg Heq. unfold fetch_child, bind in Heq.
  destruct (get_cached cur w) as [[e|c] w1] eqn:Hget.
  { injection Heq as <- <-.
    destruct (holds_get_cached_DIE cur Ha w _ _ Hg Hget) as (Hg1 & Hext1).
    split; [done|]. split; [done|]. intros o g' [=]. }
  destruct (holds_get_cached_DIE cur Ha w _ _ Hg Hget) as (Hg1 & Hext1).
  pose proof (get_cached_DIE_cached DIE_parse translate_indirect w cur c w1
                (proj1 Hg) Hget) as Hc.
  destruct (cached_offset w1 cur c (proj1 Hg1) Hc) as (cd & Hcd & Ho).
  unfold set_parent in Heq. rewrite (update_eq _ _ _ _ Hcd) in Heq.
  assert (Hg2 : good (set_obj w1 c (DIE.with_parent cd die)) /\
                extends w1 (set_obj w1 c (DIE.with_parent cd die))).
  { apply (set_parent_holds c die w1 (inr tt) _ Hg1).
    unfold set_parent. exact (update_eq w1 c cd (fun d => DIE.with_parent d die) Hcd). }
  destruct Hg2 as (Hg2 & Hext2).
  set (w2 := set_obj w1 c (DIE.with_parent cd die)) in *.
  assert (Hc2 : heap w2 !! c = Some (DIE.with_parent cd die))
    by (by eapply heap_set_obj_eq).
  rewrite (deref_eq _ _ _ Hc2) in Heq.
  destruct (DIE.is_null (DIE.with_parent cd die)) eqn:Hnull.
  - destruct (set_terminator die c w2) as [[e|[]] w3] eqn:Ht.
    + injection Heq as <- <-.
      destruct (set_terminator_holds die c _ w2 _ _ Hg2 Hc2 Hnull Ht)
        as (Hg3 & Hext3).
      split; [done|]. split; [|intros o g' [=]].
      eapply extends_trans; [exact Hext1|]. eapply extends_trans; eauto.
    + injection Heq as <- <-.
      destruct (set_terminator_holds die c _ w2 _ _ Hg2 Hc2 Hnull Ht)
        as (Hg3 & Hext3).
      split; [done|]. split.
      * eapply extends_trans; [exact Hext1|]. eapply extends_trans; eauto.
      * intros o g' [= _ <-]. exact Logic.I.
  - injection Heq as <- <-. split; [done|]. split; [eapply extends_trans; eauto|].
    intros o g' [= _ <-]. simpl. exists (DIE.with_parent cd die). split; [done|].
    destruct (I_cursor w2 c _ Hg2 Hc2) as (Hcur & _). simpl in Hcur.
    by rewrite Ho in Hcur.
Qed.

Lemma step_ok_done : step_ok (ret (None, GenDone)).
Proof.
  intros w res w' Hg [= <- <-]. split; [done|]. split; [apply extends_refl|].
  by intros o g' [= _ <-].
Qed.

Lemma step_ok_raise e : step_ok (raise e).
Proof.
  intros w res w' Hg [= <- <-]. split; [done|]. split; [apply extends_refl|].
  intros o g' [=].
Qed.

Lemma for_in_holds {A} next (body : ref -> M A) n :
  (forall g w res w', good w -> resumable w g -> next g w = (res, w') ->
     good w' /\ extends w w' /\
     (forall o g', res = inr (o, g') -> suspended w' g')) ->
  (forall c, holds (body c)) ->
  forall g w res w', good w -> resumable w g ->
    for_in next body n g w = (res, w') -> good w' /\ extends w w'.
Proof.
  intros Hnext Hbody. induction n as [|n IH]; intros g w res w' Hg Hr Heq.
  - injection Heq as <- <-. split; [done|apply extends_refl].
  - cbn [for_in] in Heq. unfold bind at 1 in Heq.
    destruct (next g w) as [[e|[o g']] w1] eqn:En.
    + injection Heq as <- <-.
      destruct (Hnext _ _ _ _ Hg Hr En) as (H1 & H2 & _). done.
    + destruct (Hnext _ _ _ _ Hg Hr En) as (Hg1 & Hext1 & Hs).
      specialize (Hs o g' eq_refl).
      destruct o as [c|].
      * unfold bind at 1 in Heq.
        destruct (body c w1) as [[e|x] w2] eqn:Eb.
        -- injection Heq as <- <-.
           destruct (Hbody c w1 _ _ Hg1 Eb) as (Hg2 & Hext2).
           split; [done|]. eapply extends_trans; eauto.
        -- destruct (Hbody c w1 _ _ Hg1 Eb) as (Hg2 & Hext2).
           unfold bind at 1 in Heq.
           destruct (for_in next body n g' w2) as [[e|xs] w3] eqn:Er.
           ++ injection Heq as <- <-.
              destruct (IH g' w2 _ _ Hg2 (suspended_resumable _ _ _ Hs Hext2) Er)
                as (Hg3 & Hext3).
              split; [done|].
              eapply extends_trans; [exact Hext1|]. eapply extends_trans; eauto.
           ++ injection Heq as <- <-.
              destruct (IH g' w2 _ _ Hg2 (suspended_resumable _ _ _ Hs Hext2) Er)
                as (Hg3 & Hext3).
              split; [done|].
              eapply extends_trans; [exact Hext1|]. eapply extends_trans; eauto.
      * injection Heq as <- <-. done.
Qed.

Lemma gen_next_holds fuel : forall g w res w',
  good w -> resumable w g -> next_child fuel g w = (res, w') ->
  good w' /\ extends w w' /\
  (forall o g', res = inr (o, g') -> suspended w' g').
Proof.
  induction fuel as [|fuel IH]; intros g w res w' Hg Hr Heq.
  { by apply (step_ok_raise RecursionError w res w'). }
  destruct g as [die|die cur child|]; cbn [gen_next] in Heq.
  - unfold bind at 1 in Heq. unfold deref in Heq.
    destruct (heap w !! die) as [d|] eqn:Hd; simpl in Heq.
    + destruct (negb (DIE.has_children d)).
      * by apply (step_ok_done w res w').
      * destruct (I_cursor w die d Hg Hd) as (Ha & _).
        by apply (fetch_child_holds die _ Ha w res w').
    + by apply (step_ok_raise (AttributeError "dangling reference") w res w').
  - unfold bind at 1 in Heq. unfold deref at 1 in Heq.
    destruct (heap w !! child) as [c|] eqn:Hc; simpl in Heq;
      [|by apply (step_ok_raise (AttributeError "dangling reference") w res w')].
    destruct (I_cursor w child c Hg Hc) as (_ & Hsib).
    unfold bind at 1 in Heq.
    match type of Heq with
    | (match ?m w with _ => _ end) = _ =>
        assert (Hcur : forall r w1, m w = (r, w1) ->
                  good w1 /\ extends w w1 /\
                  (forall z, r = inr z -> allowed z));
          [|destruct (m w) as [[e|z] w1] eqn:Em]
    end.
    { intros r w1 Em.
      destruct (negb (DIE.has_children c)).
      - injection Em as <- <-. split; [done|]. split; [apply extends_refl|].
        intros z [= <-]. by apply Hr.
      - destruct (DIE.get_attr "DW_AT_sibling" (DIE.attributes c)) as [a|] eqn:Ea.
        + rewrite sibling_offset_resolve in Em.
          destruct (resolve_sibling (tu_offset (tu w)) a) as [z|] eqn:Ez;
            injection Em as <- <-;
            (split; [done|]; split; [apply extends_refl|]).
          * intros z' [= <-]. by apply (Hsib a z).
          * intros z' [=].
        + unfold bind at 1 in Em.
          match type of Em with
          | (match ?d w with _ => _ end) = _ =>
              assert (Hd : forall r0 w0, d w = (r0, w0) ->
                             good w0 /\ extends w w0);
                [|destruct (d w) as [[e|[]] w0] eqn:Ed]
          end.
          { intros r0 w0 Ed. destruct (DIE._terminator c).
            - injection Ed as <- <-. split; [done|apply extends_refl].
            - unfold drain, bind in Ed.
              destruct (for_in (next_child fuel) (fun _ => ret tt) fuel
                               (GenStart child) w) as [[e|xs] w5] eqn:Ef;
                injection Ed as <- <-;
                apply (for_in_holds (next_child fuel) (fun _ => ret tt) fuel IH
                         (fun _ => holds_ret tt) (GenStart child) w _ _ Hg
                         Logic.I Ef). }
          { injection Em as <- <-. destruct (Hd _ _ eq_refl) as (H1 & H2).
            split; [done|]. split; [done|]. intros z [=]. }
          destruct (Hd _ _ eq_refl) as (Hg0 & Hext0).
          unfold bind at 1 in Em. unfold deref at 1 in Em.
          destruct (heap w0 !! child) as [c'|] eqn:Hc'; simpl in Em;
            [|injection Em as <- <-; split; [done|]; split; [done|];
              intros z [=]].
          unfold bind at 1 in Em.
          destruct (DIE._terminator c') as [t|]; simpl in Em;
            [|injection Em as <- <-; split; [done|]; split; [done|];
              intros z [=]].
          unfold bind at 1 in Em. unfold deref at 1 in Em.
          destruct (heap w0 !! t) as [td|] eqn:Htd; simpl in Em;
            injection Em as <- <-; (split; [done|]; split; [done|]).
          * intros z [= <-]. by destruct (I_cursor w0 t td Hg0 Htd) as (Ha & _).
          * intros z [=]. }
    + injection Heq as <- <-. destruct (Hcur _ _ eq_refl) as (H1 & H2 & _).
      split; [done|]. split; [done|]. intros o g' [=].
    + destruct (Hcur _ _ eq_refl) as (Hg1 & Hext1 & Ha).
      destruct (fetch_child_holds die z (Ha z eq_refl) w1 res w' Hg1 Heq)
        as (Hg2 & Hext2 & Hs).
      split; [done|]. split; [eapply extends_trans; eauto|done].
  - by apply (step_ok_done w res w').
Qed.

Lemma holds_iter_DIE_children fuel die :
  holds (iter_DIE_children DIE_parse translate_indirect fuel die).
Proof.
  intros w res w' Hg Heq.
  apply (for_in_holds (next_child fuel) (fun c => ret c) fuel
           (gen_next_holds fuel) (fun c => holds_ret c) (GenStart die) w _ _ Hg
           Logic.I Heq).
Qed.

Lemma holds_next fuel g w :
  resumable w g -> forall res w', good w ->
  next_child fuel g w = (res, w') -> good w' /\ extends w w'.
Proof.
  intros Hr res w' Hg Heq.
  destruct (gen_next_holds fuel g w res w' Hg Hr Heq) as (H1 & H2 & _). done.
Qed.

Lemma holds_iter_DIE_subtree fuel : forall die,
  holds (_iter_DIE_subtree DIE_parse translate_indirect supplementary_dwarfinfo
                           get_DIE_from_attribute fuel die).
Proof.
  induction fuel as [|fuel IH]; intros die; [apply holds_raise|].
  cbn [_iter_DIE_subtree].
  apply holds_bind; [apply holds_deref|]. intros d0.
  apply holds_bind.
  { destruct (_ && _); [apply I_import|apply holds_ret]. }
  intros die'. apply holds_bind; [apply holds_deref|]. intros d.
  destruct (DIE.has_children d); [|apply holds_ret].
  apply holds_bind.
  { unfold for_children. apply holds_bind; [|intros; apply holds_ret].
    intros w res w' Hg Heq.
    apply (for_in_holds (next_child fuel) _ fuel (gen_next_holds fuel) IH
             (GenStart die') w _ _ Hg Logic.I Heq). }
  intros cs. apply holds_bind; [apply holds_deref|]. intros d'. apply holds_ret.
Qed.

Lemma holds_iter_DIEs fuel :
  holds (iter_DIEs DIE_parse translate_indirect supplementary_dwarfinfo
                   get_DIE_from_attribute fuel).
Proof.
  apply holds_bind; [apply holds_get_top_DIE|]. intros t.
  apply holds_iter_DIE_subtree.
Qed.

(** *** Any sequence of calls *)

Variable dwarfinfo_get_abbrev_table : Z -> exception + Z.
Hypothesis I_abbrev : forall w a, good w -> I (set_abbrev_table w a).

(** The calls whose arguments the invariant admits, whatever the state. *)
Variable admitted : call -> Prop.
Hypothesis admitted_lookup : forall off,
  admitted (call_get_cached_DIE off) -> allowed off.
Hypothesis admitted_next : forall fuel g w,
  admitted (call_next fuel g) -> good w -> resumable w g.

Abbreviation after_call :=
  (after DIE_parse translate_indirect supplementary_dwarfinfo
         get_DIE_from_attribute dwarfinfo_get_abbrev_table).
Abbreviation after_calls :=
  (after_all DIE_parse translate_indirect supplementary_dwarfinfo
             get_DIE_from_attribute dwarfinfo_get_abbrev_table).

Lemma holds_snd {A} (m : M A) w :
  holds m -> good w -> good (snd (m w)) /\ extends w (snd (m w)).
Proof. intros Hk Hg. exact (Hk w _ _ Hg (surjective_pairing _)). Qed.

Lemma holds_get_abbrev_table :
  holds (get_abbrev_table dwarfinfo_get_abbrev_table).
Proof.
  intros w res w' Hg Heq.
  destruct (keeps_get_abbrev_table dwarfinfo_get_abbrev_table w _ _ (proj1 Hg) Heq)
    as (Hinv' & Hext).
  split; [|done]. split; [done|].
  unfold get_abbrev_table, bind, gets in Heq.
  destruct (_abbrev_table (tu w)).
  - injection Heq as <- <-. apply Hg.
  - destruct (dwarfinfo_get_abbrev_table _) as [e|a]; simpl in Heq;
      injection Heq as <- <-; [apply Hg|by apply I_abbrev].
Qed.

Lemma after_good c w :
  good w -> admitted c -> good (after_call c w) /\ extends w (after_call c w).
Proof.
  intros Hg Hc. destruct c; cbn [after].
  - apply holds_snd; [apply holds_get_abbrev_table|done].
  - apply holds_snd; [apply holds_get_top_DIE|done].
  - apply holds_snd; [|done]. apply holds_bind; [apply holds_gets|].
    intros dm. apply holds_ret.
  - apply holds_snd; [apply holds_iter_DIEs|done].
  - apply holds_snd; [apply holds_iter_DIE_children|done].
  - apply (holds_next fuel g w (admitted_next fuel g w Hc Hg) _ _ Hg
             (surjective_pairing _)).
  - apply holds_snd; [apply holds_get_DIE_from_refaddr|done].
  - apply holds_snd; [apply holds_iter_DIE_subtree|done].
  - apply holds_snd; [|done]. apply holds_get_cached_DIE.
    by apply admitted_lookup.
Qed.

Lemma after_all_good cs : forall w,
  good w -> Forall admitted cs ->
  good (after_calls cs w) /\ extends w (after_calls cs w).
Proof.
  induction cs as [|c cs IH]; intros w Hg Hcs; simpl.
  - split; [done|apply extends_refl].
  - apply Forall_cons in Hcs as [Hc Hcs].
    destruct (after_good c w Hg Hc) as (H1 & E1).
    destruct (IH _ H1 Hcs) as (H2 & E2). split; [done|].
    eapply extends_trans; eauto.
Qed.

End Invariant.

(** ** Without a supplementary file nothing is imported *)

Lemma for_in_ext {A} next (body body' : ref -> M A) n :
  (forall c w, body c w = body' c w) ->
  forall g w, for_in next body n g w = for_in next body' n g w.
Proof.
  intros Hb. induction n as [|n IH]; intros g w; [done|].
  cbn [for_in]. unfold bind.
  destruct (next g w) as [[e|[[c|] g']] w1]; try done.
  rewrite Hb. destruct (body' c w1) as [[e|x] w2]; [done|].
  by rewrite IH.
Qed.

Section NoSupplementary.

Variable DIE_parse : Z -> exception + DIE.parsed.
Variable translate_indirect :
  list (string * DIE.AttributeValue) ->
  exception + list (string * DIE.AttributeValue).
Variables import import' : ref -> string -> M ref.
Variable dwarfinfo_get_abbrev_table : Z -> exception + Z.

(** The walk never calls [get_DIE_from_attribute] when
    [supplementary_dwarfinfo] is false. *)
Lemma iter_DIE_subtree_no_import fuel : forall die w,
  _iter_DIE_subtree DIE_parse translate_indirect false import fuel die w =
  _iter_DIE_subtree DIE_parse translate_indirect false import' fuel die w.
Proof.
  induction fuel as [|fuel IH]; intros die w; [done|].
  cbn [_iter_DIE_subtree]. unfold bind.
  destruct (deref die w) as [[e|d0] w1]; [done|].
  rewrite andb_false_r.
  destruct (ret die w1) as [[e|die'] w2]; [done|].
  destruct (deref die' w2) as [[e|d] w3]; [done|].
  destruct (DIE.has_children d); [|done].
  unfold for_children, bind.
  by rewrite (for_in_ext _ _ _ fuel (IH)).
Qed.

Lemma after_no_import c w :
  after DIE_parse translate_indirect false import dwarfinfo_get_abbrev_table c w =
  after DIE_parse translate_indirect false import' dwarfinfo_get_abbrev_table c w.
Proof.
  destruct c; cbn [after]; try done.
  - unfold iter_DIEs, bind.
    destruct (get_top_DIE DIE_parse translate_indirect w) as [[e|t] w1]; [done|].
    by rewrite iter_DIE_subtree_no_import.
  - by rewrite iter_DIE_subtree_no_import.
Qed.

Lemma after_all_no_import cs : forall w,
  after_all DIE_parse translate_indirect false import
            dwarfinfo_get_abbrev_table cs w =
  after_all DIE_parse translate_indirect false import'
            dwarfinfo_get_abbrev_table cs w.
Proof.
  induction cs as [|c cs IH]; intros w; [done|].
  simpl. rewrite after_no_import. apply IH.
Qed.

End NoSupplementary.

(** ** The top entry is cached whenever anything is *)

Lemma top_cached_cached w :
  cache_inv w -> _diemap (tu w) <> [] -> top_cached w ->
  exists t, cached w (tu_die_offset (tu w)) t.
Proof.
  intros Hinv Hne [?|(j & Hj)]; [done|].
  destruct (lookup_lt_is_Some_2 (_dielist (tu w)) j) as (t & Ht).
  { rewrite (inv_len w Hinv). eapply lookup_lt_Some; eauto. }
  exists t, j. done.
Qed.

Lemma top_cached_extends w w' :
  cache_inv w -> _diemap (tu w) <> [] -> top_cached w -> extends w w' ->
  top_cached w'.
Proof.
  intros Hinv Hne Htc Hext.
  destruct (top_cached_cached w Hinv Hne Htc) as (t & Hc).
  apply (ext_cached _ _ Hext) in Hc as (j & Hj & _).
  destruct Hext as [(_ & _ & _ & E) _ _]. right. exists j. by rewrite <- E.
Qed.

Section TopCached.

Variable DIE_parse : Z -> exception + DIE.parsed.
Variable translate_indirect :
  list (string * DIE.AttributeValue) ->
  exception + list (string * DIE.AttributeValue).
Variable supplementary_dwarfinfo : bool.
Variable get_DIE_from_attribute : ref -> string -> M ref.
Variable dwarfinfo_get_abbrev_table : Z -> exception + Z.

Abbreviation get_top := (get_top_DIE DIE_parse translate_indirect).
Abbreviation get_cached := (_get_cached_DIE DIE_parse translate_indirect).

Lemma top_cached_get_top_DIE w res w' :
  good top_cached w -> get_top w = (res, w') -> top_cached w'.
Proof.
  intros [Hinv Htc] Heq.
  pose proof (get_top_DIE_outcome DIE_parse translate_indirect w Hinv) as Hout.
  rewrite Heq in Hout.
  inversion Hout as [r Hne Hr|e Hn Hp|p e Hn Hp Ht|p a Hn Hp Ht]; subst;
    try done; right; by exists 0%nat.
Qed.

Lemma top_cached_get_cached_DIE off w res w' :
  good top_cached w -> get_cached off w = (res, w') -> top_cached w'.
Proof.
  intros [Hinv Htc] Heq.
  rewrite (get_cached_DIE_unfold DIE_parse translate_indirect w off Hinv) in Heq.
  destruct (get_top w) as [[e|t] w1] eqn:Htop.
  - injection Heq as <- <-. by eapply top_cached_get_top_DIE.
  - pose proof (top_cached_get_top_DIE w _ _ (conj Hinv Htc) Htop) as Htc1.
    destruct (get_top_DIE_inv DIE_parse translate_indirect w _ _ Hinv Htop)
      as (Hinv1 & _ & _ & _ & Hr).
    destruct (Hr t eq_refl) as (Hne & _).
    destruct (keeps_get_cached_DIE DIE_parse translate_indirect off w1 _ _ Hinv1 Heq)
      as (_ & Hext).
    by eapply top_cached_extends.
Qed.

Hypothesis import_holds :
  forall r name, holds top_cached (get_DIE_from_attribute r name).

(** X15: "the top die must be in the cache if any DIE is in the cache".
    In every state a client can reach from a new unit, whatever the
    stream holds and whatever was looked up, either nothing is cached or
    the DIE of the top offset is: when [has_top_DIE] answers true, the
    top DIE has been parsed and sits in the cache under its offset. *)
Theorem top_entry_cached_whenever_any (cs : list call) h s tu_off tu_die_off :
  let w := after_all DIE_parse translate_indirect supplementary_dwarfinfo
                     get_DIE_from_attribute dwarfinfo_get_abbrev_table cs
                     (new_world (TypeUnit_init h s tu_off tu_die_off)) in
  (_diemap (tu w) = [] \/
   exists j t d, _diemap (tu w) !! j = Some tu_die_off /\
                 _dielist (tu w) !! j = Some t /\
                 heap w !! t = Some d /\ DIE.offset d = tu_die_off) /\
  (has_top_DIE w = (inr true, w) -> exists j, _diemap (tu w) !! j = Some tu_die_off).
Proof.
  intros w.
  assert (Hgood : good top_cached w /\
                  extends (new_world (TypeUnit_init h s tu_off tu_die_off)) w).
  { apply (after_all_good DIE_parse translate_indirect supplementary_dwarfinfo
             get_DIE_from_attribute top_cached (fun _ => True)
             (fun w0 r d die Hg _ => proj2 Hg)
             (fun w0 r d c cd Hg _ _ _ => proj2 Hg)
             top_cached_get_top_DIE
             (fun off w0 res w' Hg _ Heq => top_cached_get_cached_DIE off w0 res w' Hg Heq)
             (fun w0 r d _ _ => conj Logic.I (fun _ _ _ _ => Logic.I))
             (fun _ _ _ _ => Logic.I)
             import_holds dwarfinfo_get_abbrev_table
             (fun w0 a Hg => proj2 Hg)
             (fun _ => True) (fun _ _ => Logic.I)).
    - intros fuel g w0 _ _. by destruct g.
    - split; [by apply cache_inv_new|by left].
    - by apply Forall_true. }
  destruct Hgood as ((Hinv & Htc) & Hext).
  { assert (Htu : tu_die_offset (tu w) = tu_die_off).
    { destruct Hext as [(_ & _ & _ & E) _ _]. by rewrite <- E. }
    assert (Hcase : _diemap (tu w) = [] \/
              exists j t d, _diemap (tu w) !! j = Some tu_die_off /\
                            _dielist (tu w) !! j = Some t /\
                            heap w !! t = Some d /\ DIE.offset d = tu_die_off).
    { destruct (_diemap (tu w)) as [|o dm] eqn:E; [by left|right].
      destruct (top_cached_cached w Hinv) as (t & j & Hj & Ht);
        [by rewrite E|done|].
      rewrite Htu in Hj. rewrite E in Hj.
      destruct (inv_obj w Hinv j tu_die_off t) as (d & Hd & Ho);
        [by rewrite E|done|].
      exists j, t, d. done. }
    split; [exact Hcase|].
    intros Hhas. unfold has_top_DIE, bind, gets in Hhas.
    destruct Hcase as [E|(j & t & d & Hj & _)]; [by rewrite E in Hhas|eauto]. }
Qed.

End TopCached.

(** ** When the top entry stays first *)

Section TopFirst.

Variable DIE_parse : Z -> exception + DIE.parsed.
Variable translate_indirect :
  list (string * DIE.AttributeValue) ->
  exception + list (string * DIE.AttributeValue).
Variable get_DIE_from_attribute : ref -> string -> M ref.
Variable dwarfinfo_get_abbrev_table : Z -> exception + Z.
Variables base top : Z.

Abbreviation get_top := (get_top_DIE DIE_parse translate_indirect).
Abbreviation get_cached := (_get_cached_DIE DIE_parse translate_indirect).

(** A sibling attribute among [attrs], if it resolves, resolves to an
    offset that is not below the top offset. *)
Definition forward (attrs : list (string * DIE.AttributeValue)) : Prop :=
  forall a z, DIE.get_attr "DW_AT_sibling" attrs = Some a ->
              resolve_sibling base a = Some z -> top <= z.

(** The unit of this base and top offset holds the top entry first, and
    every DIE object lies at or above the top offset, has a size that is
    not negative and a sibling reference that is not below the top
    offset. *)
Definition in_order (w : World) : Prop :=
  top_first w /\ tu_offset (tu w) = base /\ tu_die_offset (tu w) = top /\
  forall r d, heap w !! r = Some d ->
    top <= DIE.offset d /\ 0 <= DIE.size d /\ forward (DIE.attributes d).

(** The calls of a client that stays inside the unit. *)
Definition inside_unit (c : call) : Prop :=
  match c with
  | call_get_cached_DIE off => top <= off
  | call_next _ (GenYielded _ cur _) => top <= cur
  | _ => True
  end.

(** The stream: no entry has a negative size or a sibling reference
    that points below the top offset, before or after the translation
    of the top entry's attributes. *)
Hypothesis sizes : forall off p, DIE_parse off = inr p -> 0 <= DIE.p_size p.
Hypothesis siblings : forall off p,
  DIE_parse off = inr p -> forward (DIE.p_attributes p).
Hypothesis translated : forall p attrs,
  DIE_parse top = inr p -> translate_indirect (DIE.p_attributes p) = inr attrs ->
  forward attrs.

Lemma in_order_new_object w i off p :
  in_order w -> top <= off -> DIE_parse off = inr p ->
  top_first (alloc_insert w i off p) ->
  in_order (alloc_insert w i off p).
Proof.
  intros (Htf & Hb & Ht & Hobj) Hoff Hp Htf'.
  split; [done|]. split; [done|]. split; [done|].
  intros r d Hd. simpl in Hd.
  apply lookup_app_Some in Hd as [Hd|[_ Hd]]; [by apply (Hobj r)|].
  apply list_lookup_singleton_Some in Hd as [_ <-]. simpl.
  split; [done|]. split; [by eapply sizes|by eapply siblings].
Qed.

Lemma in_order_set_obj w r d d' :
  in_order w -> heap w !! r = Some d -> same_entry d d' ->
  forward (DIE.attributes d') -> in_order (set_obj w r d').
Proof.
  intros (Htf & Hb & Ht & Hobj) Hd (So & _ & _ & Ssz) Ha.
  split; [done|]. split; [done|]. split; [done|].
  intros r0 d0 Hd0. simpl in Hd0.
  destruct (decide (r0 = r)) as [->|Hne].
  - rewrite list_lookup_insert_eq in Hd0 by (eapply lookup_lt_Some; eauto).
    injection Hd0 as <-. destruct (Hobj r d Hd) as (H1 & H2 & _).
    rewrite <- So, <- Ssz. done.
  - rewrite list_lookup_insert_ne in Hd0 by done. by apply (Hobj r0).
Qed.

Lemma in_order_get_top_DIE w res w' :
  good in_order w -> get_top w = (res, w') -> in_order w'.
Proof.
  intros [Hinv Hio] Heq.
  pose proof (get_top_DIE_outcome DIE_parse translate_indirect w Hinv) as Hout.
  rewrite Heq in Hout.
  assert (Htop : tu_die_offset (tu w) = top) by apply Hio.
  inversion Hout as [r Hne Hr|e Hn Hp|p e Hn Hp Ht|p a Hn Hp Ht]; subst;
    try done.
  - rewrite Htop in *. apply in_order_new_object; [done|lia|done|].
    right. simpl. by rewrite ?Hn, ?Htop.
  - rewrite Htop in *.
    assert (Hio1 : in_order (alloc_insert w 0 top p)).
    { apply in_order_new_object; [done|lia|done|].
      right. simpl. by rewrite ?Hn, ?Htop. }
    eapply in_order_set_obj; [exact Hio1|apply heap_alloc_insert_new| |].
    + by repeat split.
    + simpl. by eapply translated.
Qed.

Lemma in_order_get_cached_DIE off w res w' :
  good in_order w -> top <= off -> get_cached off w = (res, w') -> in_order w'.
Proof.
  intros [Hinv Hio] Hoff Heq.
  rewrite (get_cached_DIE_unfold DIE_parse translate_indirect w off Hinv) in Heq.
  destruct (get_top w) as [[e|t] w1] eqn:Htop.
  - injection Heq as <- <-. by eapply in_order_get_top_DIE.
  - pose proof (in_order_get_top_DIE w _ _ (conj Hinv Hio) Htop) as Hio1.
    destruct (get_top_DIE_inv DIE_parse translate_indirect w _ _ Hinv Htop)
      as (Hinv1 & _ & _ & _ & Hr).
    destruct (Hr t eq_refl) as (Hne & _).
    pose proof (get_cached_DIE_outcome DIE_parse translate_indirect w1 off Hinv1 Hne)
      as Hout.
    rewrite Heq in Hout.
    inversion Hout as [r Hhit|e Hnew Hp|p Hnew Hp]; subst; try done.
    apply in_order_new_object; [done|done|done|].
    apply top_first_alloc_insert; [done|apply Hio1|done|].
    destruct Hio1 as (_ & _ & -> & _). done.
Qed.

(** X16: with no supplementary file configured, when no entry of the
    stream has a negative size or a sibling reference that points below
    the top offset, the top entry stays first.  In every state a client
    reaches from a new unit by calls that stay inside the unit, position
    0 of the cache holds the top offset, no cached offset is below it,
    and [get_top_DIE] returns the DIE of the top offset. *)
Theorem top_entry_stays_first (cs : list call) h s :
  Forall inside_unit cs ->
  let w := after_all DIE_parse translate_indirect false
                     get_DIE_from_attribute dwarfinfo_get_abbrev_table cs
                     (new_world (TypeUnit_init h s base top)) in
  top_first w /\
  (forall i o, _diemap (tu w) !! i = Some o -> top <= o) /\
  (_diemap (tu w) <> [] ->
   exists t d, get_top w = (inr t, w) /\ _dielist (tu w) !! 0%nat = Some t /\
               heap w !! t = Some d /\ DIE.offset d = top).
Proof.
  intros Hcs w.
  assert (H1 : forall w0 r d d',
            good in_order w0 -> heap w0 !! r = Some d -> same_entry d d' ->
            DIE.attributes d' = DIE.attributes d -> in_order (set_obj w0 r d')).
  { intros w0 r d d' [_ Hio] Hd Hs Ha.
    eapply in_order_set_obj; eauto. rewrite Ha.
    destruct Hio as (_ & _ & _ & Hobj). by destruct (Hobj r d Hd) as (_ & _ & ?). }
  assert (H1p : forall w0 r d die,
            good in_order w0 -> heap w0 !! r = Some d ->
            in_order (set_obj w0 r (DIE.with_parent d die))).
  { intros w0 r d die Hg Hd. by apply (H1 w0 r d). }
  assert (H1t : forall w0 r d c cd,
            good in_order w0 -> heap w0 !! r = Some d ->
            heap w0 !! c = Some cd -> DIE.is_null cd = true ->
            in_order (set_obj w0 r (DIE.with_terminator d c))).
  { intros w0 r d c cd Hg Hd _ _. by apply (H1 w0 r d). }
  assert (H4 : forall w0 r d,
            good in_order w0 -> heap w0 !! r = Some d ->
            top <= DIE.offset d + DIE.size d /\
            (forall a z, DIE.get_attr "DW_AT_sibling" (DIE.attributes d) = Some a ->
                         resolve_sibling (tu_offset (tu w0)) a = Some z -> top <= z)).
  { intros w0 r d [_ (_ & Hb & _ & Hobj)] Hd.
    destruct (Hobj r d Hd) as (Ho & Hsz & Hf). split; [lia|].
    intros a z Ha Hz. rewrite Hb in Hz. by apply (Hf a z). }
  assert (H5 : forall w0 refaddr,
            good in_order w0 -> cu_die_offset (tu w0) <= refaddr -> top <= refaddr).
  { intros w0 refaddr [_ (_ & _ & Ht & _)] Hr. unfold cu_die_offset in Hr. lia. }
  assert (H8 : forall fuel g w0,
            inside_unit (call_next fuel g) -> good in_order w0 ->
            resumable (fun off => top <= off) w0 g).
  { intros fuel g w0 Hc [_ (_ & _ & _ & Hobj)].
    destruct g as [|die cur c|]; simpl; try done.
    intros cd Hcd. destruct (Hobj c cd Hcd) as (_ & Hsz & _). simpl in Hc. lia. }
  assert (Hgood : good in_order w /\
                  extends (new_world (TypeUnit_init h s base top)) w).
  { unfold w.
    rewrite (after_all_no_import DIE_parse translate_indirect
               get_DIE_from_attribute (fun _ _ => raise RecursionError)).
    apply (after_all_good DIE_parse translate_indirect false
             (fun _ _ => raise RecursionError) in_order (fun off => top <= off)
             H1p H1t in_order_get_top_DIE
             (fun off w0 res w' Hg Ha Heq =>
                in_order_get_cached_DIE off w0 res w' Hg Ha Heq)
             H4 H5 (fun r name => holds_raise in_order RecursionError)
             dwarfinfo_get_abbrev_table
             (fun w0 a Hg => proj2 Hg)
             inside_unit (fun off Hc => Hc) H8); [|done].
    split; [by apply cache_inv_new|].
    split; [by left|]. split; [done|]. split; [done|].
    intros r d Hd. simpl in Hd. by destruct r. }
  destruct Hgood as ((Hinv & Hio) & Hext).
  destruct Hio as (Htf & Hb & Ht & Hobj).
  split; [done|]. split.
  - intros i o Hi.
    destruct (lookup_lt_is_Some_2 (_dielist (tu w)) i) as (r & Hr).
    { rewrite (inv_len w Hinv). eapply lookup_lt_Some; eauto. }
    destruct (inv_obj w Hinv i o r Hi Hr) as (d & Hd & <-).
    by destruct (Hobj r d Hd).
  - intros Hne. destruct Htf as [?|Htf]; [done|].
    destruct (get_top_DIE_nonempty DIE_parse translate_indirect w Hinv Hne)
      as (t & Ht0 & Hget).
    destruct (inv_obj w Hinv 0%nat _ t Htf Ht0) as (d & Hd & Ho).
    exists t, d. rewrite Ho, Ht. done.
Qed.

End TopFirst.

(** ** One object for an offset *)

(** Every DIE object is filed in the cache under its offset. *)
Definition all_cached (w : World) : Prop :=
  forall r d, heap w !! r = Some d -> cached w (DIE.offset d) r.

Lemma all_cached_alloc_insert w off p :
  cache_inv w -> all_cached w ->
  all_cached (alloc_insert w (bisect_right (_diemap (tu w)) off) off p).
Proof.
  intros Hinv Hall r d Hd.
  pose proof (inv_asc w Hinv) as A.
  destruct (bisect_right_spec _ off A) as (Hi & _).
  simpl in Hd. apply lookup_app_Some in Hd as [Hd|[Hge Hd]].
  - apply cached_alloc_insert; [done|done|]. by apply Hall.
  - apply list_lookup_singleton_Some in Hd as [Hr <-].
    assert (r = length (heap w)) by lia. subst r.
    by apply cached_alloc_insert_new.
Qed.

Lemma all_cached_set_obj w r d d' :
  all_cached w -> heap w !! r = Some d -> DIE.offset d' = DIE.offset d ->
  all_cached (set_obj w r d').
Proof.
  intros Hall Hd Ho r0 d0 Hd0. simpl in Hd0.
  destruct (decide (r0 = r)) as [->|Hne].
  - rewrite list_lookup_insert_eq in Hd0 by (eapply lookup_lt_Some; eauto).
    injection Hd0 as <-. rewrite Ho. by apply (Hall r d).
  - rewrite list_lookup_insert_ne in Hd0 by done. by apply (Hall r0 d0).
Qed.

Section OneObject.

Variable DIE_parse : Z -> exception + DIE.parsed.
Variable translate_indirect :
  list (string * DIE.AttributeValue) ->
  exception + list (string * DIE.AttributeValue).
Variable get_DIE_from_attribute : ref -> string -> M ref.
Variable dwarfinfo_get_abbrev_table : Z -> exception + Z.

Abbreviation get_top := (get_top_DIE DIE_parse translate_indirect).
Abbreviation get_cached := (_get_cached_DIE DIE_parse translate_indirect).

Lemma all_cached_get_top_DIE w res w' :
  good all_cached w -> get_top w = (res, w') -> all_cached w'.
Proof.
  intros [Hinv Hall] Heq.
  pose proof (get_top_DIE_outcome DIE_parse translate_indirect w Hinv) as Hout.
  rewrite Heq in Hout.
  assert (Hai : forall p, _diemap (tu w) = [] ->
            all_cached (alloc_insert w 0 (tu_die_offset (tu w)) p)).
  { intros p Hn.
    pose proof (all_cached_alloc_insert w (tu_die_offset (tu w)) p Hinv Hall) as H.
    by rewrite Hn, bisect_right_nil in H. }
  inversion Hout as [r Hne Hr|e Hn Hp|p e Hn Hp Ht|p a Hn Hp Ht]; subst;
    try done; [by apply Hai|].
  eapply all_cached_set_obj; [by apply Hai|apply heap_alloc_insert_new|done].
Qed.

Lemma all_cached_get_cached_DIE off w res w' :
  good all_cached w -> get_cached off w = (res, w') -> all_cached w'.
Proof.
  intros [Hinv Hall] Heq.
  rewrite (get_cached_DIE_unfold DIE_parse translate_indirect w off Hinv) in Heq.
  destruct (get_top w) as [[e|t] w1] eqn:Htop.
  - injection Heq as <- <-. by eapply all_cached_get_top_DIE.
  - pose proof (all_cached_get_top_DIE w _ _ (conj Hinv Hall) Htop) as Hall1.
    destruct (get_top_DIE_inv DIE_parse translate_indirect w _ _ Hinv Htop)
      as (Hinv1 & _ & _ & _ & Hr).
    destruct (Hr t eq_refl) as (Hne & _).
    pose proof (get_cached_DIE_outcome DIE_parse translate_indirect w1 off Hinv1 Hne)
      as Hout.
    rewrite Heq in Hout.
    inversion Hout as [r Hhit|e Hnew Hp|p Hnew Hp]; subst; try done.
    by apply all_cached_alloc_insert.
Qed.

(** X17: with no supplementary file configured, no offset is ever
    parsed into two objects.  In every state a client can reach from a
    new unit, whatever the stream holds, each DIE object the unit created
    is in the cache under its offset, two different objects have
    different offsets, and there are as many objects as cache entries. *)
Theorem one_object_per_offset (cs : list call) h s tu_off tu_die_off :
  let w := after_all DIE_parse translate_indirect false
                     get_DIE_from_attribute dwarfinfo_get_abbrev_table cs
                     (new_world (TypeUnit_init h s tu_off tu_die_off)) in
  (forall r d, heap w !! r = Some d ->
     exists i, _diemap (tu w) !! i = Some (DIE.offset d) /\
               _dielist (tu w) !! i = Some r) /\
  (forall r r' d d', heap w !! r = Some d -> heap w !! r' = Some d' ->
                     DIE.offset d = DIE.offset d' -> r = r') /\
  length (heap w) = length (_diemap (tu w)).
Proof.
  intros w.
  assert (Hgood : good all_cached w /\
                  extends (new_world (TypeUnit_init h s tu_off tu_die_off)) w).
  { unfold w.
    rewrite (after_all_no_import DIE_parse translate_indirect
               get_DIE_from_attribute (fun _ _ => raise RecursionError)).
    apply (after_all_good DIE_parse translate_indirect false
             (fun _ _ => raise RecursionError) all_cached (fun _ => True)
             (fun w0 r d die Hg Hd =>
                all_cached_set_obj w0 r d (DIE.with_parent d die) (proj2 Hg) Hd
                                   eq_refl)
             (fun w0 r d c cd Hg Hd _ _ =>
                all_cached_set_obj w0 r d (DIE.with_terminator d c) (proj2 Hg) Hd
                                   eq_refl)
             all_cached_get_top_DIE
             (fun off w0 res w' Hg _ Heq => all_cached_get_cached_DIE off w0 res w' Hg Heq)
             (fun w0 r d _ _ => conj Logic.I (fun _ _ _ _ => Logic.I))
             (fun _ _ _ _ => Logic.I)
             (fun r name => holds_raise all_cached RecursionError)
             dwarfinfo_get_abbrev_table
             (fun w0 a Hg => proj2 Hg)
             (fun _ => True) (fun _ _ => Logic.I)).
    - intros fuel g w0 _ _. by destruct g.
    - split; [by apply cache_inv_new|]. intros r d Hd. simpl in Hd. by destruct r.
    - by apply Forall_true. }
  destruct Hgood as ((Hinv & Hall) & _).
  assert (Hfun : forall r r' d d', heap w !! r = Some d -> heap w !! r' = Some d' ->
                                   DIE.offset d = DIE.offset d' -> r = r').
  { intros r r' d d' Hd Hd' Ho.
    pose proof (Hall r d Hd) as Hc. pose proof (Hall r' d' Hd') as Hc'.
    rewrite Ho in Hc. by eapply cached_fun. }
  split; [exact Hall|]. split; [exact Hfun|].
  rewrite <- (inv_len w Hinv). apply Nat.le_antisymm.
  - assert (Hnd : NoDup (seq 0 (length (heap w)))) by apply NoDup_seq.
    assert (Hsub : forall r, r ∈ seq 0 (length (heap w)) -> r ∈ _dielist (tu w)).
    { intros r Hr. apply elem_of_seq in Hr.
      destruct (lookup_lt_is_Some_2 (heap w) r) as (d & Hd); [lia|].
      destruct (Hall r d Hd) as (i & _ & Hi). by eapply list_elem_of_lookup_2. }
    pose proof (submseteq_length _ _ (NoDup_submseteq _ _ Hnd Hsub)) as Hle.
    by rewrite length_seq in Hle.
  - assert (Hnd : NoDup (_dielist (tu w))).
    { apply NoDup_alt. intros i j r Hi Hj.
      destruct (lookup_lt_is_Some_2 (_diemap (tu w)) i) as (o & Ho).
      { rewrite <- (inv_len _ Hinv). eapply lookup_lt_Some; eauto. }
      destruct (lookup_lt_is_Some_2 (_diemap (tu w)) j) as (o' & Ho').
      { rewrite <- (inv_len _ Hinv). eapply lookup_lt_Some; eauto. }
      destruct (inv_obj _ Hinv i o r Ho Hi) as (d & Hd & Hod).
      destruct (inv_obj _ Hinv j o' r Ho' Hj) as (d' & Hd' & Hod').
      assert (d' = d) by congruence. subst d'.
      eapply ascending_inj; [apply (inv_asc _ Hinv)|exact Ho|]. congruence. }
    assert (Hsub : forall r, r ∈ _dielist (tu w) -> r ∈ seq 0 (length (heap w))).
    { intros r Hr. apply list_elem_of_lookup_1 in Hr as (i & Hi).
      destruct (lookup_lt_is_Some_2 (_diemap (tu w)) i) as (o & Ho).
      { rewrite <- (inv_len _ Hinv). eapply lookup_lt_Some; eauto. }
      destruct (inv_obj _ Hinv i o r Ho Hi) as (d & Hd & _).
      apply elem_of_seq. apply lookup_lt_Some in Hd. lia. }
    pose proof (submseteq_length _ _ (NoDup_submseteq _ _ Hnd Hsub)) as Hle.
    by rewrite length_seq in Hle.
Qed.

End OneObject.

(** ** Recorded terminators *)

(** A recorded terminator is an object, and a null DIE. *)
Definition terminators_null (w : World) : Prop :=
  forall r d t, heap w !! r = Some d -> DIE._terminator d = Some t ->
    exists td, heap w !! t = Some td /\ DIE.is_null td = true.

Lemma null_after_set_obj w r d d' t td :
  heap w !! r = Some d -> DIE.tag d' = DIE.tag d ->
  heap w !! t = Some td -> DIE.is_null td = true ->
  exists td', heap (set_obj w r d') !! t = Some td' /\ DIE.is_null td' = true.
Proof.
  intros Hd Htag Htd Hn. destruct (decide (t = r)) as [->|Hne].
  - exists d'. split; [by eapply heap_set_obj_eq|].
    assert (td = d) by congruence. subst td.
    unfold DIE.is_null in *. by rewrite Htag.
  - exists td. simpl. by rewrite list_lookup_insert_ne.
Qed.

Lemma terminators_null_set_obj w r d d' :
  terminators_null w -> heap w !! r = Some d -> DIE.tag d' = DIE.tag d ->
  (forall t, DIE._terminator d' = Some t ->
     exists td, heap w !! t = Some td /\ DIE.is_null td = true) ->
  terminators_null (set_obj w r d').
Proof.
  intros Hall Hd Htag Hterm r0 d0 t Hd0 Ht. simpl in Hd0.
  destruct (decide (r0 = r)) as [->|Hne].
  - rewrite list_lookup_insert_eq in Hd0 by (eapply lookup_lt_Some; eauto).
    injection Hd0 as <-. destruct (Hterm t Ht) as (td & Htd & Hn).
    by eapply null_after_set_obj.
  - rewrite list_lookup_insert_ne in Hd0 by done.
    destruct (Hall r0 d0 t Hd0 Ht) as (td & Htd & Hn).
    by eapply null_after_set_obj.
Qed.

Lemma terminators_null_alloc_insert w i off p :
  terminators_null w -> terminators_null (alloc_insert w i off p).
Proof.
  intros Hall r d t Hd Ht. simpl in Hd.
  apply lookup_app_Some in Hd as [Hd|[_ Hd]].
  - destruct (Hall r d t Hd Ht) as (td & Htd & Hn). exists td.
    split; [|done]. simpl. by apply lookup_app_l_Some.
  - apply list_lookup_singleton_Some in Hd as [_ <-]. done.
Qed.

Section Terminators.

Variable DIE_parse : Z -> exception + DIE.parsed.
Variable translate_indirect :
  list (string * DIE.AttributeValue) ->
  exception + list (string * DIE.AttributeValue).
Variable supplementary_dwarfinfo : bool.
Variable get_DIE_from_attribute : ref -> string -> M ref.
Variable dwarfinfo_get_abbrev_table : Z -> exception + Z.

Abbreviation get_top := (get_top_DIE DIE_parse translate_indirect).
Abbreviation get_cached := (_get_cached_DIE DIE_parse translate_indirect).
Abbreviation from_refaddr := (get_DIE_from_refaddr DIE_parse translate_indirect).
Abbreviation fetch := (fetch_child DIE_parse translate_indirect).
Abbreviation next_child := (gen_next DIE_parse translate_indirect).
Abbreviation children := (iter_DIE_children DIE_parse translate_indirect).
Abbreviation subtree :=
  (_iter_DIE_subtree DIE_parse translate_indirect supplementary_dwarfinfo
                     get_DIE_from_attribute).
Abbreviation all_DIEs :=
  (iter_DIEs DIE_parse translate_indirect supplementary_dwarfinfo
             get_DIE_from_attribute).

(** The cache invariant, with the terminators null. *)
Abbreviation sound := (good terminators_null).

Lemma terminators_null_parent w r d die :
  sound w -> heap w !! r = Some d ->
  terminators_null (set_obj w r (DIE.with_parent d die)).
Proof.
  intros [_ Hall] Hd. apply (terminators_null_set_obj w r d); [done|done|done|].
  intros t Ht. by apply (Hall r d t).
Qed.

Lemma terminators_null_terminator w r d c cd :
  sound w -> heap w !! r = Some d -> heap w !! c = Some cd ->
  DIE.is_null cd = true ->
  terminators_null (set_obj w r (DIE.with_terminator d c)).
Proof.
  intros [_ Hall] Hd Hcd Hn.
  apply (terminators_null_set_obj w r d); [done|done|done|].
  intros t [= <-]. eauto.
Qed.

Lemma terminators_null_get_top_DIE w res w' :
  sound w -> get_top w = (res, w') -> terminators_null w'.
Proof.
  intros [Hinv Hall] Heq.
  pose proof (get_top_DIE_outcome DIE_parse translate_indirect w Hinv) as Hout.
  rewrite Heq in Hout.
  inversion Hout as [r Hne Hr|e Hn Hp|p e Hn Hp Ht|p a Hn Hp Ht]; subst;
    try done; [by apply terminators_null_alloc_insert|].
  eapply terminators_null_set_obj;
    [by apply terminators_null_alloc_insert|apply heap_alloc_insert_new|done|done].
Qed.

Lemma terminators_null_get_cached_DIE off w res w' :
  sound w -> get_cached off w = (res, w') -> terminators_null w'.
Proof.
  intros [Hinv Hall] Heq.
  rewrite (get_cached_DIE_unfold DIE_parse translate_indirect w off Hinv) in Heq.
  destruct (get_top w) as [[e|t] w1] eqn:Htop.
  - injection Heq as <- <-. by eapply terminators_null_get_top_DIE.
  - pose proof (terminators_null_get_top_DIE w _ _ (conj Hinv Hall) Htop) as Hall1.
    destruct (get_top_DIE_inv DIE_parse translate_indirect w _ _ Hinv Htop)
      as (Hinv1 & _ & _ & _ & Hr).
    destruct (Hr t eq_refl) as (Hne & _).
    pose proof (get_cached_DIE_outcome DIE_parse translate_indirect w1 off Hinv1 Hne)
      as Hout.
    rewrite Heq in Hout.
    inversion Hout as [r Hhit|e Hnew Hp|p Hnew Hp]; subst; try done.
    by apply terminators_null_alloc_insert.
Qed.

Hypothesis import_holds :
  forall r name, holds terminators_null (get_DIE_from_attribute r name).

Lemma sound_new u : _dielist u = [] -> _diemap u = [] -> sound (new_world u).
Proof.
  intros Hl Hm. split; [by apply cache_inv_new|].
  intros r d t Hd. simpl in Hd. by destruct r.
Qed.

Lemma sound_lookup off w res w' :
  sound w -> True -> get_cached off w = (res, w') -> terminators_null w'.
Proof. intros Hg _. by apply terminators_null_get_cached_DIE. Qed.

Lemma sound_cursor w r d :
  sound w -> heap w !! r = Some d ->
  True /\
  (forall a z, DIE.get_attr "DW_AT_sibling" (DIE.attributes d) = Some a ->
               resolve_sibling (tu_offset (tu w)) a = Some z -> True).
Proof. done. Qed.

Lemma sound_after_all cs w :
  sound w ->
  sound (after_all DIE_parse translate_indirect supplementary_dwarfinfo
                   get_DIE_from_attribute dwarfinfo_get_abbrev_table cs w).
Proof.
  intros Hg.
  apply (after_all_good DIE_parse translate_indirect supplementary_dwarfinfo
           get_DIE_from_attribute terminators_null (fun _ => True)
           terminators_null_parent terminators_null_terminator
           terminators_null_get_top_DIE sound_lookup sound_cursor
           (fun _ _ _ _ => Logic.I)
           import_holds dwarfinfo_get_abbrev_table
           (fun w0 a Hg0 => proj2 Hg0)
           (fun _ => True) (fun _ _ => Logic.I)); [|done|by apply Forall_true].
  intros fuel g w0 _ _. by destruct g.
Qed.

(** X18: in every state a client can reach from a new unit, whatever
    the stream holds, a terminator recorded in a DIE is a DIE object of
    the unit, and a null DIE: where [die._terminator] is not [None], its
    offset and size can be read. *)
Theorem recorded_terminator_is_null (cs : list call) h s tu_off tu_die_off :
  let w := after_all DIE_parse translate_indirect supplementary_dwarfinfo
                     get_DIE_from_attribute dwarfinfo_get_abbrev_table cs
                     (new_world (TypeUnit_init h s tu_off tu_die_off)) in
  forall r d t, heap w !! r = Some d -> DIE._terminator d = Some t ->
    exists td, heap w !! t = Some td /\ DIE.is_null td = true.
Proof.
  intros w. apply (sound_after_all cs). by apply sound_new.
Qed.

(** *** What the operations raise *)

(** The errors a client is to expect: those of the DIE constructor, of the
    translation of the top DIE's attributes and of the import, the range
    check of [get_DIE_from_refaddr], the sibling form that is not
    implemented, and a recursion too deep. *)
Inductive expected (e : exception) : Prop :=
| from_constructor off : DIE_parse off = inl e -> expected e
| from_translation attrs : translate_indirect attrs = inl e -> expected e
| from_import r name w w' :
    get_DIE_from_attribute r name w = (inl e, w') -> expected e
| from_range_check msg : e = DWARFError msg -> expected e
| from_sibling_form msg : e = NotImplementedError msg -> expected e
| from_depth : e = RecursionError -> expected e.

Lemma bind_inl {A B} (m : M A) (k : A -> M B) w e w' :
  bind m k w = (inl e, w') ->
  m w = (inl e, w') \/ exists a w1, m w = (inr a, w1) /\ k a w1 = (inl e, w').
Proof.
  unfold bind. destruct (m w) as [[e0|a] w1]; [intros [= <- <-]; by left|eauto].
Qed.

Lemma extends_is_Some w w' r :
  extends w w' -> is_Some (heap w !! r) -> is_Some (heap w' !! r).
Proof.
  intros Hext [d Hd]. destruct (ext_heap _ _ Hext r d Hd) as (d' & Hd' & _). eauto.
Qed.

Lemma set_obj_is_Some w r d r0 :
  is_Some (heap w !! r0) -> is_Some (heap (set_obj w r d) !! r0).
Proof.
  intros H. apply lookup_lt_is_Some. apply lookup_lt_is_Some in H.
  simpl. by rewrite length_insert.
Qed.

Lemma get_top_DIE_expected w e w' :
  cache_inv w -> get_top w = (inl e, w') -> expected e.
Proof.
  intros Hinv Heq.
  pose proof (get_top_DIE_outcome DIE_parse translate_indirect w Hinv) as Hout.
  rewrite Heq in Hout.
  inversion Hout as [r Hne Hr|e0 Hn Hp|p e0 Hn Hp Ht|p a Hn Hp Ht]; subst.
  - by eapply from_constructor.
  - by eapply from_translation.
Qed.

Lemma get_top_DIE_object w r w' :
  cache_inv w -> get_top w = (inr r, w') -> is_Some (heap w' !! r).
Proof.
  intros Hinv Heq.
  destruct (get_top_DIE_inv DIE_parse translate_indirect w _ _ Hinv Heq)
    as (Hinv' & _ & _ & _ & Hr).
  destruct (Hr r eq_refl) as (Hne & H0).
  destruct (_diemap (tu w')) as [|o dm] eqn:E; [done|].
  destruct (inv_obj w' Hinv' 0%nat o r) as (d & Hd & _); [by rewrite E|done|eauto].
Qed.

Lemma get_cached_DIE_expected off w e w' :
  cache_inv w -> get_cached off w = (inl e, w') -> expected e.
Proof.
  intros Hinv Heq.
  rewrite (get_cached_DIE_unfold DIE_parse translate_indirect w off Hinv) in Heq.
  destruct (get_top w) as [[e0|t] w1] eqn:Htop.
  - injection Heq as <- <-. by eapply get_top_DIE_expected.
  - destruct (get_top_DIE_inv DIE_parse translate_indirect w _ _ Hinv Htop)
      as (Hinv1 & _ & _ & _ & Hr).
    destruct (Hr t eq_refl) as (Hne & _).
    pose proof (get_cached_DIE_outcome DIE_parse translate_indirect w1 off Hinv1 Hne)
      as Hout.
    rewrite Heq in Hout.
    inversion Hout as [r Hhit|e0 Hnew Hp|p Hnew Hp]; subst.
    by eapply from_constructor.
Qed.

Lemma get_cached_DIE_object off w r w' :
  cache_inv w -> get_cached off w = (inr r, w') -> is_Some (heap w' !! r).
Proof.
  intros Hinv Heq.
  destruct (get_cached_DIE_inv DIE_parse translate_indirect w off _ _ Hinv Heq)
    as (Hinv' & _).
  destruct (get_cached_DIE_cached DIE_parse translate_indirect w off r w' Hinv Heq)
    as (i & Hm & Hl).
  destruct (inv_obj w' Hinv' i off r Hm Hl) as (d & Hd & _). eauto.
Qed.

Lemma get_DIE_from_refaddr_expected refaddr w e w' :
  cache_inv w -> from_refaddr refaddr w = (inl e, w') -> expected e.
Proof.
  intros Hinv Heq. unfold get_DIE_from_refaddr, bind, gets, dwarf_assert in Heq.
  destruct ((cu_die_offset (tu w) <=? refaddr) &&
            (refaddr <? cu_offset (tu w) + size (tu w))); simpl in Heq.
  - by eapply get_cached_DIE_expected.
  - injection Heq as <- _. by eapply from_range_check.
Qed.

Lemma fetch_child_expected die cur w e w' :
  cache_inv w -> is_Some (heap w !! die) ->
  fetch die cur w = (inl e, w') -> expected e.
Proof.
  intros Hinv Hdie H. unfold fetch_child in H.
  apply bind_inl in H as [H|(c & w1 & Hget & H)];
    [by eapply get_cached_DIE_expected|].
  destruct (get_cached_DIE_object _ _ _ _ Hinv Hget) as [cd Hcd].
  destruct (get_cached_DIE_inv DIE_parse translate_indirect w cur _ _ Hinv Hget)
    as (_ & Hext1).
  pose proof (extends_is_Some _ _ _ Hext1 Hdie) as Hdie1.
  unfold bind at 1 in H. unfold set_parent in H.
  rewrite (update_eq w1 c cd (fun d => DIE.with_parent d die) Hcd) in H.
  unfold bind at 1 in H.
  rewrite (deref_eq _ c _ (heap_set_obj_eq w1 c cd _ Hcd)) in H.
  destruct (DIE.is_null (DIE.with_parent cd die)); [|done].
  destruct (set_obj_is_Some w1 c (DIE.with_parent cd die) die Hdie1) as [dd Hdd].
  unfold bind, set_terminator in H.
  by rewrite (update_eq _ die dd (fun d => DIE.with_terminator d c) Hdd) in H.
Qed.

(** The references a generator holds are objects. *)
Definition live (w : World) (g : children_gen) : Prop :=
  match g with
  | GenStart die => is_Some (heap w !! die)
  | GenYielded die _ child => is_Some (heap w !! die) /\ is_Some (heap w !! child)
  | GenDone => True
  end.

Lemma live_extends w w' g : extends w w' -> live w g -> live w' g.
Proof.
  intros Hext. destruct g as [die|die cur c|]; simpl; [|intros [H1 H2]; split|done];
    by eapply extends_is_Some.
Qed.

Lemma sound_gen_next fuel g w res w' :
  sound w -> next_child fuel g w = (res, w') -> sound w' /\ extends w w'.
Proof.
  intros Hg Heq.
  assert (Hr : resumable (fun _ => True) w g) by (by destruct g).
  destruct (gen_next_holds DIE_parse translate_indirect terminators_null
              (fun _ => True) terminators_null_parent terminators_null_terminator
              sound_lookup sound_cursor fuel g w res w' Hg Hr Heq) as (H1 & H2 & _).
  done.
Qed.

Lemma sound_for_in {A} fuel (body : ref -> M A) n :
  (forall c, holds terminators_null (body c)) ->
  forall g, holds terminators_null (for_in (next_child fuel) body n g).
Proof.
  intros Hbody g w res w' Hg Heq.
  assert (Hr : resumable (fun _ => True) w g) by (by destruct g).
  exact (for_in_holds terminators_null (fun _ => True) (next_child fuel) body n
           (gen_next_holds DIE_parse translate_indirect terminators_null
              (fun _ => True) terminators_null_parent terminators_null_terminator
              sound_lookup sound_cursor fuel)
           Hbody g w res w' Hg Hr Heq).
Qed.

(** A resumption that returns hands out objects. *)
Lemma gen_next_live fuel g w o g' w' :
  cache_inv w -> live w g -> next_child fuel g w = (inr (o, g'), w') ->
  live w' g' /\ (forall c, o = Some c -> is_Some (heap w' !! c)).
Proof.
  intros Hinv Hl Heq.
  destruct (keeps_gen_next DIE_parse translate_indirect fuel g w _ _ Hinv Heq)
    as (_ & Hext).
  apply gen_next_inr in Heq.
  assert (Hs : forall die, is_Some (heap w !! die) ->
            stops_or_yields die (o, g') w' ->
            live w' g' /\ (forall c, o = Some c -> is_Some (heap w' !! c))).
  { intros die Hdie [([= -> ->] & _)|(cur & c & cd & [= -> ->] & Hcd & _)].
    - done.
    - split; [split; [by eapply extends_is_Some|eauto]|].
      intros c0 [= <-]. eauto. }
  destruct g as [die|die cur child|].
  - destruct Heq as [(d & _ & _ & [= -> ->] & _)|Hsy]; [done|by apply (Hs die)].
  - destruct Hl as [Hdie _]. by apply (Hs die).
  - by destruct Heq as [[= -> ->] _].
Qed.

Section ForIn.

Context {A : Type}.
Variable fuel : nat.
Variable body : ref -> M A.

Hypothesis next_expected : forall g w e w',
  sound w -> live w g -> next_child fuel g w = (inl e, w') -> expected e.
Hypothesis body_holds : forall c, holds terminators_null (body c).
Hypothesis body_expected : forall c w e w',
  sound w -> is_Some (heap w !! c) -> body c w = (inl e, w') -> expected e.

Lemma for_in_expected n : forall g w e w',
  sound w -> live w g ->
  for_in (next_child fuel) body n g w = (inl e, w') -> expected e.
Proof.
  induction n as [|n IH]; intros g w e w' Hg Hl H.
  - injection H as <- _. by apply from_depth.
  - cbn [for_in] in H.
    apply bind_inl in H as [H|([o g'] & w1 & Hnext & H)];
      [by eapply next_expected|].
    destruct (sound_gen_next fuel g w _ _ Hg Hnext) as (Hg1 & Hext1).
    destruct (gen_next_live fuel g w o g' w1 (proj1 Hg) Hl Hnext) as (Hl1 & Hc).
    destruct o as [c|]; [|done].
    apply bind_inl in H as [H|(x & w2 & Hx & H)];
      [by apply (body_expected c w1 e w' Hg1 (Hc c eq_refl))|].
    destruct (body_holds c w1 _ _ Hg1 Hx) as (Hg2 & Hext2).
    apply bind_inl in H as [H|(xs & w3 & _ & H)]; [|done].
    apply (IH g' w2 e w' Hg2); [by eapply live_extends|done].
Qed.

End ForIn.

Lemma gen_next_expected fuel : forall g w e w',
  sound w -> live w g -> next_child fuel g w = (inl e, w') -> expected e.
Proof.
  induction fuel as [|fuel IH]; intros g w e w' Hg Hl H.
  { injection H as <- _. by apply from_depth. }
  destruct g as [die|die cur child|]; cbn [gen_next] in H; [| |done].
  - destruct Hl as [d Hd]. unfold bind at 1 in H. rewrite (deref_eq _ _ _ Hd) in H.
    destruct (negb (DIE.has_children d)); [done|].
    eapply fetch_child_expected; [apply Hg| |exact H]. eauto.
  - destruct Hl as [Hdie [c Hc]].
    unfold bind at 1 in H. rewrite (deref_eq _ _ _ Hc) in H.
    assert (Hdrain : forall g0, holds terminators_null
              (for_in (next_child fuel) (fun _ : ref => ret tt) fuel g0)).
    { apply sound_for_in. intros c0.
      apply (holds_ret terminators_null). }
    match type of H with
    | bind ?m _ w = _ =>
        assert (Hcur : (forall r w1, m w = (r, w1) -> sound w1 /\ extends w w1) /\
                       (forall e1 w1, m w = (inl e1, w1) -> expected e1))
    end.
    { destruct (negb (DIE.has_children c)) eqn:Hk.
      { split; [|done]. intros r w1 [= <- <-]. split; [done|apply extends_refl]. }
      apply negb_false_iff in Hk.
      destruct (DIE.get_attr "DW_AT_sibling" (DIE.attributes c)) as [a|].
      { split.
        - intros r w1 Hs.
          apply (holds_sibling_offset terminators_null a w r w1 Hg Hs).
        - intros e1 w1 Hs. rewrite sibling_offset_resolve in Hs.
          destruct (resolve_sibling (tu_offset (tu w)) a); [done|].
          injection Hs as <- _. by eapply from_sibling_form. }
      assert (Hpre :
        (forall r w0,
           (match DIE._terminator c with
            | None => drain (next_child fuel) fuel (GenStart child)
            | Some _ => ret tt
            end) w = (r, w0) -> sound w0 /\ extends w w0) /\
        (forall e1 w0,
           (match DIE._terminator c with
            | None => drain (next_child fuel) fuel (GenStart child)
            | Some _ => ret tt
            end) w = (inl e1, w0) -> expected e1) /\
        (forall w0,
           (match DIE._terminator c with
            | None => drain (next_child fuel) fuel (GenStart child)
            | Some _ => ret tt
            end) w = (inr tt, w0) ->
           exists c' t td, heap w0 !! child = Some c' /\
             DIE._terminator c' = Some t /\ heap w0 !! t = Some td)).
      { destruct (DIE._terminator c) as [t|] eqn:Ht.
        - split; [|split].
          + intros r w0 [= <- <-]. split; [done|apply extends_refl].
          + done.
          + intros w0 [= <-]. destruct (proj2 Hg child c t Hc Ht) as (td & Htd & _).
            by exists c, t, td.
        - unfold drain. split; [|split].
          + intros r w0 Hd. unfold bind in Hd.
            destruct (for_in (next_child fuel) (fun _ : ref => ret tt) fuel
                             (GenStart child) w) as [[e1|xs] w5] eqn:Ef;
              injection Hd as <- <-; by apply (Hdrain _ w _ _ Hg Ef).
          + intros e1 w0 Hd. apply bind_inl in Hd as [Hd|(xs & w5 & _ & Hd)]; [|done].
            eapply (for_in_expected fuel (fun _ : ref => ret tt) IH);
              [intros c0; apply (holds_ret terminators_null)|done|exact Hg| |exact Hd].
            simpl. eauto.
          + intros w0 Hd. apply bind_inr in Hd as (xs & w5 & Hf & Hd).
            injection Hd as <-.
            destruct (for_in_terminated DIE_parse translate_indirect
                        (fun _ : ref => ret tt) fuel fuel _ _ _ _ child Hf)
              as (c' & t & td & H1 & H2 & H3 & _); [simpl; eauto|].
            by exists c', t, td. }
      destruct Hpre as (Hp1 & Hp2 & Hp3). split.
      - intros r w1 Hm. unfold bind at 1 in Hm.
        match type of Hm with
        | (match ?d w with _ => _ end) = _ =>
            destruct (d w) as [[e1|[]] w0] eqn:Ed
        end.
        + injection Hm as <- <-. by apply (Hp1 _ _ eq_refl).
        + destruct (Hp1 _ _ eq_refl) as (Hg0 & Hext0).
          destruct (Hp3 _ eq_refl) as (c' & t & td & H1 & H2 & H3).
          unfold bind at 1 in Hm. rewrite (deref_eq _ _ _ H1) in Hm.
          unfold bind at 1 in Hm. rewrite H2 in Hm. simpl in Hm.
          unfold bind in Hm. rewrite (deref_eq _ _ _ H3) in Hm.
          by injection Hm as <- <-.
      - intros e1 w1 Hm. apply bind_inl in Hm as [Hm|([] & w0 & Hd & Hm)];
          [by eapply Hp2|].
        destruct (Hp3 _ Hd) as (c' & t & td & H1 & H2 & H3).
        unfold bind at 1 in Hm. rewrite (deref_eq _ _ _ H1) in Hm.
        unfold bind at 1 in Hm. rewrite H2 in Hm. simpl in Hm.
        unfold bind in Hm. by rewrite (deref_eq _ _ _ H3) in Hm. }
    destruct Hcur as (Hc1 & Hc2).
    apply bind_inl in H as [H|(cur' & w1 & Hm & H)]; [by eapply Hc2|].
    destruct (Hc1 _ _ Hm) as (Hg1 & Hext1).
    eapply fetch_child_expected; [apply Hg1| |exact H].
    by eapply extends_is_Some.
Qed.

Lemma iter_DIE_children_expected fuel die w e w' :
  sound w -> is_Some (heap w !! die) ->
  children fuel die w = (inl e, w') -> expected e.
Proof.
  intros Hg Hdie H.
  eapply (for_in_expected fuel (fun c => ret c) (gen_next_expected fuel));
    [intros c; apply (holds_ret terminators_null)|done|exact Hg| |exact H].
  done.
Qed.

Hypothesis import_object : forall r name w r' w',
  get_DIE_from_attribute r name w = (inr r', w') -> is_Some (heap w' !! r').

Lemma sound_iter_DIE_subtree fuel die : holds terminators_null (subtree fuel die).
Proof.
  apply (holds_iter_DIE_subtree DIE_parse translate_indirect
           supplementary_dwarfinfo get_DIE_from_attribute terminators_null
           (fun _ => True) terminators_null_parent terminators_null_terminator
           sound_lookup sound_cursor import_holds).
Qed.

Lemma iter_DIE_subtree_expected fuel : forall die w e w',
  sound w -> is_Some (heap w !! die) ->
  subtree fuel die w = (inl e, w') -> expected e.
Proof.
  induction fuel as [|fuel IH]; intros die w e w' Hg [d0 Hd0] H.
  { injection H as <- _. by apply from_depth. }
  cbn [_iter_DIE_subtree] in H.
  unfold bind at 1 in H. rewrite (deref_eq _ _ _ Hd0) in H.
  apply bind_inl in H as [H|(die' & w1 & Hi & H)].
  { destruct (_ && _); [by eapply from_import|done]. }
  assert (H1 : sound w1 /\ is_Some (heap w1 !! die')).
  { destruct (_ && _).
    - split; [by apply (import_holds _ _ w _ w1 Hg Hi)|by eapply import_object].
    - injection Hi as <- <-. eauto. }
  destruct H1 as (Hg1 & [d Hd]).
  unfold bind at 1 in H. rewrite (deref_eq _ _ _ Hd) in H.
  destruct (DIE.has_children d); [|done].
  apply bind_inl in H as [H|(cs & w2 & Hf & H)].
  - unfold for_children in H.
    apply bind_inl in H as [H|(xss & w2 & _ & H)]; [|done].
    eapply (for_in_expected fuel (subtree fuel) (gen_next_expected fuel));
      [intros c; apply sound_iter_DIE_subtree|exact IH|exact Hg1| |exact H].
    simpl. eauto.
  - assert (Hext : extends w1 w2).
    { unfold for_children, bind in Hf.
      destruct (for_in (next_child fuel) (subtree fuel) fuel (GenStart die') w1)
        as [[e1|xss] w3] eqn:Ef; [done|]. injection Hf as _ <-.
      apply (sound_for_in fuel (subtree fuel) fuel
               (fun c => sound_iter_DIE_subtree fuel c) _ w1 _ _ Hg1 Ef). }
    destruct (ext_heap _ _ Hext die' d Hd) as (d' & Hd' & _).
    unfold bind in H. by rewrite (deref_eq _ _ _ Hd') in H.
Qed.

(** X19: from every state a client can reach from a new unit, whatever
    the stream holds, an exception that leaves [get_top_DIE],
    [_get_cached_DIE], [get_DIE_from_refaddr], [next] on a generator
    of children, [iter_DIE_children], [_iter_DIE_subtree] or [iter_DIEs]
    is an expected one.  The unit's own subscripts [self._dielist[0]]
    and [self._dielist[i - 1]] do not raise IndexError, and
    [child._terminator.offset] is not read from [None]. *)
Theorem only_expected_errors (cs : list call) h s tu_off tu_die_off :
  let w := after_all DIE_parse translate_indirect supplementary_dwarfinfo
                     get_DIE_from_attribute dwarfinfo_get_abbrev_table cs
                     (new_world (TypeUnit_init h s tu_off tu_die_off)) in
  (forall e w', get_top w = (inl e, w') -> expected e) /\
  (forall off e w', get_cached off w = (inl e, w') -> expected e) /\
  (forall refaddr e w', from_refaddr refaddr w = (inl e, w') -> expected e) /\
  (forall fuel g e w',
     live w g -> next_child fuel g w = (inl e, w') -> expected e) /\
  (forall fuel die e w',
     is_Some (heap w !! die) -> children fuel die w = (inl e, w') -> expected e) /\
  (forall fuel die e w',
     is_Some (heap w !! die) -> subtree fuel die w = (inl e, w') -> expected e) /\
  (forall fuel e w', all_DIEs fuel w = (inl e, w') -> expected e).
Proof.
  intros w.
  assert (Hg : sound w) by (apply (sound_after_all cs); by apply sound_new).
  repeat split.
  - intros e w'. apply get_top_DIE_expected, Hg.
  - intros off e w'. apply get_cached_DIE_expected, Hg.
  - intros refaddr e w'. apply get_DIE_from_refaddr_expected, Hg.
  - intros fuel g e w'. by apply gen_next_expected.
  - intros fuel die e w'. by apply iter_DIE_children_expected.
  - intros fuel die e w'. by apply iter_DIE_subtree_expected.
  - intros fuel e w' H. unfold iter_DIEs in H.
    apply bind_inl in H as [H|(t & w1 & Htop & H)];
      [by eapply get_top_DIE_expected; [apply Hg|]|].
    eapply iter_DIE_subtree_expected; [| |exact H].
    + split; [by eapply get_top_DIE_inv; [apply Hg|]|].
      by eapply terminators_null_get_top_DIE.
    + eapply get_top_DIE_object; [apply Hg|done].
Qed.

End Terminators.

(** ** More scenarios on the concrete unit *)

Module Cases.

Import Example Scenarios.

(** A context that names each abbreviation table by its offset. *)
Definition table_at (off : Z) : exception + Z := inr off.

Lemma no_import_keeps : forall r name, keeps (no_import r name).
Proof. intros r name. apply keeps_raise. Qed.

(** A client of the unit whose outer structure carries the stray sibling
    reference: it asks for the children of an object that does not exist
    yet, gets the top entry, the abbreviation table, lists the children
    of the top entry, resolves an address outside the unit. *)
Definition session : list call :=
  [call_iter_DIE_children 4 0%nat; call_get_top_DIE; call_get_abbrev_table;
   call_iter_DIE_children 4 0%nat; call_get_DIE_from_refaddr 60;
   call_has_top_DIE].

Lemma reachable_cache_sorted_witness :
  (forall r name, keeps (no_import r name)) /\
  (let w := after_all stray_sibling no_translate false no_import table_at
                      session (new_world (TypeUnit_init hdr st 0 23)) in
   length (_dielist (tu w)) = length (_diemap (tu w)) /\
   ascending (_diemap (tu w)) /\
   (forall i o r, _diemap (tu w) !! i = Some o -> _dielist (tu w) !! i = Some r ->
      exists d, heap w !! r = Some d /\ DIE.offset d = o) /\
   size (tu w) = unit_length hdr + initial_length_field_size st /\
   cu_offset (tu w) = 0 /\ cu_die_offset (tu w) = 23 /\
   dwarf_format (tu w) = dwarf_format_ st /\
   getitem (tu w) "unit_length" = Some (unit_length hdr) /\
   getitem (tu w) "debug_abbrev_offset" = Some (debug_abbrev_offset hdr)).
Proof.
  split; [exact no_import_keeps|].
  apply (reachable_cache_sorted stray_sibling no_translate false no_import
           table_at no_import_keeps session hdr st 0 23).
Defined.

(** The session, run: the cache it leaves holds the entry of offset 5 in
    front of the top entry, and is sorted. *)
Example session_outcome :
  let w := after_all stray_sibling no_translate false no_import table_at
                     session (new_world (TypeUnit_init hdr st 0 23)) in
  _diemap (tu w) = [5; 23; 25] /\ _dielist (tu w) = [2%nat; 0%nat; 1%nat] /\
  _abbrev_table (tu w) = Some 0.
Proof. repeat split; reflexivity. Qed.

(** The world after the child B was resolved by its address. *)
Definition w25 : World := snd (get_DIE_from_refaddr round_trip no_translate 25 w0).

Lemma refaddr_object_stable_witness :
  (forall r name, keeps (no_import r name)) /\ cache_inv w0 /\
  get_DIE_from_refaddr round_trip no_translate 25 w0 = (inr 1%nat, w25) /\
  (let w2 := after_all round_trip no_translate false no_import table_at
                       [call_iter_DIEs 4; call_get_cached_DIE 30] w25 in
   get_DIE_from_refaddr round_trip no_translate 25 w2 = (inr 1%nat, w2) /\
   (exists d, heap w2 !! 1%nat = Some d /\ DIE.offset d = 25) /\
   cu_die_offset (tu w0) <= 25 < cu_offset (tu w0) + size (tu w0)).
Proof.
  split; [exact no_import_keeps|]. split; [exact w0_cache_inv|].
  split; [reflexivity|].
  apply (refaddr_object_stable round_trip no_translate false no_import table_at
           no_import_keeps [call_iter_DIEs 4; call_get_cached_DIE 30]
           w0 25 1%nat w25 w0_cache_inv).
  reflexivity.
Defined.

(** The round trip with a top entry whose abbreviation code has no
    declaration. *)
Definition broken_top (off : Z) : exception + DIE.parsed :=
  if off =? 23 then inl (ParseFailure 7) else round_trip off.

Lemma top_parse_failure_serves_nothing_witness :
  _diemap (tu w0) = [] /\ _dielist (tu w0) = [] /\
  broken_top (tu_die_offset (tu w0)) = inl (ParseFailure 7) /\
  (refused (ParseFailure 7) 23 (get_top_DIE broken_top no_translate w0) /\
   (forall off, refused (ParseFailure 7) 23
                        (_get_cached_DIE broken_top no_translate off w0)) /\
   (forall refaddr,
       cu_die_offset (tu w0) <= refaddr < cu_offset (tu w0) + size (tu w0) ->
       refused (ParseFailure 7) 23
               (get_DIE_from_refaddr broken_top no_translate refaddr w0)) /\
   (forall fuel,
       refused (ParseFailure 7) 23
               (iter_DIEs broken_top no_translate false no_import fuel w0))).
Proof.
  split; [reflexivity|]. split; [reflexivity|]. split; [reflexivity|].
  apply (top_parse_failure_serves_nothing broken_top no_translate false no_import
           w0 (ParseFailure 7)); reflexivity.
Defined.

(** An attribute form the translation does not know. *)
Definition refuse_translate (a : list (string * DIE.AttributeValue))
  : exception + list (string * DIE.AttributeValue) :=
  inl (DWARFError "indirect form").

Lemma top_translation_failure_stays_cached_witness :
  cache_inv w0 /\ _diemap (tu w0) = [] /\
  round_trip (tu_die_offset (tu w0)) =
    inr (entry "A" true 2 [("DW_AT_language", DIE.mkAttr "DW_FORM_data1" 12)]) /\
  refuse_translate [("DW_AT_language", DIE.mkAttr "DW_FORM_data1" 12)] =
    inl (DWARFError "indirect form") /\
  (exists w1,
      get_top_DIE round_trip refuse_translate w0 =
        (inl (DWARFError "indirect form"), w1) /\
      has_top_DIE w1 = (inr true, w1) /\
      get_top_DIE round_trip refuse_translate w1 = (inr (length (heap w0)), w1) /\
      heap w1 !! length (heap w0) =
        Some (DIE.init (tu_die_offset (tu w0))
                (entry "A" true 2
                       [("DW_AT_language", DIE.mkAttr "DW_FORM_data1" 12)])) /\
      _diemap (tu w1) = [tu_die_offset (tu w0)] /\
      _dielist (tu w1) = [length (heap w0)]).
Proof.
  split; [exact w0_cache_inv|]. split; [reflexivity|]. split; [reflexivity|].
  split; [reflexivity|].
  apply (top_translation_failure_stays_cached round_trip refuse_translate w0
           (entry "A" true 2 [("DW_AT_language", DIE.mkAttr "DW_FORM_data1" 12)])
           (DWARFError "indirect form") w0_cache_inv); reflexivity.
Defined.

Lemma stray_top_cache_inv : cache_inv (top_world stray_sibling).
Proof.
  destruct (top_world_good stray_sibling _ eq_refl) as (_ & Hinv).
  exact (ti_cache _ _ _ _ Hinv).
Qed.

(** Offset 5, inside the header of the unit, looked up once the top
    entry is cached. *)
Lemma lookup_below_top_goes_in_front_witness :
  cache_inv (top_world stray_sibling) /\
  _diemap (tu (top_world stray_sibling)) <> [] /\
  top_first (top_world stray_sibling) /\
  5 < tu_die_offset (tu (top_world stray_sibling)) /\
  stray_sibling 5 = inr null_entry /\
  (let w := top_world stray_sibling in
   let r := length (heap w) in
   exists w',
     _get_cached_DIE stray_sibling no_translate 5 w = (inr r, w') /\
     bisect_right (_diemap (tu w)) 5 = 0%nat /\
     py_index (_diemap (tu w)) (Z.of_nat 0 - 1) = last (_diemap (tu w)) /\
     _diemap (tu w') = 5 :: _diemap (tu w) /\
     _dielist (tu w') = r :: _dielist (tu w) /\
     heap w' !! r = Some (DIE.init 5 null_entry) /\
     get_top_DIE stray_sibling no_translate w' = (inr r, w') /\
     tu_die_offset (tu w') = tu_die_offset (tu w) /\
     ~ top_first w').
Proof.
  assert (Hne : _diemap (tu (top_world stray_sibling)) <> []) by discriminate.
  assert (Htf : top_first (top_world stray_sibling)) by (by right).
  assert (Hlt : 5 < tu_die_offset (tu (top_world stray_sibling)))
    by (simpl; lia).
  split; [exact stray_top_cache_inv|]. split; [exact Hne|]. split; [exact Htf|].
  split; [exact Hlt|]. split; [reflexivity|].
  exact (lookup_below_top_goes_in_front stray_sibling no_translate
           (top_world stray_sibling) 5 null_entry
           stray_top_cache_inv Hne Htf Hlt eq_refl).
Defined.

Lemma get_abbrev_table_asks_once_witness :
  let w1 := snd (get_abbrev_table table_at w0) in
  get_abbrev_table table_at w0 = (inr 0, w1) /\
  ((forall ctx', get_abbrev_table ctx' w1 = (inr 0, w1)) /\
   _abbrev_table (tu w1) = Some 0 /\
   (_abbrev_table (tu w0) = None ->
    exists off, getitem (tu w0) "debug_abbrev_offset" = Some off /\
                table_at off = inr 0) /\
   _dielist (tu w1) = _dielist (tu w0) /\ _diemap (tu w1) = _diemap (tu w0) /\
   heap w1 = heap w0 /\
   (forall wa ctx0 e,
       _abbrev_table (tu wa) = None ->
       ctx0 (debug_abbrev_offset (header (tu wa))) = inl e ->
       get_abbrev_table ctx0 wa = (inl e, wa))).
Proof.
  split; [reflexivity|].
  apply (get_abbrev_table_asks_once table_at w0 0
           (snd (get_abbrev_table table_at w0))).
  reflexivity.
Defined.

(** The children of the round trip's entry A, listed. *)
Definition rt_listed : World :=
  snd (iter_DIE_children round_trip no_translate 4 0%nat rt_top).

Lemma iter_DIE_children_saves_terminator_witness :
  cache_inv rt_top /\ heap rt_top !! 0%nat = Some A_obj /\
  DIE.has_children A_obj = true /\
  iter_DIE_children round_trip no_translate 4 0%nat rt_top =
    (inr [1%nat], rt_listed) /\
  ((exists dd' t td,
       heap rt_listed !! 0%nat = Some dd' /\ DIE._terminator dd' = Some t /\
       heap rt_listed !! t = Some td /\ DIE.is_null td = true /\
       DIE._parent td = Some 0%nat) /\
   Forall (fun c => exists cd, heap rt_listed !! c = Some cd /\
                               DIE.is_null cd = false) [1%nat]).
Proof.
  split; [exact (ti_cache _ _ _ _ rt_top_tree_inv)|]. split; [reflexivity|].
  split; [reflexivity|]. split; [reflexivity|].
  apply (iter_DIE_children_saves_terminator round_trip no_translate rt_top
           0%nat A_obj 4 [1%nat] rt_listed
           (ti_cache _ _ _ _ rt_top_tree_inv)); reflexivity.
Defined.

Definition rt_walked : World :=
  snd (iter_DIEs round_trip no_translate false no_import 4 w0).

Lemma iter_DIEs_yields_DIEs_witness :
  iter_DIEs round_trip no_translate false no_import 4 w0 =
    (inr [Some 0%nat; Some 1%nat; Some 2%nat], rt_walked) /\
  (Forall is_Some [Some 0%nat; Some 1%nat; Some 2%nat] /\
   ((exists r, [Some 0%nat; Some 1%nat; Some 2%nat] = [Some r]) \/
    (exists r mid t td,
        [Some 0%nat; Some 1%nat; Some 2%nat] = Some r :: mid ++ [Some t] /\
        heap rt_walked !! t = Some td /\ DIE.is_null td = true))).
Proof.
  split; [reflexivity|].
  apply (iter_DIEs_yields_DIEs round_trip no_translate no_import 4 w0
           [Some 0%nat; Some 1%nat; Some 2%nat] rt_walked).
  reflexivity.
Defined.

(** The outer structure carries a sibling reference to its own offset. *)
Definition self_sibling : Z -> exception + DIE.parsed :=
  stream (sibling_to "DW_FORM_ref4" 25) no_sibling.

Definition top_obj : DIE.t :=
  DIE.mk 23 (Some "DW_TAG_type_unit") true 2
         [("DW_AT_language", DIE.mkAttr "DW_FORM_data1" 12)] None None.

Lemma self_sibling_tree_inv : tree_inv self_sibling 0 23 (top_world self_sibling).
Proof. by apply (top_world_good self_sibling _ eq_refl). Qed.

Lemma self_sibling_never_ends_witness :
  tree_inv self_sibling 0 23 (top_world self_sibling) /\
  heap (top_world self_sibling) !! 0%nat = Some top_obj /\
  DIE.has_children top_obj = true /\
  DIE.offset top_obj + DIE.size top_obj <> 23 /\
  self_sibling (DIE.offset top_obj + DIE.size top_obj) =
    inr (struct_entry (sibling_to "DW_FORM_ref4" 25)) /\
  DIE.p_tag (struct_entry (sibling_to "DW_FORM_ref4" 25)) <> None /\
  DIE.p_has_children (struct_entry (sibling_to "DW_FORM_ref4" 25)) = true /\
  DIE.get_attr "DW_AT_sibling"
               (DIE.p_attributes (struct_entry (sibling_to "DW_FORM_ref4" 25))) =
    Some (DIE.mkAttr "DW_FORM_ref4" 25) /\
  resolve_sibling 0 (DIE.mkAttr "DW_FORM_ref4" 25) =
    Some (DIE.offset top_obj + DIE.size top_obj) /\
  (forall fuel, exists w',
      iter_DIE_children self_sibling no_translate fuel 0%nat
                        (top_world self_sibling) = (inl RecursionError, w')).
Proof.
  assert (H4 : DIE.offset top_obj + DIE.size top_obj <> 23) by (simpl; lia).
  assert (H6 : DIE.p_tag (struct_entry (sibling_to "DW_FORM_ref4" 25)) <> None)
    by discriminate.
  split; [exact self_sibling_tree_inv|]. split; [reflexivity|].
  split; [reflexivity|]. split; [exact H4|]. split; [reflexivity|].
  split; [exact H6|]. split; [reflexivity|]. split; [reflexivity|].
  split; [reflexivity|].
  exact (self_sibling_never_ends self_sibling no_translate 0 23
           (top_world self_sibling) 0%nat top_obj
           (struct_entry (sibling_to "DW_FORM_ref4" 25))
           (DIE.mkAttr "DW_FORM_ref4" 25)
           self_sibling_tree_inv eq_refl eq_refl H4 eq_refl H6 eq_refl eq_refl
           eq_refl).
Defined.

(** The self reference, run with a little fuel and with more. *)
Example self_sibling_runs :
  fst (iter_DIE_children self_sibling no_translate 5 0%nat
                         (top_world self_sibling)) = inl RecursionError /\
  fst (iter_DIE_children self_sibling no_translate 50 0%nat
                         (top_world self_sibling)) = inl RecursionError /\
  _diemap (tu (snd (iter_DIE_children self_sibling no_translate 50 0%nat
                                      (top_world self_sibling)))) = [23; 25].
Proof. repeat split; reflexivity. Qed.

Lemma iteration_twice_same_objects_witness :
  tree_inv round_trip 0 23 rt_top /\ heap rt_top !! 0%nat = Some A_obj /\
  DIE.has_children A_obj = true /\
  encodes round_trip 0 23 (DIE.offset A_obj + DIE.size A_obj) rt_children /\
  (need rt_children <= 3)%nat /\
  (ok (iter_DIE_children round_trip no_translate 3 0%nat) rt_top (fun l w1 =>
     ok (iter_DIE_children round_trip no_translate 3 0%nat) w1
        (fun l' _ => l' = l)) /\
   (plain_tag false (DIE.tag A_obj) -> all_plain false rt_children ->
    ok (_iter_DIE_subtree round_trip no_translate false no_import 4 0%nat) rt_top
       (fun x w1 =>
          ok (_iter_DIE_subtree round_trip no_translate false no_import 4 0%nat) w1
             (fun x' _ => x' = x)))).
Proof.
  assert (N : (need rt_children <= 3)%nat) by (simpl; lia).
  split; [exact rt_top_tree_inv|]. split; [reflexivity|]. split; [reflexivity|].
  split; [exact rt_encodes|]. split; [exact N|].
  exact (iteration_twice_same_objects round_trip no_translate 0 23 false no_import
           rt_top 0%nat A_obj rt_children 3
           rt_top_tree_inv eq_refl eq_refl rt_encodes N).
Defined.

(** The unit with sibling shortcuts, whole: nine entries. *)
Definition whole_unit : entries :=
  top_list (sibling_to "DW_FORM_ref4" 43) (sibling_to "DW_FORM_ref4" 40).

Definition top_attrs : list (string * DIE.AttributeValue) :=
  [("DW_AT_language", DIE.mkAttr "DW_FORM_data1" 12)].

Lemma whole_unit_encodes :
  encodes with_shortcut 0 23 (23 + DIE.p_size top_entry) whole_unit.
Proof. simpl. solve_encodes. Qed.

Lemma whole_unit_plain : all_plain false whole_unit.
Proof. simpl. repeat split; by left. Qed.

Lemma whole_unit_sized : sized whole_unit.
Proof. simpl. lia. Qed.

Lemma whole_unit_need : (need whole_unit <= 8)%nat.
Proof. simpl. lia. Qed.

Lemma top_entry_plain : plain_tag false (DIE.p_tag top_entry).
Proof. by left. Qed.

Lemma top_entry_size : 0 < DIE.p_size top_entry.
Proof. simpl. lia. Qed.

Lemma iter_DIEs_stream_order_witness :
  with_shortcut 23 = inr top_entry /\
  no_translate (DIE.p_attributes top_entry) = inr top_attrs /\
  plain_tag false (DIE.p_tag top_entry) /\
  DIE.p_has_children top_entry = true /\
  encodes with_shortcut 0 23 (23 + DIE.p_size top_entry) whole_unit /\
  all_plain false whole_unit /\
  0 < DIE.p_size top_entry /\ sized whole_unit /\ (need whole_unit <= 8)%nat /\
  ok (iter_DIEs with_shortcut no_translate false no_import 9)
     (new_world (TypeUnit_init hdr st 0 23))
     (fun x w' =>
        exists os, yielded_at w' x os /\ os !! 0%nat = Some 23 /\
                   ascending os /\ NoDup x /\ length x = S (need whole_unit)).
Proof.
  split; [reflexivity|]. split; [reflexivity|]. split; [exact top_entry_plain|].
  split; [reflexivity|]. split; [exact whole_unit_encodes|].
  split; [exact whole_unit_plain|]. split; [exact top_entry_size|].
  split; [exact whole_unit_sized|]. split; [exact whole_unit_need|].
  exact (iter_DIEs_stream_order with_shortcut no_translate 0 23 false no_import
           hdr st top_entry top_attrs whole_unit
           eq_refl eq_refl top_entry_plain eq_refl whole_unit_encodes
           whole_unit_plain 8 top_entry_size whole_unit_sized whole_unit_need).
Defined.

Lemma iterated_DIEs_resolve_witness :
  with_shortcut 23 = inr top_entry /\
  no_translate (DIE.p_attributes top_entry) = inr top_attrs /\
  plain_tag false (DIE.p_tag top_entry) /\
  DIE.p_has_children top_entry = true /\
  encodes with_shortcut 0 23 (23 + DIE.p_size top_entry) whole_unit /\
  all_plain false whole_unit /\ (need whole_unit <= 8)%nat /\
  ok (iter_DIEs with_shortcut no_translate false no_import 9)
     (new_world (TypeUnit_init hdr st 0 23))
     (fun x w' =>
        forall i r, x !! i = Some (Some r) ->
          exists d, heap w' !! r = Some d /\
            (23 :: walk (23 + DIE.p_size top_entry) whole_unit) !! i =
              Some (DIE.offset d) /\
            _get_cached_DIE with_shortcut no_translate (DIE.offset d) w' =
              (inr r, w') /\
            (23 <= DIE.offset d <
               0 + (unit_length hdr + initial_length_field_size st) ->
             get_DIE_from_refaddr with_shortcut no_translate (DIE.offset d) w' =
               (inr r, w'))).
Proof.
  split; [reflexivity|]. split; [reflexivity|]. split; [exact top_entry_plain|].
  split; [reflexivity|]. split; [exact whole_unit_encodes|].
  split; [exact whole_unit_plain|]. split; [exact whole_unit_need|].
  exact (iterated_DIEs_resolve with_shortcut no_translate 0 23 false no_import
           hdr st top_entry top_attrs whole_unit
           eq_refl eq_refl top_entry_plain eq_refl whole_unit_encodes
           whole_unit_plain 8 whole_unit_need).
Defined.

Lemma full_iteration_fills_cache_witness :
  with_shortcut 23 = inr top_entry /\
  no_translate (DIE.p_attributes top_entry) = inr top_attrs /\
  plain_tag false (DIE.p_tag top_entry) /\
  DIE.p_has_children top_entry = true /\
  encodes with_shortcut 0 23 (23 + DIE.p_size top_entry) whole_unit /\
  all_plain false whole_unit /\
  0 < DIE.p_size top_entry /\ sized whole_unit /\ (need whole_unit <= 8)%nat /\
  ok (iter_DIEs with_shortcut no_translate false no_import 9)
     (new_world (TypeUnit_init hdr st 0 23))
     (fun x w' =>
        _diemap (tu w') = 23 :: walk (23 + DIE.p_size top_entry) whole_unit /\
        x = Some <$> _dielist (tu w') /\
        top_first w' /\
        length (heap w') = S (need whole_unit)).
Proof.
  split; [reflexivity|]. split; [reflexivity|]. split; [exact top_entry_plain|].
  split; [reflexivity|]. split; [exact whole_unit_encodes|].
  split; [exact whole_unit_plain|]. split; [exact top_entry_size|].
  split; [exact whole_unit_sized|]. split; [exact whole_unit_need|].
  exact (full_iteration_fills_cache with_shortcut no_translate 0 23 false no_import
           hdr st top_entry top_attrs whole_unit 8
           eq_refl eq_refl top_entry_plain eq_refl whole_unit_encodes
           whole_unit_plain top_entry_size whole_unit_sized whole_unit_need).
Defined.

(** The whole unit, run: the cache after the iteration and the objects
    yielded (an object is numbered by the order of its creation: the
    walk parses each entry when it reaches it). *)
Example whole_unit_run :
  let run := iter_DIEs with_shortcut no_translate false no_import 9 w0 in
  _diemap (tu (snd run)) = [23; 25; 31; 37; 39; 40; 42; 43; 44] /\
  _dielist (tu (snd run)) = [0; 1; 2; 3; 4; 5; 6; 7; 8]%nat /\
  fst run = inr (Some <$> _dielist (tu (snd run))).
Proof. repeat split; reflexivity. Qed.

Lemma get_top_DIE_parses_top_entry_witness :
  cache_inv w0 /\ _diemap (tu w0) = [] /\
  with_shortcut (tu_die_offset (tu w0)) = inr top_entry /\
  no_translate (DIE.p_attributes top_entry) = inr top_attrs /\
  (exists t w1,
      get_top_DIE with_shortcut no_translate w0 = (inr t, w1) /\
      heap w0 !! t = None /\
      heap w1 !! t =
        Some (DIE.mk (tu_die_offset (tu w0)) (DIE.p_tag top_entry)
                     (DIE.p_has_children top_entry) (DIE.p_size top_entry)
                     top_attrs None None) /\
      _diemap (tu w1) = [tu_die_offset (tu w0)] /\ _dielist (tu w1) = [t] /\
      length (heap w1) = S (length (heap w0)) /\
      (forall r d, heap w0 !! r = Some d -> heap w1 !! r = Some d)).
Proof.
  split; [exact w0_cache_inv|]. split; [reflexivity|]. split; [reflexivity|].
  split; [reflexivity|].
  exact (get_top_DIE_parses_top_entry with_shortcut no_translate w0
           top_entry top_attrs w0_cache_inv eq_refl eq_refl eq_refl).
Defined.

(** The session of the stray sibling reference: the top entry is no
    longer first, but it is cached. *)
Lemma stray_import_holds_top_cached :
  forall r name, holds top_cached (no_import r name).
Proof. intros r name. apply holds_raise. Qed.

Lemma top_entry_cached_whenever_any_witness :
  (forall r name, holds top_cached (no_import r name)) /\
  (let w := after_all stray_sibling no_translate false no_import table_at
                      session (new_world (TypeUnit_init hdr st 0 23)) in
   (_diemap (tu w) = [] \/
    exists j t d, _diemap (tu w) !! j = Some 23 /\
                  _dielist (tu w) !! j = Some t /\
                  heap w !! t = Some d /\ DIE.offset d = 23) /\
   (has_top_DIE w = (inr true, w) -> exists j, _diemap (tu w) !! j = Some 23)).
Proof.
  split; [exact stray_import_holds_top_cached|].
  exact (top_entry_cached_whenever_any stray_sibling no_translate false no_import
           table_at stray_import_holds_top_cached session hdr st 0 23).
Defined.

Lemma one_object_per_offset_witness :
  let w := after_all stray_sibling no_translate false import_partial_unit
                     table_at session (new_world (TypeUnit_init hdr st 0 23)) in
  (forall r d, heap w !! r = Some d ->
     exists i, _diemap (tu w) !! i = Some (DIE.offset d) /\
               _dielist (tu w) !! i = Some r) /\
  (forall r r' d d', heap w !! r = Some d -> heap w !! r' = Some d' ->
                     DIE.offset d = DIE.offset d' -> r = r') /\
  length (heap w) = length (_diemap (tu w)).
Proof.
  exact (one_object_per_offset stray_sibling no_translate import_partial_unit
           table_at session hdr st 0 23).
Defined.

(** The stream with its shortcuts has no negative size and no sibling
    reference below the top offset. *)
Ltac stream_cases H :=
  unfold with_shortcut, stream in H;
  repeat match type of H with
         | (if ?b then _ else _) = _ => destruct b
         end;
  try discriminate H; injection H as <-.

Lemma with_shortcut_sizes off p : with_shortcut off = inr p -> 0 <= DIE.p_size p.
Proof. intros H. stream_cases H; simpl; lia. Qed.

Lemma with_shortcut_siblings off p :
  with_shortcut off = inr p -> forward 0 23 (DIE.p_attributes p).
Proof.
  intros H. stream_cases H; intros a z Ha Hz; simpl in Ha;
    try discriminate Ha; injection Ha as <-; injection Hz as <-; lia.
Qed.

Lemma with_shortcut_translated p attrs :
  with_shortcut 23 = inr p -> no_translate (DIE.p_attributes p) = inr attrs ->
  forward 0 23 attrs.
Proof.
  intros Hp [= <-]. by apply (with_shortcut_siblings 23).
Qed.

(** A client inside the unit: it walks the unit, resolves the inner
    structure by its address, lists the children of the outer structure,
    looks up a cached offset and resumes a generator of the top entry. *)
Definition visit : list call :=
  [call_iter_DIEs 9; call_get_DIE_from_refaddr 31;
   call_iter_DIE_children 5 1%nat; call_get_cached_DIE 40;
   call_next 3 (GenYielded 0%nat 25 1%nat)].

Lemma visit_inside : Forall (inside_unit 23) visit.
Proof. repeat constructor; simpl; lia. Qed.

Lemma top_entry_stays_first_witness :
  (forall off p, with_shortcut off = inr p -> 0 <= DIE.p_size p) /\
  (forall off p, with_shortcut off = inr p -> forward 0 23 (DIE.p_attributes p)) /\
  (forall p attrs, with_shortcut 23 = inr p ->
                   no_translate (DIE.p_attributes p) = inr attrs ->
                   forward 0 23 attrs) /\
  Forall (inside_unit 23) visit /\
  (let w := after_all with_shortcut no_translate false import_partial_unit
                      table_at visit (new_world (TypeUnit_init hdr st 0 23)) in
   top_first w /\
   (forall i o, _diemap (tu w) !! i = Some o -> 23 <= o) /\
   (_diemap (tu w) <> [] ->
    exists t d, get_top_DIE with_shortcut no_translate w = (inr t, w) /\
                _dielist (tu w) !! 0%nat = Some t /\
                heap w !! t = Some d /\ DIE.offset d = 23)).
Proof.
  split; [exact with_shortcut_sizes|]. split; [exact with_shortcut_siblings|].
  split; [exact with_shortcut_translated|].
  split; [exact visit_inside|].
  exact (top_entry_stays_first with_shortcut no_translate import_partial_unit
           table_at 0 23 with_shortcut_sizes with_shortcut_siblings
           with_shortcut_translated visit hdr st visit_inside).
Defined.

(** The import of a partial unit allocates one object, with no
    terminator, and leaves the cache alone. *)
Lemma import_partial_unit_holds :
  forall r name, holds terminators_null (import_partial_unit r name).
Proof.
  intros r name w res w' [Hinv Hall] [= <- <-].
  split; [split|].
  - split; [apply (inv_len w Hinv)|apply (inv_asc w Hinv)|].
    intros i o r0 Hm Hl. destruct (inv_obj w Hinv i o r0 Hm Hl) as (d & Hd & Ho).
    exists d. split; [|done]. simpl. by apply lookup_app_l_Some.
  - intros r0 d t Hd Ht. simpl in Hd.
    apply lookup_app_Some in Hd as [Hd|[_ Hd]].
    + destruct (Hall r0 d t Hd Ht) as (td & Htd & Hn). exists td.
      split; [|done]. simpl. by apply lookup_app_l_Some.
    + apply list_lookup_singleton_Some in Hd as [_ <-]. done.
  - split; [by repeat split| |done].
    intros r0 d Hd. exists d. split; [simpl; by apply lookup_app_l_Some|].
    split; [apply same_entry_refl|done].
Qed.

Lemma import_partial_unit_object r name w r' w' :
  import_partial_unit r name w = (inr r', w') -> is_Some (heap w' !! r').
Proof.
  intros [= <- <-]. exists partial_unit. simpl.
  rewrite lookup_app_r by lia. by rewrite Nat.sub_diag.
Qed.

(** A client of the unit with the imported unit: it lists the children
    of the top entry, walks everything twice, and resumes a generator of
    the top entry's children. *)
Definition import_session : list call :=
  [call_get_top_DIE; call_iter_DIE_children 4 0%nat; call_iter_DIEs 4;
   call_next 4 (GenStart 0%nat); call_iter_DIEs 4].

Lemma recorded_terminator_is_null_witness :
  (forall r name, holds terminators_null (import_partial_unit r name)) /\
  (let w := after_all with_import no_translate true import_partial_unit table_at
                      import_session (new_world (TypeUnit_init hdr st 0 23)) in
   forall r d t, heap w !! r = Some d -> DIE._terminator d = Some t ->
     exists td, heap w !! t = Some td /\ DIE.is_null td = true).
Proof.
  split; [exact import_partial_unit_holds|].
  exact (recorded_terminator_is_null with_import no_translate true
           import_partial_unit table_at import_partial_unit_holds
           import_session hdr st 0 23).
Defined.

(** In that state the top entry has its terminator recorded. *)
Example import_session_terminator :
  let w := after_all with_import no_translate true import_partial_unit table_at
                     import_session (new_world (TypeUnit_init hdr st 0 23)) in
  (DIE._terminator <$> heap w !! 0%nat) = Some (Some 3%nat) /\
  (DIE.is_null <$> heap w !! 3%nat) = Some true.
Proof. by vm_compute. Qed.

Lemma only_expected_errors_witness :
  (forall r name, holds terminators_null (import_partial_unit r name)) /\
  (forall r name w r' w',
     import_partial_unit r name w = (inr r', w') -> is_Some (heap w' !! r')) /\
  (let w := after_all with_import no_translate true import_partial_unit table_at
                      import_session (new_world (TypeUnit_init hdr st 0 23)) in
   let expected := expected with_import no_translate import_partial_unit in
   (forall e w', get_top_DIE with_import no_translate w = (inl e, w') ->
                 expected e) /\
   (forall off e w', _get_cached_DIE with_import no_translate off w = (inl e, w') ->
                     expected e) /\
   (forall refaddr e w',
      get_DIE_from_refaddr with_import no_translate refaddr w = (inl e, w') ->
      expected e) /\
   (forall fuel g e w',
      live w g -> gen_next with_import no_translate fuel g w = (inl e, w') ->
      expected e) /\
   (forall fuel die e w',
      is_Some (heap w !! die) ->
      iter_DIE_children with_import no_translate fuel die w = (inl e, w') ->
      expected e) /\
   (forall fuel die e w',
      is_Some (heap w !! die) ->
      _iter_DIE_subtree with_import no_translate true import_partial_unit
                        fuel die w = (inl e, w') -> expected e) /\
   (forall fuel e w',
      iter_DIEs with_import no_translate true import_partial_unit fuel w
        = (inl e, w') -> expected e)).
Proof.
  split; [exact import_partial_unit_holds|].
  split; [exact import_partial_unit_object|].
  exact (only_expected_errors with_import no_translate true import_partial_unit
           table_at import_partial_unit_holds import_partial_unit_object
           import_session hdr st 0 23).
Defined.

(** In that state a lookup past the entries of the stream raises what
    the constructor raised, and a walk too deep its own error. *)
Example import_session_errors :
  let w := after_all with_import no_translate true import_partial_unit table_at
                     import_session (new_world (TypeUnit_init hdr st 0 23)) in
  fst (get_DIE_from_refaddr with_import no_translate 40 w)
    = inl (ParseFailure 99) /\
  fst (iter_DIEs with_import no_translate true import_partial_unit 1 w)
    = inl RecursionError.
Proof. by vm_compute. Qed.

End Cases.
